(** * Directory Analytics: snapshot reconciliation and lazy duplicate detection

    A shallow embedding of the SQLite-backed core of the tool
    ([database.py], [scanner.py], [analytics.py], [config.py]) together with the
    properties of its reconciliation engine and duplicate grouper.

    The [files] table is a list of rows in rowid order.  An SQL [UPDATE]
    maps over the rows, an [INSERT] appends one row and enforces the
    [UNIQUE] constraint on [full_path], a [SELECT ... WHERE] filters.
    Python dictionaries and sets built by the code are stdpp finite maps
    and sets.  Services of the operating system (the directory walk,
    [os.stat], the digest of a file) are fields of a [World] record.
    Numbers that SQLite computes are 64-bit: a product that leaves the
    integers is a [REAL], a [SUM] of integers that does raises. *)

From Stdlib Require Import ZArith String.
From stdpp Require Import base option list sorting gmap strings fin_maps fin_sets.

Local Open Scope Z_scope.

(** ** Configuration ([config.py]) *)

Module Config.
Definition SKIP_HIDDEN_FILES : bool := false.
Definition MAX_SAME_SIZE_FILES : Z := 100.
Definition MIN_FILE_SIZE_FOR_HASH : Z := 1.
End Config.

(** ** Data model *)

(** The dictionary returned by [get_file_metadata]. *)
Record Metadata := {
  md_file_name : string;
  md_file_extension : string;
  md_file_size_bytes : Z;
  md_file_size_readable : string;
  md_parent_directory : string;
  md_full_path : string;
  md_created_timestamp : option string;
  md_modified_timestamp : option string;
  md_file_hash : option string
}.

(** One row of the [files] table created by [init_db].  Nullable columns
    that the code leaves or sets to [NULL] are options.  [is_deleted] only
    ever holds 0 or 1 and is a boolean here ([true] is 1). *)
Record Row := {
  row_id : Z;
  file_name : string;
  file_extension : string;
  file_size_bytes : Z;
  file_size_readable : string;
  parent_directory : string;
  full_path : string;
  scan_root_directory : option string;
  created_timestamp : option string;
  modified_timestamp : option string;
  file_hash : option string;
  duplicate_group : option Z;
  hash_computed_at : option string;
  is_deleted : bool;
  first_seen : string;
  last_seen : string;
  deleted_at : option string
}.

#[global] Instance Metadata_eq_dec : EqDecision Metadata.
Proof. solve_decision. Defined.

#[global] Instance Row_eq_dec : EqDecision Row.
Proof. solve_decision. Defined.

Abbreviation Table := (list Row).

(** Schema constraints of [init_db]: [full_path TEXT UNIQUE] and
    [id INTEGER PRIMARY KEY]. *)
Definition table_wf (t : Table) : Prop :=
  NoDup (full_path <$> t) ∧ NoDup (row_id <$> t).

#[global] Instance table_wf_dec t : Decision (table_wf t).
Proof. unfold table_wf. apply _. Defined.

(** ** Exceptions *)

Inductive Exn :=
| IntegrityError (constraint : string)
| OperationalError (message : string).

Inductive Result (A : Type) :=
| Ok (a : A)
| Raise (e : Exn).
Arguments Ok {A} a.
Arguments Raise {A} e.

#[global] Instance Result_ret : MRet Result := fun A a => Ok a.
#[global] Instance Result_bind : MBind Result := fun A B f m =>
  match m with
  | Ok a => f a
  | Raise e => Raise e
  end.

(** ** SQL statements on the table *)

(** [UPDATE files SET ... WHERE P]. *)
Definition sql_update (P : Row → Prop) `{∀ r, Decision (P r)}
    (f : Row → Row) (t : Table) : Table :=
  (λ r, if decide (P r) then f r else r) <$> t.

(** What [cursor.rowcount] holds after [sql_update]. *)
Definition sql_rowcount (P : Row → Prop) `{∀ r, Decision (P r)}
    (t : Table) : Z :=
  Z.of_nat (length (filter P t)).

(** The id given by [AUTOINCREMENT].  The code never removes a row, so the
    largest id ever used is the largest id in the table. *)
Definition next_rowid (t : Table) : Z :=
  1 + foldr Z.max 0 (row_id <$> t).

(** The row written by the [INSERT] of [process_batch] and [upsert_file];
    columns absent from the statement take their default. *)
Definition inserted_row (now scan_root : string) (md : Metadata) (rid : Z) : Row :=
  {| row_id := rid;
     file_name := md_file_name md;
     file_extension := md_file_extension md;
     file_size_bytes := md_file_size_bytes md;
     file_size_readable := md_file_size_readable md;
     parent_directory := md_parent_directory md;
     full_path := md_full_path md;
     scan_root_directory := Some scan_root;
     created_timestamp := md_created_timestamp md;
     modified_timestamp := md_modified_timestamp md;
     file_hash := md_file_hash md;
     duplicate_group := None;
     hash_computed_at := None;
     is_deleted := false;
     first_seen := now;
     last_seen := now;
     deleted_at := None |}.

(** [INSERT INTO files (...)]: fails on a [full_path] already in the table,
    whatever the scan root of the row that holds it. *)
Definition sql_insert (now scan_root : string) (md : Metadata) (t : Table)
    : Result Table :=
  if decide (md_full_path md ∈ (full_path <$> t))
  then Raise (IntegrityError "UNIQUE constraint failed: files.full_path")
  else Ok (t ++ [inserted_row now scan_root md (next_rowid t)]).

(** The assignment list of the [UPDATE] of [process_batch] and
    [upsert_file]: every column but the id, the path, the hash columns,
    the group and [first_seen]. *)
Definition refreshed_row (now scan_root : string) (md : Metadata) (r : Row) : Row :=
  {| row_id := row_id r;
     file_name := md_file_name md;
     file_extension := md_file_extension md;
     file_size_bytes := md_file_size_bytes md;
     file_size_readable := md_file_size_readable md;
     parent_directory := md_parent_directory md;
     full_path := full_path r;
     scan_root_directory := Some scan_root;
     created_timestamp := md_created_timestamp md;
     modified_timestamp := md_modified_timestamp md;
     file_hash := file_hash r;
     duplicate_group := duplicate_group r;
     hash_computed_at := hash_computed_at r;
     is_deleted := false;
     last_seen := now;
     first_seen := first_seen r;
     deleted_at := None |}.

(** [UPDATE files SET is_deleted = 1, deleted_at = ?]. *)
Definition soft_deleted_row (now : string) (r : Row) : Row :=
  {| row_id := row_id r;
     file_name := file_name r;
     file_extension := file_extension r;
     file_size_bytes := file_size_bytes r;
     file_size_readable := file_size_readable r;
     parent_directory := parent_directory r;
     full_path := full_path r;
     scan_root_directory := scan_root_directory r;
     created_timestamp := created_timestamp r;
     modified_timestamp := modified_timestamp r;
     file_hash := file_hash r;
     duplicate_group := duplicate_group r;
     hash_computed_at := hash_computed_at r;
     is_deleted := true;
     first_seen := first_seen r;
     last_seen := last_seen r;
     deleted_at := Some now |}.

(** ** Reconciliation ([scanner.py]) *)

Record Stats := {
  inserted : Z;
  updated : Z;
  restored : Z;
  deleted : Z
}.

Inductive OpType := OpInsert | OpUpdate.

#[global] Instance OpType_eq_dec : EqDecision OpType.
Proof. solve_decision. Defined.

(** An entry of [batch]: [(op_type, metadata, was_deleted)]. *)
Definition BatchOp : Type := OpType * Metadata * option bool.

(** One iteration of the loop of [process_batch]. *)
Definition process_op (scan_root now : string) (op : BatchOp)
    (acc : Table * Stats) : Result (Table * Stats) :=
  let '(op_type, metadata, was_deleted) := op in
  let '(t, stats) := acc in
  match op_type with
  | OpInsert =>
      t' ← sql_insert now scan_root metadata t;
      mret (t', {| inserted := inserted stats + 1; updated := updated stats;
                   restored := restored stats; deleted := deleted stats |})
  | OpUpdate =>
      let t' := sql_update (λ r, full_path r = md_full_path metadata)
                           (refreshed_row now scan_root metadata) t in
      if decide (was_deleted = Some true)
      then mret (t', {| inserted := inserted stats; updated := updated stats;
                        restored := restored stats + 1; deleted := deleted stats |})
      else mret (t', {| inserted := inserted stats; updated := updated stats + 1;
                        restored := restored stats; deleted := deleted stats |})
  end.

Fixpoint process_batch (batch : list BatchOp) (scan_root now : string)
    (acc : Table * Stats) : Result (Table * Stats) :=
  match batch with
  | [] => mret acc
  | op :: batch' =>
      acc' ← process_op scan_root now op acc;
      process_batch batch' scan_root now acc'
  end.

(** The dictionary [existing] of [bulk_sync_database]: path to
    [is_deleted] over the rows of the scan root, a later row replacing an
    earlier one with the same key. *)
Definition existing_paths (scan_root : string) (t : Table) : gmap string bool :=
  foldl (λ m r, <[full_path r := is_deleted r]> m) ∅
        (filter (λ r, scan_root_directory r = Some scan_root) t).

(** The entry appended to [batch] for one observed file. *)
Definition prepare_op (existing : gmap string bool) (metadata : Metadata) : BatchOp :=
  match existing !! md_full_path metadata with
  | Some d => (OpUpdate, metadata, Some d)
  | None => (OpInsert, metadata, None)
  end.

Definition batch_size : nat := 1000.

(** The [for i, metadata in enumerate(all_files)] loop. *)
Fixpoint sync_loop (existing : gmap string bool) (scan_root now : string)
    (all_files : list Metadata) (acc : Table * Stats)
    (scanned_paths : gset string) (batch : list BatchOp)
    : Result (Table * Stats * gset string * list BatchOp) :=
  match all_files with
  | [] => mret (acc, scanned_paths, batch)
  | metadata :: rest =>
      let scanned_paths := scanned_paths ∪ {[md_full_path metadata]} in
      let batch := batch ++ [prepare_op existing metadata] in
      if decide (batch_size ≤ length batch)%nat
      then acc' ← process_batch batch scan_root now acc;
           sync_loop existing scan_root now rest acc' scanned_paths []
      else sync_loop existing scan_root now rest acc scanned_paths batch
  end.

(** [UPDATE files SET is_deleted = 1, deleted_at = ? WHERE full_path = ?
    AND is_deleted = 0]. *)
Definition mark_path (now : string) (path : string) (t : Table) : Table :=
  sql_update (λ r, full_path r = path ∧ is_deleted r = false)
             (soft_deleted_row now) t.

(** One iteration of [for path in deleted_paths]. *)
Definition mark_step (existing : gmap string bool) (now : string)
    (acc : Table * Stats) (path : string) : Table * Stats :=
  let '(t, stats) := acc in
  if decide (existing !! path = Some false)
  then (mark_path now path t,
        {| inserted := inserted stats; updated := updated stats;
           restored := restored stats; deleted := deleted stats + 1 |})
  else acc.

(** [bulk_sync_database(all_files, scan_root)], [now] being the time stamp
    it takes at its start.  [conn.commit()] is its last statement, so an
    exception leaves the table as it was; the caller of a [Raise] keeps
    the old table.  The elapsed time put in [stats] is left out. *)
Definition bulk_sync_database (now : string) (all_files : list Metadata)
    (scan_root : string) (t : Table) : Result (Table * Stats) :=
  let stats := {| inserted := 0; updated := 0; restored := 0; deleted := 0 |} in
  let existing := existing_paths scan_root t in
  '(acc, scanned_paths, batch) ←
      sync_loop existing scan_root now all_files (t, stats) ∅ [];
  acc ← (if decide (batch = []) then mret acc
         else process_batch batch scan_root now acc);
  let deleted_paths := dom existing ∖ scanned_paths in
  mret (foldl (mark_step existing now) acc (elements deleted_paths)).

(** ** The store interface ([database.py]) *)

(** [upsert_file(metadata, scan_root)]: looks the path up in the whole
    table, then inserts or refreshes.  The insert cannot fail, the path
    was just found absent. *)
Inductive UpsertResult := UInserted | UUpdated | URestored.

Definition upsert_file (now : string) (metadata : Metadata) (scan_root : string)
    (t : Table) : Table * UpsertResult :=
  match head (filter (λ r, full_path r = md_full_path metadata) t) with
  | None =>
      (t ++ [inserted_row now scan_root metadata (next_rowid t)], UInserted)
  | Some existing =>
      let was_deleted := is_deleted existing in
      (sql_update (λ r, full_path r = md_full_path metadata)
                  (refreshed_row now scan_root metadata) t,
       if was_deleted then URestored else UUpdated)
  end.

(** [mark_deleted(paths_to_delete)]. *)
Definition mark_deleted (now : string) (paths_to_delete : list string)
    (t : Table) : Table * Z :=
  foldl (λ '(t, count) path,
           (mark_path now path t,
            count + sql_rowcount (λ r, full_path r = path ∧ is_deleted r = false) t))
        (t, 0) paths_to_delete.

Definition get_all_active_paths (scan_root : string) (t : Table) : gset string :=
  list_to_set (full_path <$>
    filter (λ r, is_deleted r = false ∧ scan_root_directory r = Some scan_root) t).

Definition get_file_count (scan_root : string) (t : Table) : Z :=
  Z.of_nat (length
    (filter (λ r, is_deleted r = false ∧ scan_root_directory r = Some scan_root) t)).

(** ** Lazy hashing and duplicate grouping ([database.py]) *)

(** What the code asks of the operating system.  [stat_metadata] is the
    [os.stat] part of [get_file_metadata] ([None] when it raises),
    [calculate_hash] the digest of the file's bytes ([None] on a read
    failure). *)
Record World := {
  get_scan_directory : string;
  normalize_path : string → string;
  path_exists : string → bool;
  path_isdir : string → bool;
  os_walk : string → list (string * list string);
  path_join : string → string → string;
  stat_metadata : string → option Metadata;
  calculate_hash : string → option string
}.

Definition with_file_hash (h computed_at : string) (r : Row) : Row :=
  {| row_id := row_id r;
     file_name := file_name r;
     file_extension := file_extension r;
     file_size_bytes := file_size_bytes r;
     file_size_readable := file_size_readable r;
     parent_directory := parent_directory r;
     full_path := full_path r;
     scan_root_directory := scan_root_directory r;
     created_timestamp := created_timestamp r;
     modified_timestamp := modified_timestamp r;
     file_hash := Some h;
     duplicate_group := duplicate_group r;
     hash_computed_at := Some computed_at;
     is_deleted := is_deleted r;
     first_seen := first_seen r;
     last_seen := last_seen r;
     deleted_at := deleted_at r |}.

Definition with_duplicate_group (g : option Z) (r : Row) : Row :=
  {| row_id := row_id r;
     file_name := file_name r;
     file_extension := file_extension r;
     file_size_bytes := file_size_bytes r;
     file_size_readable := file_size_readable r;
     parent_directory := parent_directory r;
     full_path := full_path r;
     scan_root_directory := scan_root_directory r;
     created_timestamp := created_timestamp r;
     modified_timestamp := modified_timestamp r;
     file_hash := file_hash r;
     duplicate_group := g;
     hash_computed_at := hash_computed_at r;
     is_deleted := is_deleted r;
     first_seen := first_seen r;
     last_seen := last_seen r;
     deleted_at := deleted_at r |}.

(** The rows of the first query of [get_size_candidates] before grouping. *)
Definition hashable_rows (scan_root : string) (t : Table) : Table :=
  filter (λ r, is_deleted r = false
               ∧ Config.MIN_FILE_SIZE_FOR_HASH ≤ file_size_bytes r
               ∧ scan_root_directory r = Some scan_root) t.

(** [GROUP BY file_size_bytes HAVING COUNT( * ) > 1 AND COUNT( * ) <= ?
    ORDER BY file_size_bytes DESC]: the sizes with their counts. *)
Definition size_groups (scan_root : string) (t : Table) : list (Z * Z) :=
  let sel := hashable_rows scan_root t in
  let sizes := merge_sort (flip Z.le) (remove_dups (file_size_bytes <$> sel)) in
  filter (λ g, 1 < g.2 ∧ g.2 ≤ Config.MAX_SAME_SIZE_FILES)
         ((λ size, (size, Z.of_nat (length (filter (λ r, file_size_bytes r = size) sel))))
            <$> sizes).

(** The second query of [get_size_candidates], run once per size. *)
Definition size_members (scan_root : string) (size : Z) (t : Table)
    : list (Z * string * option string) :=
  (λ r, (row_id r, full_path r, file_hash r)) <$>
    filter (λ r, is_deleted r = false ∧ file_size_bytes r = size
                 ∧ scan_root_directory r = Some scan_root) t.

(** [get_size_candidates(scan_root)]: the dictionary in insertion order. *)
Definition get_size_candidates (scan_root : string) (t : Table)
    : list (Z * list (Z * string * option string)) :=
  (λ g, (g.1, size_members scan_root g.1 t)) <$> size_groups scan_root t.

(** [enumerate(l, start)]. *)
Fixpoint enumerate {A} (start : Z) (l : list A) : list (Z * A) :=
  match l with
  | [] => []
  | x :: l' => (start, x) :: enumerate (start + 1) l'
  end.

(** [GROUP BY file_hash HAVING COUNT( * ) > 1] over the active hashed rows
    of the scan root.  SQL leaves the order of the groups open; they are
    listed here as [remove_dups] leaves them. *)
Definition duplicate_hashes (scan_root : string) (t : Table) : list (string * Z) :=
  let sel := filter (λ r, is_deleted r = false ∧ is_Some (file_hash r)
                          ∧ scan_root_directory r = Some scan_root) t in
  filter (λ g, 1 < g.2)
         ((λ h, (h, Z.of_nat (length (filter (λ r, file_hash r = Some h) sel))))
            <$> remove_dups (omap file_hash sel)).

(** One iteration of [for group_id, row in enumerate(duplicate_hashes, 1)]. *)
Definition assign_group (scan_root : string) (t : Table) (g : Z * (string * Z)) : Table :=
  sql_update (λ r, file_hash r = Some g.2.1 ∧ is_deleted r = false
                   ∧ scan_root_directory r = Some scan_root)
             (with_duplicate_group (Some g.1)) t.

(** [assign_duplicate_groups(cursor, scan_root)]. *)
Definition assign_duplicate_groups (scan_root : string) (t : Table) : Table * Z :=
  let t0 := sql_update (λ r, scan_root_directory r = Some scan_root)
                       (with_duplicate_group None) t in
  let dups := duplicate_hashes scan_root t0 in
  (foldl (assign_group scan_root) t0 (enumerate 1 dups), Z.of_nat (length dups)).

(** What a hashing pass does outside the table. *)
Inductive Event :=
| ProgressCallback (processed total : Z)
| HashFile (filepath : string).

Record HashState := {
  hs_table : Table;
  files_hashed : Z;
  processed : Z;
  hs_trace : list Event
}.

(** The body of the inner loop of [compute_hashes_for_candidates].
    [progress_callback] tells whether a callback was passed. *)
Definition hash_candidate (w : World) (now : string) (progress_callback : bool)
    (total_candidates : Z) (st : HashState) (c : Z * string * option string)
    : HashState :=
  let '(file_id, filepath, existing_hash) := c in
  let processed := processed st + 1 in
  let trace :=
    if progress_callback && bool_decide (processed `mod` 10 = 0)
    then hs_trace st ++ [ProgressCallback processed total_candidates]
    else hs_trace st in
  let skip := {| hs_table := hs_table st; files_hashed := files_hashed st;
                 processed := processed; hs_trace := trace |} in
  match existing_hash with
  | Some _ => skip
  | None =>
      if negb (path_exists w filepath) then skip
      else
        let trace := trace ++ [HashFile filepath] in
        match calculate_hash w filepath with
        | Some file_hash =>
            if decide (file_hash = EmptyString)
            then {| hs_table := hs_table st; files_hashed := files_hashed st;
                    processed := processed; hs_trace := trace |}
            else {| hs_table := sql_update (λ r, row_id r = file_id)
                                           (with_file_hash file_hash now) (hs_table st);
                    files_hashed := files_hashed st + 1;
                    processed := processed; hs_trace := trace |}
        | None => {| hs_table := hs_table st; files_hashed := files_hashed st;
                     processed := processed; hs_trace := trace |}
        end
  end.

(** [for size, files in candidates.items(): for ... in files]. *)
Definition hash_candidates (w : World) (now : string) (progress_callback : bool)
    (total_candidates : Z) (candidates : list (Z * list (Z * string * option string)))
    (st : HashState) : HashState :=
  foldl (λ st c, foldl (hash_candidate w now progress_callback total_candidates)
                       st c.2)
        st candidates.

(** [compute_hashes_for_candidates(progress_callback, scan_root)]: the new
    table, [(files_hashed, duplicate_groups)] and the trace. *)
Definition compute_hashes_for_candidates (w : World) (now : string)
    (progress_callback : bool) (scan_root : string) (t : Table)
    : Table * (Z * Z) * list Event :=
  let candidates := get_size_candidates scan_root t in
  if decide (candidates = []) then (t, (0, 0), [])
  else
    let total_candidates :=
      foldr Z.add 0 ((λ c, Z.of_nat (length c.2)) <$> candidates) in
    let st := hash_candidates w now progress_callback total_candidates candidates
                {| hs_table := t; files_hashed := 0; processed := 0;
                   hs_trace := [] |} in
    let '(t', duplicate_groups) := assign_duplicate_groups scan_root (hs_table st) in
    (t', (files_hashed st, duplicate_groups), hs_trace st).

(** ** Arithmetic of SQLite *)

(** The range of an [INTEGER]: signed, 64 bits. *)
Definition int64_min : Z := - 2 ^ 63.
Definition int64_max : Z := 2 ^ 63 - 1.

Definition in_int64 (n : Z) : Prop := int64_min ≤ n ∧ n ≤ int64_max.

#[global] Instance in_int64_dec n : Decision (in_int64 n).
Proof. unfold in_int64. apply _. Defined.

(** A number as a statement yields it: an [INTEGER], or a [REAL].  A
    [REAL] arises here only where a result has left the integers; it is a
    rounded floating-point number, whose value is not represented. *)
Inductive SqlNum :=
| SqlInt (n : Z)
| SqlReal.

(** [a * b] on two integers: the product while it is a 64-bit integer,
    the floating-point product otherwise. *)
Definition sql_mul (a b : Z) : SqlNum :=
  if decide (in_int64 (a * b)) then SqlInt (a * b) else SqlReal.

(** The accumulator of the aggregate [SUM]: an exact integer sum, a
    floating-point sum once a [REAL] was added, or the mark that an
    integer addition overflowed while every value so far was an integer.
    A [REAL] added after the mark makes the sum a floating-point sum, as
    documented for [SUM]; older releases of SQLite keep the mark. *)
Inductive SumState :=
| SumInt (n : Z)
| SumReal
| SumOverflow.

Definition sum_step (st : SumState) (v : SqlNum) : SumState :=
  match st, v with
  | SumInt acc, SqlInt n =>
      if decide (in_int64 (acc + n)) then SumInt (acc + n) else SumOverflow
  | SumOverflow, SqlInt _ => SumOverflow
  | _, SqlReal => SumReal
  | SumReal, SqlInt _ => SumReal
  end.

(** [SUM(...)] over the values of the selected rows, in the order the
    rows are visited: [NULL] ([None]) over no row, a [REAL] when a value
    is one, and over integers alone the error [integer overflow] when an
    addition overflowed. *)
Definition sql_sum (values : list SqlNum) : Result (option SqlNum) :=
  match values with
  | [] => Ok None
  | _ =>
      match foldl sum_step (SumInt 0) values with
      | SumInt n => Ok (Some (SqlInt n))
      | SumReal => Ok (Some SqlReal)
      | SumOverflow => Raise (OperationalError "integer overflow")
      end
  end.

(** The rows both queries of [get_duplicate_group_stats] read. *)
Definition grouped_rows (scan_root : string) (t : Table) : Table :=
  filter (λ r, is_deleted r = false ∧ is_Some (duplicate_group r)
               ∧ scan_root_directory r = Some scan_root) t.

(** [SELECT (COUNT( * ) - 1) * file_size_bytes ... GROUP BY duplicate_group]
    for one group.  [file_size_bytes] is a bare column of an aggregate
    query, SQLite reads it from one row of the group; the first is taken
    here. *)
Definition group_wasted (scan_root : string) (t : Table) (g : Z) : SqlNum :=
  let members := filter (λ r, duplicate_group r = Some g) (grouped_rows scan_root t) in
  sql_mul (Z.of_nat (length members) - 1) (from_option file_size_bytes 0 (head members)).

Record DuplicateStats := {
  duplicate_files : Z;
  duplicate_groups : Z;
  wasted_bytes : SqlNum
}.

(** The first query of [get_duplicate_group_stats]:
    [(total_dup_files, num_groups)]. *)
Definition count_duplicates (scan_root : string) (t : Table) : Z * Z :=
  let rows := grouped_rows scan_root t in
  (Z.of_nat (length rows), Z.of_nat (length (remove_dups (omap duplicate_group rows)))).

(** Its second query: [SUM(wasted)] over the groups.  SQL leaves the
    order of the groups open; they are added here as [remove_dups] lists
    them. *)
Definition total_wasted (scan_root : string) (t : Table) : Result (option SqlNum) :=
  sql_sum (group_wasted scan_root t
             <$> remove_dups (omap duplicate_group (grouped_rows scan_root t))).

(** [get_duplicate_group_stats(scan_root)]: the error of the second query
    passes through; [or 0] turns its [NULL] into 0.  A [REAL] is kept: it
    sums products beyond 2^63 of sizes that are never negative, so it is
    not zero. *)
Definition get_duplicate_group_stats (scan_root : string) (t : Table)
    : Result DuplicateStats :=
  let result := count_duplicates scan_root t in
  wasted ← total_wasted scan_root t;
  mret {| duplicate_files := result.1;
          duplicate_groups := result.2;
          wasted_bytes := default (SqlInt 0) wasted |}.

(** [run_duplicate_detection(progress_callback)] of [analytics.py]:
    [(files_hashed, num_groups, stats)], or the error of the statistics,
    with the table the pass has committed and the trace. *)
Definition run_duplicate_detection (w : World) (now : string)
    (progress_callback : bool) (scan_root : string) (t : Table)
    : Table * Result (Z * Z * DuplicateStats) * list Event :=
  let '(t', (files_hashed, num_groups), trace) :=
    compute_hashes_for_candidates w now progress_callback scan_root t in
  (t',
   stats ← get_duplicate_group_stats scan_root t';
   mret (files_hashed, num_groups, stats),
   trace).

(** ** The scan ([scanner.py]) *)

(** [get_file_metadata(filepath)]. *)
Definition get_file_metadata (w : World) (filepath : string) : option Metadata :=
  st ← stat_metadata w filepath;
  Some {| md_file_name := md_file_name st;
          md_file_extension := md_file_extension st;
          md_file_size_bytes := md_file_size_bytes st;
          md_file_size_readable := md_file_size_readable st;
          md_parent_directory := md_parent_directory st;
          md_full_path := filepath;
          md_created_timestamp := md_created_timestamp st;
          md_modified_timestamp := md_modified_timestamp st;
          md_file_hash := None |}.

(** Phase 1 of [scan_directory]: [(all_files, errors)]. *)
Definition collect_files (w : World) (directory : string) : list Metadata * Z :=
  foldl (λ acc dir,
    foldl (λ '(all_files, errors) filename,
             if Config.SKIP_HIDDEN_FILES && String.prefix "." filename
             then (all_files, errors)
             else match get_file_metadata w (path_join w dir.1 filename) with
                  | None => (all_files, errors + 1)
                  | Some metadata => (all_files ++ [metadata], errors)
                  end)
          acc dir.2)
    ([], 0) (os_walk w directory).

(** The database file: [None] until [init_db] has created the table. *)
Definition init_db (db : option Table) : option Table :=
  match db with
  | None => Some []
  | Some t => Some t
  end.

Record ScanStats := {
  sync : Stats;
  scanned : Z;
  errors : Z
}.

(** How [scan_directory] ends: it prints an error line and returns [None],
    it returns the statistics, or an exception of the store passes through. *)
Inductive ScanOutcome :=
| ScanError (printed : string)
| ScanDone (stats : ScanStats)
| ScanRaised (e : Exn).

(** [scan_directory(directory)] on the database file.  The progress and
    summary lines it prints are left out. *)
Definition scan_directory (w : World) (now : string) (directory : option string)
    (db : option Table) : ScanOutcome * option Table :=
  let directory := default (get_scan_directory w) directory in
  let scan_root := normalize_path w directory in
  if negb (path_exists w directory)
  then (ScanError (String.append "  [ERROR] Directory does not exist: " directory), db)
  else if negb (path_isdir w directory)
  then (ScanError (String.append "  [ERROR] Path is not a directory: " directory), db)
  else
    let db := init_db db in
    let '(all_files, errors) := collect_files w directory in
    match bulk_sync_database now all_files scan_root (default [] db) with
    | Ok (t, stats) =>
        (ScanDone {| sync := stats; scanned := Z.of_nat (length all_files);
                     errors := errors |}, Some t)
    | Raise e => (ScanRaised e, db)
    end.

(** ** Sequences of store operations *)

(** The operations that write to the table.  A reconciliation that raises
    commits nothing. *)
Inductive Action :=
| Reconcile (now : string) (all_files : list Metadata) (scan_root : string)
| Upsert (now : string) (metadata : Metadata) (scan_root : string)
| MarkDeleted (now : string) (paths_to_delete : list string)
| DetectDuplicates (w : World) (now : string) (progress_callback : bool)
                   (scan_root : string)
| Regroup (scan_root : string).

Definition run_action (t : Table) (a : Action) : Table :=
  match a with
  | Reconcile now all_files scan_root =>
      match bulk_sync_database now all_files scan_root t with
      | Ok (t', _) => t'
      | Raise _ => t
      end
  | Upsert now metadata scan_root => (upsert_file now metadata scan_root t).1
  | MarkDeleted now paths_to_delete => (mark_deleted now paths_to_delete t).1
  | DetectDuplicates w now progress_callback scan_root =>
      (compute_hashes_for_candidates w now progress_callback scan_root t).1.1
  | Regroup scan_root => (assign_duplicate_groups scan_root t).1
  end.

Definition run_actions (t : Table) (acts : list Action) : Table :=
  foldl run_action t acts.

(** The ordinary reconciliation operations: insert, update, restore and
    soft delete. *)
Definition is_reconciliation (a : Action) : bool :=
  match a with
  | Reconcile _ _ _ | Upsert _ _ _ | MarkDeleted _ _ => true
  | DetectDuplicates _ _ _ _ | Regroup _ => false
  end.

(** ** Notions used by the statements *)

(** The paths of the update and of the insert entries of a batch. *)
Definition upd_paths (batch : list BatchOp) : list string :=
  (λ op : BatchOp, md_full_path op.1.2) <$>
    filter (λ op : BatchOp, op.1.1 = OpUpdate) batch.

Definition ins_paths (batch : list BatchOp) : list string :=
  (λ op : BatchOp, md_full_path op.1.2) <$>
    filter (λ op : BatchOp, op.1.1 = OpInsert) batch.

(** What a refresh leaves alone. *)
Definition row_kept (r r' : Row) : Prop :=
  row_id r' = row_id r ∧ full_path r' = full_path r
  ∧ file_hash r' = file_hash r ∧ duplicate_group r' = duplicate_group r
  ∧ hash_computed_at r' = hash_computed_at r ∧ first_seen r' = first_seen r.

(** What a refresh or an insert establishes. *)
Definition row_fresh (scan_root now : string) (r : Row) : Prop :=
  is_deleted r = false ∧ deleted_at r = None
  ∧ scan_root_directory r = Some scan_root ∧ last_seen r = now.

(** How many entries of a batch satisfy [P]. *)
Definition count_ops (P : BatchOp → Prop) `{!∀ op, Decision (P op)}
    (batch : list BatchOp) : Z :=
  Z.of_nat (length (filter P batch)).

(** The paths among [paths] that the soft-delete loop of
    [bulk_sync_database] marks. *)
Definition marked_paths (existing : gmap string bool) (paths : list string)
    : list string :=
  filter (λ path, existing !! path = Some false) paths.

(** The paths of the scan root that are soft-deleted. *)
Definition soft_deleted_paths (scan_root : string) (t : Table) : gset string :=
  list_to_set (full_path <$>
    filter (λ r, is_deleted r = true ∧ scan_root_directory r = Some scan_root) t).

(** A file for the examples. *)
Definition example_file (path : string) (size : Z) : Metadata :=
  {| md_file_name := path; md_file_extension := ".txt";
     md_file_size_bytes := size; md_file_size_readable := "";
     md_parent_directory := "/data"; md_full_path := path;
     md_created_timestamp := None; md_modified_timestamp := None;
     md_file_hash := None |}.

(** Every row of [t] is still at its position in [t'], related by [R]. *)
Definition rows_related (R : Row → Row → Prop) (t t' : Table) : Prop :=
  ∀ i r, t !! i = Some r → ∃ r', t' !! i = Some r' ∧ R r r'.

(** The duplicate-grouping columns are what they were. *)
Definition group_kept (r r' : Row) : Prop :=
  row_id r' = row_id r ∧ full_path r' = full_path r
  ∧ duplicate_group r' = duplicate_group r.

(** How many active records of the scan root hold the hash [h]. *)
Definition active_hash_count (scan_root : string) (t : Table) (h : string) : nat :=
  length (filter (λ r, is_deleted r = false ∧ scan_root_directory r = Some scan_root
                       ∧ file_hash r = Some h) t).

(** What the group-assignment loop of [assign_duplicate_groups] does to one
    row. *)
Definition assign_row (scan_root : string) (gs : list (Z * (string * Z))) (r : Row) : Row :=
  foldl (λ r g, if decide (file_hash r = Some g.2.1 ∧ is_deleted r = false
                           ∧ scan_root_directory r = Some scan_root)
                then with_duplicate_group (Some g.1) r else r) r gs.

(** What the reset statement of [assign_duplicate_groups] does to one row. *)
Definition reset_row (scan_root : string) (r : Row) : Row :=
  if decide (scan_root_directory r = Some scan_root)
  then with_duplicate_group None r else r.

(** How many active records of the scan root, at or above the minimum
    hashable size, have the size [size]. *)
Definition size_count (scan_root : string) (t : Table) (size : Z) : Z :=
  Z.of_nat (length (filter
    (λ r, is_deleted r = false ∧ Config.MIN_FILE_SIZE_FOR_HASH ≤ file_size_bytes r
          ∧ scan_root_directory r = Some scan_root ∧ file_size_bytes r = size) t)).

(** How many active records of the scan root are in the duplicate group [g]. *)
Definition group_count (scan_root : string) (t : Table) (g : Z) : Z :=
  Z.of_nat (length (filter
    (λ r, is_deleted r = false ∧ scan_root_directory r = Some scan_root
          ∧ duplicate_group r = Some g) t)).

(** A row for the examples. *)
Definition example_row (rid : Z) (path : string) (size : Z) (hash : option string)
    (group : option Z) (is_del : bool) : Row :=
  {| row_id := rid; file_name := path; file_extension := ".txt";
     file_size_bytes := size; file_size_readable := "";
     parent_directory := "/data"; full_path := path;
     scan_root_directory := Some "/data";
     created_timestamp := None; modified_timestamp := None;
     file_hash := hash; duplicate_group := group;
     hash_computed_at := None; is_deleted := is_del;
     first_seen := "2026-01-01T10:00:00"; last_seen := "2026-01-01T10:00:00";
     deleted_at := if is_del then Some "2026-01-02T10:00:00" else None |}.

(** A world in which every file exists and hashes to ["d41d8"]. *)
Definition example_world : World :=
  {| get_scan_directory := "/data";
     normalize_path := λ path, path;
     path_exists := λ _, true;
     path_isdir := λ _, true;
     os_walk := λ _, [];
     path_join := String.append;
     stat_metadata := λ _, None;
     calculate_hash := λ _, Some "d41d8" |}.

(** The hasher is called on candidates only, and only the rows of
    candidates are written. *)
Definition hashing_confined (cands : list (Z * list (Z * string * option string)))
    (st st' : HashState) : Prop :=
  (∀ p, HashFile p ∈ hs_trace st' →
        HashFile p ∈ hs_trace st
        ∨ ∃ size files c, (size, files) ∈ cands ∧ c ∈ files ∧ c.1.2 = p)
  ∧ (∀ i r, hs_table st !! i = Some r →
        (∀ size files c, (size, files) ∈ cands → c ∈ files → c.1.1 ≠ row_id r) →
        hs_table st' !! i = Some r).

(** 150 active files of 4096 bytes each in one scan root. *)
Definition crowded_table : Table :=
  (λ k, example_row (Z.of_nat k + 1)
          (String.append "/data/" (String (Ascii.ascii_of_nat (48 + k)) EmptyString))
          4096 None None false) <$> seq 0 150.

(** A table for the examples: two active files and one soft-deleted file
    of the scan root ["/data"]. *)
Definition example_table : Table :=
  [example_row 1 "/data/a" 1000 (Some "d41d8") (Some 1) false;
   example_row 2 "/data/b" 1000 (Some "d41d8") (Some 1) false;
   example_row 3 "/data/c" 500 (Some "9e107") None true].

(** The table a successful reconciliation commits, the table as it was
    when it raises. *)
Definition table_after (now : string) (all_files : list Metadata)
    (scan_root : string) (t : Table) : Table :=
  run_action t (Reconcile now all_files scan_root).

(** ** Further callers ([analytics.py]) *)

(** [get_potential_duplicate_count()]: [(total, len(candidates))]. *)
Definition get_potential_duplicate_count (scan_root : string) (t : Table) : Z * Z :=
  let candidates := get_size_candidates scan_root t in
  (foldr Z.add 0 ((λ c, Z.of_nat (length c.2)) <$> candidates),
   Z.of_nat (length candidates)).

(** Where the hash of a row can come from in a hashing pass: it is the
    hash the row had, or the row had none, its file exists and the hasher
    returned this non-empty digest for its path. *)
Definition hash_provenance (w : World) (now : string) (r r' : Row) : Prop :=
  row_id r' = row_id r ∧ full_path r' = full_path r
  ∧ ((file_hash r' = file_hash r ∧ hash_computed_at r' = hash_computed_at r)
     ∨ (file_hash r = None ∧ path_exists w (full_path r) = true
        ∧ ∃ h, calculate_hash w (full_path r) = Some h ∧ h ≠ EmptyString
               ∧ file_hash r' = Some h ∧ hash_computed_at r' = Some now)).

(** The file paths [scan_directory] visits, in the order of the walk. *)
Definition walked_paths (w : World) (directory : string) : list string :=
  os_walk w directory ≫= λ dir, path_join w dir.1 <$> dir.2.

(** The state columns of a row agree: it is flagged deleted exactly when
    it has a deletion time, and it belongs to a scan root. *)
Definition row_consistent (r : Row) : Prop :=
  (is_deleted r = true ↔ is_Some (deleted_at r))
  ∧ is_Some (scan_root_directory r).

(** A world for the examples of the walk: the directory holds the files
    [a], whose metadata can be read, and [x], whose metadata cannot. *)
Definition walk_world : World :=
  {| get_scan_directory := "/data";
     normalize_path := λ path, path;
     path_exists := λ _, true;
     path_isdir := λ _, true;
     os_walk := λ directory, [(directory, ["a"; "x"])];
     path_join := λ dir filename, String.append dir (String.append "/" filename);
     stat_metadata := λ path, if decide (path = "/data/a")
                              then Some (example_file path 1000) else None;
     calculate_hash := λ _, None |}.

(** ** The selected scan directory ([config.py]) *)

Module Selection.

Definition SCAN_DIRECTORIES : list string :=
  ["D:\\"; "E:\\"; "C:\Users\ADMIN\Downloads"; "C:\Users\ADMIN\Documents";
   "C:\Users\ADMIN\OneDrive\Documents"; "C:\Users\ADMIN\OneDrive\Desktop";
   "C:\Users\ADMIN\OneDrive\Pictures"].

(** [l[i]] of Python: a negative index counts from the end, an index out
    of range raises [IndexError] ([None]). *)
Definition py_index {A} (l : list A) (i : Z) : option A :=
  if decide (0 ≤ i) then l !! Z.to_nat i
  else if decide (- Z.of_nat (length l) ≤ i)
       then l !! Z.to_nat (Z.of_nat (length l) + i)
       else None.

(** [get_scan_directory()] when [_current_directory_index] is [current]. *)
Definition get_scan_directory (directories : list string) (current : Z)
    : option string :=
  py_index directories current.

(** [set_scan_directory(index)]: the new [_current_directory_index] and the
    returned flag. *)
Definition set_scan_directory (directories : list string) (index : Z)
    (current : Z) : Z * bool :=
  if decide (0 ≤ index ∧ index < Z.of_nat (length directories))
  then (index, true)
  else (current, false).

(** [_current_directory_index] after the calls [set_scan_directory(i)] for
    the [i] of [indexes] in turn, from its initial value 0. *)
Definition selection_after (directories : list string) (indexes : list Z) : Z :=
  foldl (λ current index, (set_scan_directory directories index current).1)
        0 indexes.

End Selection.

(** ** Overall statistics ([analytics.py]) *)

(** The counts and sums of [get_statistics()].  The two name columns it
    picks with [ORDER BY file_size_bytes ... LIMIT 1] and the readable
    renderings of the sums are left out. *)
Record Statistics := {
  total_files : Z;
  total_size_bytes : SqlNum;
  deleted_files : Z;
  deleted_size_bytes : SqlNum;
  total_directories : Z;
  unique_extensions : Z
}.

(** [SELECT COUNT( * ) FROM files WHERE is_deleted = ? AND
    scan_root_directory = ?]. *)
Definition count_files (scan_root : string) (is_del : bool) (t : Table) : Z :=
  Z.of_nat (length (filter (λ r, is_deleted r = is_del
                                 ∧ scan_root_directory r = Some scan_root) t)).

(** [SELECT COALESCE(SUM(file_size_bytes), 0) ...] over the same rows:
    the sum raises [integer overflow] when it leaves the 64-bit
    integers. *)
Definition sum_sizes (scan_root : string) (is_del : bool) (t : Table)
    : Result SqlNum :=
  total ← sql_sum ((λ r, SqlInt (file_size_bytes r))
                     <$> filter (λ r, is_deleted r = is_del
                                      ∧ scan_root_directory r = Some scan_root) t);
  mret (default (SqlInt 0) total).

(** [get_statistics()]: its queries in the order it runs them; the error
    of a sum passes through. *)
Definition get_statistics (scan_root : string) (t : Table) : Result Statistics :=
  let active :=
    filter (λ r, is_deleted r = false ∧ scan_root_directory r = Some scan_root) t in
  let total_files := count_files scan_root false t in
  total_size_bytes ← sum_sizes scan_root false t;
  let deleted_files := count_files scan_root true t in
  deleted_size_bytes ← sum_sizes scan_root true t;
  mret {| total_files := total_files;
          total_size_bytes := total_size_bytes;
          deleted_files := deleted_files;
          deleted_size_bytes := deleted_size_bytes;
          total_directories :=
            Z.of_nat (length (remove_dups (parent_directory <$> active)));
          unique_extensions :=
            Z.of_nat (length (remove_dups (file_extension <$> active))) |}.

(** ** The export ([database.py]) *)

(** A value handed to the CSV writer. *)
Inductive Cell :=
| CNull
| CInt (n : Z)
| CText (s : string).

Definition CSV_COLUMNS : list string :=
  ["id"; "file_name"; "file_extension"; "file_size_bytes"; "file_size_readable";
   "parent_directory"; "full_path"; "scan_root_directory"; "created_timestamp";
   "modified_timestamp"; "file_hash"; "duplicate_group"; "hash_computed_at";
   "is_deleted"; "first_seen"; "last_seen"; "deleted_at"].

Definition text_cell (s : option string) : Cell :=
  match s with
  | Some s => CText s
  | None => CNull
  end.

(** [row[col]] of a fetched row: [None] when the table has no such column
    and the lookup raises. *)
Definition row_get (col : string) (r : Row) : option Cell :=
  if decide (col = "id") then Some (CInt (row_id r))
  else if decide (col = "file_name") then Some (CText (file_name r))
  else if decide (col = "file_extension") then Some (CText (file_extension r))
  else if decide (col = "file_size_bytes") then Some (CInt (file_size_bytes r))
  else if decide (col = "file_size_readable") then Some (CText (file_size_readable r))
  else if decide (col = "parent_directory") then Some (CText (parent_directory r))
  else if decide (col = "full_path") then Some (CText (full_path r))
  else if decide (col = "scan_root_directory")
       then Some (text_cell (scan_root_directory r))
  else if decide (col = "created_timestamp")
       then Some (text_cell (created_timestamp r))
  else if decide (col = "modified_timestamp")
       then Some (text_cell (modified_timestamp r))
  else if decide (col = "file_hash") then Some (text_cell (file_hash r))
  else if decide (col = "duplicate_group")
       then Some (from_option CInt CNull (duplicate_group r))
  else if decide (col = "hash_computed_at")
       then Some (text_cell (hash_computed_at r))
  else if decide (col = "is_deleted")
       then Some (CInt (if is_deleted r then 1 else 0))
  else if decide (col = "first_seen") then Some (CText (first_seen r))
  else if decide (col = "last_seen") then Some (CText (last_seen r))
  else if decide (col = "deleted_at") then Some (text_cell (deleted_at r))
  else None.

(** [ORDER BY full_path]: the texts compare byte by byte. *)
Definition path_le (r1 r2 : Row) : Prop :=
  String.leb (full_path r1) (full_path r2) = true.

#[global] Instance path_le_dec : RelDecision path_le.
Proof. intros r1 r2. unfold path_le. apply _. Defined.

(** The rows fetched by [export_to_csv]: those of the scan root in the
    order of their paths. *)
Definition export_rows (scan_root : string) (t : Table) : list Row :=
  merge_sort path_le (filter (λ r, scan_root_directory r = Some scan_root) t).

(** The [row_data] written for one fetched row. *)
Definition row_data (r : Row) : list Cell :=
  (λ col, default CNull (row_get col r)) <$> CSV_COLUMNS.

(** [export_to_csv(output_path, scan_root)]: the lines handed to the
    writer, the header first, and the returned count. *)
Definition export_to_csv (scan_root : string) (t : Table)
    : list string * list (list Cell) * Z :=
  let rows := export_rows scan_root t in
  (CSV_COLUMNS, row_data <$> rows, Z.of_nat (length rows)).

(** A world in which [/data/a] and [/data/b] have one content, every
    other file another. *)
Definition paired_world : World :=
  {| get_scan_directory := "/data";
     normalize_path := λ path, path;
     path_exists := λ _, true;
     path_isdir := λ _, true;
     os_walk := λ _, [];
     path_join := String.append;
     stat_metadata := λ _, None;
     calculate_hash := λ path, if decide (path = "/data/a" ∨ path = "/data/b")
                               then Some "d41d8" else Some "9e107" |}.

(** Two pairs of duplicates are scanned and grouped; then each of the
    four files has grown to 2^62 bytes and the directory is scanned again.
    The rows keep their hashes and groups. *)
Definition grown_table : Table :=
  run_actions []
    [Reconcile "2026-01-01T10:00:00"
       [example_file "/data/a" 1000; example_file "/data/b" 1000;
        example_file "/data/c" 2000; example_file "/data/d" 2000] "/data";
     DetectDuplicates paired_world "2026-01-01T11:00:00" false "/data";
     Reconcile "2026-01-02T10:00:00"
       [example_file "/data/a" (2 ^ 62); example_file "/data/b" (2 ^ 62);
        example_file "/data/c" (2 ^ 62); example_file "/data/d" (2 ^ 62)] "/data"].

(** * Properties *)

(** Decides the closed or assumption-determined tests of the goal. *)
Ltac settle_decide :=
  repeat match goal with
  | |- context [decide ?P] =>
      first [ rewrite (decide_True (P := P)) by (split_and?; congruence)
            | rewrite (decide_False (P := P))
                by (intros ?; destruct_and?; congruence) ]
  end.

(** ** The SQL statements *)

Section sql.
Context (P : Row → Prop) `{!∀ r, Decision (P r)} (f : Row → Row).

Lemma sql_update_lookup (t : Table) (i : nat) :
  sql_update P f t !! i = (λ r, if decide (P r) then f r else r) <$> t !! i.
Proof. unfold sql_update. apply list_lookup_fmap. Qed.

Lemma sql_update_length (t : Table) : length (sql_update P f t) = length t.
Proof. unfold sql_update. apply length_fmap. Qed.

Lemma sql_update_proj {A} (g : Row → A) (t : Table) :
  (∀ r, g (f r) = g r) → g <$> sql_update P f t = g <$> t.
Proof.
  intros Hg. unfold sql_update. rewrite <-list_fmap_compose.
  apply list_fmap_ext. intros i r _. simpl. case_decide; auto.
Qed.

Lemma sql_update_none (t : Table) :
  (∀ r, r ∈ t → ¬ P r) → sql_update P f t = t.
Proof.
  unfold sql_update. induction t as [|r t IH]; intros Hnone; [done|].
  rewrite fmap_cons, decide_False by (apply Hnone, list_elem_of_here).
  f_equal. apply IH. intros r' Hr'. by apply Hnone, list_elem_of_further.
Qed.
End sql.

Lemma next_rowid_fresh (t : Table) : next_rowid t ∉ row_id <$> t.
Proof.
  assert (∀ x, x ∈ row_id <$> t → x < next_rowid t) as Hlt.
  { unfold next_rowid. induction (row_id <$> t) as [|y l IH]; intros x Hx.
    - inversion Hx.
    - simpl. apply elem_of_cons in Hx as [->|Hx]; [lia|].
      specialize (IH x Hx). lia. }
  intros Hin. apply Hlt in Hin. lia.
Qed.

Lemma table_wf_nil : table_wf [].
Proof. split; constructor. Qed.

Lemma table_wf_update (P : Row → Prop) `{!∀ r, Decision (P r)} f (t : Table) :
  (∀ r, full_path (f r) = full_path r) → (∀ r, row_id (f r) = row_id r) →
  table_wf t → table_wf (sql_update P f t).
Proof.
  intros Hp Hi [Hpaths Hids]. split.
  - by rewrite sql_update_proj.
  - by rewrite sql_update_proj.
Qed.

Lemma table_wf_insert now scan_root md (t : Table) :
  md_full_path md ∉ full_path <$> t → table_wf t →
  table_wf (t ++ [inserted_row now scan_root md (next_rowid t)]).
Proof.
  intros Hfresh [Hpaths Hids]. split; rewrite fmap_app; simpl.
  - apply NoDup_app. split_and!; [done| |apply NoDup_singleton].
    intros x Hx ->%list_elem_of_singleton. done.
  - apply NoDup_app. split_and!; [done| |apply NoDup_singleton].
    intros x Hx ->%list_elem_of_singleton. by apply next_rowid_fresh in Hx.
Qed.

Lemma table_wf_path_inj (t : Table) (r1 r2 : Row) :
  table_wf t → r1 ∈ t → r2 ∈ t → full_path r1 = full_path r2 → r1 = r2.
Proof.
  intros [Hpaths _] [i Hi]%list_elem_of_lookup [j Hj]%list_elem_of_lookup Heq.
  assert (i = j) as ->.
  { eapply NoDup_lookup; [exact Hpaths| |].
    - rewrite list_lookup_fmap, Hi. reflexivity.
    - rewrite list_lookup_fmap, Hj. simpl. by rewrite Heq. }
  congruence.
Qed.

(** ** The dictionary [existing] *)

Lemma existing_fold_lookup (l : Table) (m : gmap string bool) (p : string) :
  foldl (λ m r, <[full_path r := is_deleted r]> m) m l !! p =
  match last (filter (λ r, full_path r = p) l) with
  | Some r => Some (is_deleted r)
  | None => m !! p
  end.
Proof.
  induction l as [|x l IH] using rev_ind; [done|].
  rewrite foldl_app, filter_app. simpl.
  rewrite filter_cons, filter_nil. case_decide as Hx.
  - rewrite last_snoc. subst p. by rewrite lookup_insert_eq.
  - rewrite app_nil_r, lookup_insert_ne by done. apply IH.
Qed.

Lemma existing_paths_Some scan_root (t : Table) p d :
  existing_paths scan_root t !! p = Some d →
  ∃ r, r ∈ t ∧ full_path r = p ∧ scan_root_directory r = Some scan_root
       ∧ is_deleted r = d.
Proof.
  unfold existing_paths. rewrite existing_fold_lookup.
  destruct (last _) as [r|] eqn:Hlast; [|by rewrite lookup_empty].
  intros [= <-]. apply last_Some in Hlast as [l' Hl'].
  assert (r ∈ filter (λ r, full_path r = p)
                (filter (λ r, scan_root_directory r = Some scan_root) t)) as Hr.
  { rewrite Hl'. apply elem_of_app. right. apply list_elem_of_singleton. done. }
  apply list_elem_of_filter in Hr as [Hp Hr].
  apply list_elem_of_filter in Hr as [Hroot Hr]. eauto.
Qed.

Lemma existing_paths_None scan_root (t : Table) (r : Row) :
  existing_paths scan_root t !! full_path r = None →
  r ∈ t → scan_root_directory r ≠ Some scan_root.
Proof.
  unfold existing_paths. rewrite existing_fold_lookup.
  intros Hnone Hr Hroot.
  assert (r ∈ filter (λ r', full_path r' = full_path r)
                (filter (λ r, scan_root_directory r = Some scan_root) t)) as Hin.
  { apply list_elem_of_filter. split; [done|]. by apply list_elem_of_filter. }
  destruct (last _) as [r'|] eqn:Hlast; [done|].
  apply last_None in Hlast. rewrite Hlast in Hin. inversion Hin.
Qed.

Lemma existing_paths_row scan_root (t : Table) (r : Row) :
  table_wf t → r ∈ t → scan_root_directory r = Some scan_root →
  existing_paths scan_root t !! full_path r = Some (is_deleted r).
Proof.
  intros Hwf Hr Hroot.
  destruct (existing_paths scan_root t !! full_path r) as [d|] eqn:Hex.
  - apply existing_paths_Some in Hex as (r' & Hr' & Hp & _ & <-).
    by rewrite (table_wf_path_inj t r' r Hwf Hr' Hr Hp).
  - by eapply existing_paths_None in Hex.
Qed.

(** ** [process_batch] *)

Lemma process_batch_app scan_root now (b1 b2 : list BatchOp) acc :
  process_batch (b1 ++ b2) scan_root now acc =
  process_batch b1 scan_root now acc ≫= process_batch b2 scan_root now.
Proof.
  revert acc. induction b1 as [|op b1 IH]; intros acc; [done|].
  simpl. destruct (process_op scan_root now op acc) as [acc'|e]; [|done].
  apply IH.
Qed.

Lemma row_kept_refl r : row_kept r r.
Proof. by repeat split. Qed.

Lemma row_kept_trans r1 r2 r3 : row_kept r1 r2 → row_kept r2 r3 → row_kept r1 r3.
Proof. unfold row_kept. intros (?&?&?&?&?&?) (?&?&?&?&?&?). split_and!; congruence. Qed.

Lemma process_op_Ok scan_root now op t st t' st' :
  process_op scan_root now op (t, st) = Ok (t', st') →
  match op.1.1 with
  | OpInsert =>
      (md_full_path op.1.2 ∉ (full_path <$> t))
      ∧ t' = t ++ [inserted_row now scan_root op.1.2 (next_rowid t)]
      ∧ st' = {| inserted := inserted st + 1; updated := updated st;
                 restored := restored st; deleted := deleted st |}
  | OpUpdate =>
      t' = sql_update (λ r, full_path r = md_full_path op.1.2)
                      (refreshed_row now scan_root op.1.2) t
      ∧ st' = (if decide (op.2 = Some true)
               then {| inserted := inserted st; updated := updated st;
                       restored := restored st + 1; deleted := deleted st |}
               else {| inserted := inserted st; updated := updated st + 1;
                       restored := restored st; deleted := deleted st |})
  end.
Proof.
  destruct op as [[[] md] wd]; simpl.
  - unfold sql_insert. case_decide; [done|]. simpl. by intros [= <- <-].
  - case_decide; simpl; by intros [= <- <-].
Qed.

Lemma upd_paths_cons op (batch : list BatchOp) :
  upd_paths (op :: batch) =
  if decide (op.1.1 = OpUpdate) then md_full_path op.1.2 :: upd_paths batch
  else upd_paths batch.
Proof. unfold upd_paths. rewrite filter_cons. by case_decide. Qed.

Lemma ins_paths_cons op (batch : list BatchOp) :
  ins_paths (op :: batch) =
  if decide (op.1.1 = OpInsert) then md_full_path op.1.2 :: ins_paths batch
  else ins_paths batch.
Proof. unfold ins_paths. rewrite filter_cons. by case_decide. Qed.

Lemma refreshed_row_kept now scan_root md r :
  row_kept r (refreshed_row now scan_root md r).
Proof. by repeat split. Qed.

Lemma refreshed_row_fresh now scan_root md r :
  row_fresh scan_root now (refreshed_row now scan_root md r).
Proof. by repeat split. Qed.

Lemma inserted_row_fresh now scan_root md rid :
  row_fresh scan_root now (inserted_row now scan_root md rid).
Proof. by repeat split. Qed.

(** The rows present before a batch keep their position, identity and
    hash columns; those whose path the batch updates come out refreshed,
    the others untouched. *)
Lemma process_batch_old scan_root now (batch : list BatchOp) t st t' st' :
  process_batch batch scan_root now (t, st) = Ok (t', st') →
  ∀ i r, t !! i = Some r →
    ∃ r', t' !! i = Some r' ∧ row_kept r r'
          ∧ (if decide (full_path r ∈ upd_paths batch)
             then row_fresh scan_root now r' else r' = r).
Proof.
  revert t st. induction batch as [|op batch IH]; intros t st Hrun i r Hi.
  - simpl in Hrun. injection Hrun as <- <-. exists r. split_and!; [done|apply row_kept_refl|].
    by rewrite decide_False by (unfold upd_paths; simpl; apply not_elem_of_nil).
  - simpl in Hrun.
    destruct (process_op scan_root now op (t, st)) as [[t1 st1]|e] eqn:Hop; [|done].
    simpl in Hrun. apply process_op_Ok in Hop. rewrite upd_paths_cons.
    destruct op as [[ty md] wd]; simpl in *. destruct ty.
    + destruct Hop as (Hfresh & -> & ->).
      destruct (IH _ _ Hrun i r) as (r' & Hr' & Hk & Hf).
      { by apply lookup_app_l_Some. }
      rewrite (decide_False (P := OpInsert = OpUpdate)) by done. eauto.
    + destruct Hop as (-> & ->).
      rewrite (decide_True (P := OpUpdate = OpUpdate)) by done.
      destruct (decide (full_path r = md_full_path md)) as [Hp|Hp].
      * destruct (IH _ _ Hrun i (refreshed_row now scan_root md r))
          as (r' & Hr' & Hk & Hf).
        { rewrite sql_update_lookup, Hi. simpl. by rewrite decide_True. }
        exists r'. split; [done|].
        split; [eapply row_kept_trans; [apply refreshed_row_kept|exact Hk]|].
        rewrite decide_True by (rewrite Hp; apply list_elem_of_here).
        simpl in Hf. destruct (decide _) in Hf; [done|].
        subst r'. apply refreshed_row_fresh.
      * destruct (IH _ _ Hrun i r) as (r' & Hr' & Hk & Hf).
        { rewrite sql_update_lookup, Hi. simpl. by rewrite decide_False. }
        exists r'. split; [done|]. split; [done|].
        destruct (decide (full_path r ∈ upd_paths batch)) as [Hin|Hin].
        -- by rewrite decide_True by (by apply list_elem_of_further).
        -- rewrite decide_False; [done|]. by intros [?|?]%elem_of_cons.
Qed.

(** A batch leaves the paths of the table in place and appends those it
    inserts. *)
Lemma process_batch_paths scan_root now (batch : list BatchOp) t st t' st' :
  process_batch batch scan_root now (t, st) = Ok (t', st') →
  full_path <$> t' = (full_path <$> t) ++ ins_paths batch.
Proof.
  revert t st. induction batch as [|op batch IH]; intros t st Hrun.
  - simpl in Hrun. injection Hrun as <- <-. by rewrite app_nil_r.
  - simpl in Hrun.
    destruct (process_op scan_root now op (t, st)) as [[t1 st1]|e] eqn:Hop; [|done].
    simpl in Hrun. apply process_op_Ok in Hop. rewrite ins_paths_cons.
    rewrite (IH _ _ Hrun).
    destruct op as [[ty md] wd]; simpl in *. destruct ty.
    + destruct Hop as (_ & -> & _). rewrite (decide_True (P := OpInsert = OpInsert)) by done.
      rewrite fmap_app. simpl. by rewrite <-app_assoc.
    + destruct Hop as (-> & _). rewrite (decide_False (P := OpUpdate = OpInsert)) by done.
      by rewrite sql_update_proj.
Qed.

(** The rows a batch adds are active rows of the scan root. *)
Lemma process_batch_new scan_root now (batch : list BatchOp) t st t' st' :
  process_batch batch scan_root now (t, st) = Ok (t', st') →
  ∀ i r', t' !! i = Some r' → (length t ≤ i)%nat → row_fresh scan_root now r'.
Proof.
  revert t st. induction batch as [|op batch IH]; intros t st Hrun i r' Hi Hlen.
  - simpl in Hrun. injection Hrun as <- <-.
    apply lookup_lt_Some in Hi. lia.
  - simpl in Hrun.
    destruct (process_op scan_root now op (t, st)) as [[t1 st1]|e] eqn:Hop; [|done].
    simpl in Hrun. apply process_op_Ok in Hop.
    destruct op as [[ty md] wd]; simpl in *. destruct ty.
    + destruct Hop as (_ & -> & _).
      destruct (decide (i = length t)) as [->|Hne].
      * destruct (process_batch_old _ _ _ _ _ _ _ Hrun (length t)
                    (inserted_row now scan_root md (next_rowid t)))
          as (r1 & Hr1 & _ & Hf).
        { by rewrite list_lookup_middle. }
        assert (r1 = r') as -> by congruence.
        case_decide; [done|]. subst r'. apply inserted_row_fresh.
      * eapply (IH _ _ Hrun i); [done|]. rewrite length_app. simpl. lia.
    + destruct Hop as (-> & _).
      eapply (IH _ _ Hrun i); [done|]. by rewrite sql_update_length.
Qed.

Lemma process_batch_wf scan_root now (batch : list BatchOp) t st t' st' :
  process_batch batch scan_root now (t, st) = Ok (t', st') →
  table_wf t → table_wf t'.
Proof.
  revert t st. induction batch as [|op batch IH]; intros t st Hrun Hwf.
  - simpl in Hrun. by injection Hrun as <- <-.
  - simpl in Hrun.
    destruct (process_op scan_root now op (t, st)) as [[t1 st1]|e] eqn:Hop; [|done].
    simpl in Hrun. apply process_op_Ok in Hop. apply (IH _ _ Hrun).
    destruct op as [[ty md] wd]; simpl in *. destruct ty.
    + destruct Hop as (Hfresh & -> & _). by apply table_wf_insert.
    + destruct Hop as (-> & _). by apply table_wf_update.
Qed.

Lemma process_batch_stats scan_root now (batch : list BatchOp) t st t' st' :
  process_batch batch scan_root now (t, st) = Ok (t', st') →
  inserted st' = inserted st + count_ops (λ op, op.1.1 = OpInsert) batch
  ∧ updated st' = updated st
      + count_ops (λ op, op.1.1 = OpUpdate ∧ op.2 ≠ Some true) batch
  ∧ restored st' = restored st
      + count_ops (λ op, op.1.1 = OpUpdate ∧ op.2 = Some true) batch
  ∧ deleted st' = deleted st.
Proof.
  unfold count_ops.
  revert t st. induction batch as [|op batch IH]; intros t st Hrun.
  - simpl in Hrun. injection Hrun as <- <-. rewrite !filter_nil. simpl. lia.
  - simpl in Hrun.
    destruct (process_op scan_root now op (t, st)) as [[t1 st1]|e] eqn:Hop; [|done].
    simpl in Hrun. apply process_op_Ok in Hop.
    destruct (IH _ _ Hrun) as (Hi & Hu & Hr & Hd).
    rewrite Hi, Hu, Hr, Hd. rewrite !filter_cons.
    destruct op as [[ty md] wd]; simpl in *. destruct ty.
    + destruct Hop as (_ & _ & ->). settle_decide. simpl. lia.
    + destruct Hop as (_ & ->). destruct wd as [[|]|]; settle_decide; simpl; lia.
Qed.

(** A batch of updates cannot raise. *)
Lemma process_batch_updates scan_root now (batch : list BatchOp) acc :
  Forall (λ op : BatchOp, op.1.1 = OpUpdate) batch →
  ∃ acc', process_batch batch scan_root now acc = Ok acc'.
Proof.
  intros Hall. revert acc. induction Hall as [|op batch Hop _ IH]; intros acc.
  - by exists acc.
  - simpl. destruct op as [[ty md] wd], acc as [t st]. simpl in *. subst ty.
    simpl. case_decide; simpl; apply IH.
Qed.

(** ** [bulk_sync_database] *)

(** Flushing full batches on the way and the rest at the end amounts to
    one pass over all the prepared entries. *)
Lemma sync_loop_flush existing scan_root now (all_files : list Metadata)
    acc scanned_paths (batch : list BatchOp) :
  ('(acc', scanned', batch') ←
      sync_loop existing scan_root now all_files acc scanned_paths batch;
   acc'' ← (if decide (batch' = []) then mret acc'
            else process_batch batch' scan_root now acc');
   mret (acc'', scanned')) =
  (acc'' ← process_batch (batch ++ (prepare_op existing <$> all_files))
                         scan_root now acc;
   mret (acc'', scanned_paths ∪ list_to_set (md_full_path <$> all_files))).
Proof.
  revert acc scanned_paths batch.
  induction all_files as [|md rest IH]; intros acc scanned_paths batch.
  - simpl. rewrite app_nil_r, (right_id_L ∅ (∪)).
    case_decide as Hb; [by subst batch|done].
  - assert (batch ++ (prepare_op existing <$> md :: rest) =
            (batch ++ [prepare_op existing md]) ++ (prepare_op existing <$> rest))
      as -> by (by rewrite fmap_cons, cons_middle, (assoc_L (++))).
    assert (scanned_paths ∪ list_to_set (md_full_path <$> md :: rest) =
            scanned_paths ∪ {[md_full_path md]}
              ∪ list_to_set (md_full_path <$> rest)) as ->
      by (by rewrite fmap_cons, list_to_set_cons, (assoc_L (∪))).
    simpl sync_loop. case_decide as Hfull.
    + rewrite (process_batch_app _ _ (batch ++ [prepare_op existing md])).
      destruct (process_batch (batch ++ [prepare_op existing md]) scan_root now acc)
        as [acc1|e]; [|done].
      simpl. rewrite IH. done.
    + by rewrite IH.
Qed.

Lemma bulk_sync_database_eq now (all_files : list Metadata) scan_root (t : Table) :
  bulk_sync_database now all_files scan_root t =
  (let existing := existing_paths scan_root t in
   acc ← process_batch (prepare_op existing <$> all_files) scan_root now
         (t, {| inserted := 0; updated := 0; restored := 0; deleted := 0 |});
   mret (foldl (mark_step existing now) acc
           (elements (dom existing ∖ list_to_set (md_full_path <$> all_files))))).
Proof.
  unfold bulk_sync_database. simpl.
  pose proof (sync_loop_flush (existing_paths scan_root t) scan_root now all_files
                (t, {| inserted := 0; updated := 0; restored := 0; deleted := 0 |})
                ∅ []) as Hflush.
  simpl in Hflush. rewrite (left_id_L ∅ (∪)) in Hflush.
  destruct (sync_loop _ _ _ _ _ _ _) as [[[acc sc] b]|e]; simpl in *.
  - destruct (if decide (b = []) then _ else _) as [acc2|e2]; simpl in *.
    + destruct (process_batch _ _ _ _) as [acc3|e3]; simpl in *; [|done].
      by inversion Hflush; subst.
    + destruct (process_batch _ _ _ _); simpl in *; by inversion Hflush.
  - destruct (process_batch _ _ _ _); simpl in *; by inversion Hflush.
Qed.

Lemma mark_fold existing now (paths : list string) (t : Table) st :
  foldl (mark_step existing now) (t, st) paths =
  (sql_update (λ r, full_path r ∈ marked_paths existing paths ∧ is_deleted r = false)
              (soft_deleted_row now) t,
   {| inserted := inserted st; updated := updated st; restored := restored st;
      deleted := deleted st + Z.of_nat (length (marked_paths existing paths)) |}).
Proof.
  unfold marked_paths.
  revert t st. induction paths as [|p paths IH]; intros t st.
  - simpl. f_equal.
    + symmetry. apply sql_update_none. intros r _ [Hin _]. inversion Hin.
    + destruct st. simpl. f_equal. lia.
  - simpl.
    destruct (decide (existing !! p = Some false)) as [Hp|Hp].
    + rewrite filter_cons_True by done.
      rewrite IH. f_equal; [|simpl; f_equal; lia].
      unfold mark_path, sql_update. rewrite <-list_fmap_compose.
      apply list_fmap_ext. intros i r _. simpl.
      destruct (decide (full_path r = p ∧ is_deleted r = false)) as [[Hr Hd]|Hn].
      * rewrite (decide_False (P := _ ∧ is_deleted (soft_deleted_row now r) = false))
          by (by intros [_ ?]).
        rewrite decide_True; [done|]. split; [|done]. subst p. apply list_elem_of_here.
      * destruct (decide (full_path r ∈ filter (λ path, existing !! path = Some false) paths
                          ∧ is_deleted r = false)) as [[Hr Hd]|Hn2].
        -- rewrite decide_True; [done|]. split; [|done].
           by apply list_elem_of_further.
        -- rewrite decide_False; [done|]. intros [Hin Hd].
           apply elem_of_cons in Hin as [Hin|Hin]; [by apply Hn|by apply Hn2].
    + rewrite filter_cons_False by done. apply IH.
Qed.

Lemma bulk_sync_database_Ok now (all_files : list Metadata) scan_root (t t' : Table) st' :
  bulk_sync_database now all_files scan_root t = Ok (t', st') →
  ∃ t1 st1,
    process_batch (prepare_op (existing_paths scan_root t) <$> all_files)
      scan_root now
      (t, {| inserted := 0; updated := 0; restored := 0; deleted := 0 |})
    = Ok (t1, st1)
    ∧ t' = sql_update
             (λ r, full_path r ∈ marked_paths (existing_paths scan_root t)
                     (elements (dom (existing_paths scan_root t)
                                ∖ list_to_set (md_full_path <$> all_files)))
                   ∧ is_deleted r = false)
             (soft_deleted_row now) t1
    ∧ st' = {| inserted := inserted st1; updated := updated st1;
               restored := restored st1;
               deleted := deleted st1 + Z.of_nat (length
                 (marked_paths (existing_paths scan_root t)
                    (elements (dom (existing_paths scan_root t)
                               ∖ list_to_set (md_full_path <$> all_files))))) |}.
Proof.
  rewrite bulk_sync_database_eq. simpl.
  destruct (process_batch _ _ _ _) as [[t1 st1]|e]; simpl; [|done].
  rewrite mark_fold. intros Heq. inversion Heq; subst. by exists t1, st1.
Qed.

Lemma elem_of_marked_paths (existing : gmap string bool) (scanned : gset string) p :
  p ∈ marked_paths existing (elements (dom existing ∖ scanned)) ↔
  existing !! p = Some false ∧ p ∉ scanned.
Proof.
  unfold marked_paths. rewrite list_elem_of_filter, elem_of_elements,
    elem_of_difference, elem_of_dom.
  split.
  - intros (Hp & _ & Hs). done.
  - intros [Hp Hs]. rewrite Hp. eauto.
Qed.

Lemma elem_of_upd_paths_prepare (existing : gmap string bool)
    (all_files : list Metadata) p :
  p ∈ upd_paths (prepare_op existing <$> all_files) ↔
  p ∈ (md_full_path <$> all_files) ∧ is_Some (existing !! p).
Proof.
  unfold upd_paths. rewrite !list_elem_of_fmap. split.
  - intros (op & -> & Hop). apply list_elem_of_filter in Hop as [Hty Hop].
    apply list_elem_of_fmap in Hop as (md & -> & Hmd).
    unfold prepare_op in *. destruct (existing !! md_full_path md) eqn:Hex;
      simpl in *; [|done]. split; [by exists md|]. by rewrite Hex.
  - intros [(md & -> & Hmd) [d Hd]]. exists (prepare_op existing md).
    unfold prepare_op. rewrite Hd. simpl. split; [done|].
    apply list_elem_of_filter. split; [done|].
    apply list_elem_of_fmap. exists md. split; [|done].
    unfold prepare_op. by rewrite Hd.
Qed.

Lemma elem_of_ins_paths_prepare (existing : gmap string bool)
    (all_files : list Metadata) p :
  p ∈ ins_paths (prepare_op existing <$> all_files) ↔
  p ∈ (md_full_path <$> all_files) ∧ existing !! p = None.
Proof.
  unfold ins_paths. rewrite !list_elem_of_fmap. split.
  - intros (op & -> & Hop). apply list_elem_of_filter in Hop as [Hty Hop].
    apply list_elem_of_fmap in Hop as (md & -> & Hmd).
    unfold prepare_op in *. destruct (existing !! md_full_path md) eqn:Hex;
      simpl in *; [done|]. split; [by exists md|done].
  - intros [(md & -> & Hmd) Hd]. exists (prepare_op existing md).
    unfold prepare_op. rewrite Hd. simpl. split; [done|].
    apply list_elem_of_filter. split; [done|].
    apply list_elem_of_fmap. exists md. split; [|done].
    unfold prepare_op. by rewrite Hd.
Qed.

Lemma soft_deleted_row_kept now r : row_kept r (soft_deleted_row now r).
Proof. by repeat split. Qed.

(** A successful reconciliation keeps the schema constraints. *)
Lemma bulk_sync_database_wf now (all_files : list Metadata) scan_root (t t' : Table) st' :
  bulk_sync_database now all_files scan_root t = Ok (t', st') →
  table_wf t → table_wf t'.
Proof.
  intros (t1 & st1 & Hbatch & -> & _)%bulk_sync_database_Ok Hwf.
  apply table_wf_update; [done..|]. by eapply process_batch_wf.
Qed.

(** Where every row present before a successful reconciliation ends up. *)
Lemma bulk_sync_database_old now (all_files : list Metadata) scan_root
    (t t' : Table) st' i r :
  bulk_sync_database now all_files scan_root t = Ok (t', st') →
  t !! i = Some r →
  ∃ r', t' !! i = Some r' ∧ row_kept r r'
    ∧ ((full_path r ∈ (md_full_path <$> all_files)
        ∧ is_Some (existing_paths scan_root t !! full_path r)
        ∧ row_fresh scan_root now r')
       ∨ (existing_paths scan_root t !! full_path r = Some false
          ∧ (full_path r ∉ (md_full_path <$> all_files))
          ∧ is_deleted r = false ∧ r' = soft_deleted_row now r)
       ∨ (¬ (full_path r ∈ (md_full_path <$> all_files)
             ∧ is_Some (existing_paths scan_root t !! full_path r))
          ∧ ¬ (existing_paths scan_root t !! full_path r = Some false
               ∧ (full_path r ∉ (md_full_path <$> all_files))
               ∧ is_deleted r = false)
          ∧ r' = r)).
Proof.
  intros (t1 & st1 & Hbatch & -> & _)%bulk_sync_database_Ok Hi.
  destruct (process_batch_old _ _ _ _ _ _ _ Hbatch i r Hi) as (r1 & Hr1 & Hk & Hf).
  rewrite sql_update_lookup, Hr1. simpl.
  destruct Hk as (Hid & Hpath & Hrest).
  case_decide as Hupd.
  - apply elem_of_upd_paths_prepare in Hupd as [Hin Hex].
    exists r1. rewrite decide_False.
    + split; [done|]. split; [by split|]. left. done.
    + rewrite elem_of_marked_paths, elem_of_list_to_set, Hpath. tauto.
  - subst r1. rewrite elem_of_upd_paths_prepare in Hupd.
    case_decide as Hmark.
    + eexists. split; [done|]. split; [apply soft_deleted_row_kept|].
      right. left. rewrite elem_of_marked_paths, elem_of_list_to_set in Hmark.
      tauto.
    + exists r. split; [done|]. split; [apply row_kept_refl|].
      right. right. split; [done|]. split; [|done].
      rewrite elem_of_marked_paths, elem_of_list_to_set in Hmark. tauto.
Qed.

(** The rows a successful reconciliation adds. *)
Lemma bulk_sync_database_new now (all_files : list Metadata) scan_root
    (t t' : Table) st' i r' :
  bulk_sync_database now all_files scan_root t = Ok (t', st') →
  t' !! i = Some r' → (length t ≤ i)%nat →
  row_fresh scan_root now r' ∧ full_path r' ∈ (md_full_path <$> all_files).
Proof.
  intros (t1 & st1 & Hbatch & -> & _)%bulk_sync_database_Ok Hi Hlen.
  rewrite sql_update_lookup in Hi.
  destruct (t1 !! i) as [r1|] eqn:Hr1; [|done]. simpl in Hi.
  pose proof (process_batch_new _ _ _ _ _ _ _ Hbatch i r1 Hr1 Hlen) as Hfresh.
  assert (full_path r1 ∈ (md_full_path <$> all_files)) as Hin.
  { pose proof (process_batch_paths _ _ _ _ _ _ _ Hbatch) as Hpaths.
    assert ((full_path <$> t1) !! i = Some (full_path r1)) as Hp
      by (by rewrite list_lookup_fmap, Hr1).
    rewrite Hpaths, lookup_app_r in Hp by (by rewrite length_fmap).
    apply list_elem_of_lookup_2, elem_of_ins_paths_prepare in Hp. tauto. }
  case_decide as Hmark.
  - destruct Hmark as [Hm _].
    rewrite elem_of_marked_paths, elem_of_list_to_set in Hm. tauto.
  - injection Hi as <-. done.
Qed.

(** When a run returns.  The only statement that can fail is the insert
    of a path already in the table; a path absent from [existing] is in
    the table when another scan root holds it, or when the same new path
    was observed twice. *)
Lemma process_batch_prepare_Ok (existing : gmap string bool) scan_root now
    (all_files : list Metadata) (t : Table) st :
  NoDup (md_full_path <$> all_files) →
  (∀ md, md ∈ all_files → existing !! md_full_path md = None →
         md_full_path md ∉ (full_path <$> t)) →
  ∃ acc, process_batch (prepare_op existing <$> all_files) scan_root now (t, st)
         = Ok acc.
Proof.
  revert t st. induction all_files as [|md l IH]; intros t st Hnd Hfree.
  - by eexists.
  - rewrite fmap_cons in Hnd. apply NoDup_cons in Hnd as [Hmd Hnd].
    rewrite fmap_cons. simpl process_batch.
    destruct (existing !! md_full_path md) as [d|] eqn:Hex.
    + assert (prepare_op existing md = (OpUpdate, md, Some d)) as ->
        by (unfold prepare_op; by rewrite Hex).
      unfold process_op.
      destruct (decide (Some d = Some true)); simpl; apply IH; try done.
      * intros md' Hin Hnone. rewrite sql_update_proj by done.
        apply Hfree; [by apply list_elem_of_further|done].
      * intros md' Hin Hnone. rewrite sql_update_proj by done.
        apply Hfree; [by apply list_elem_of_further|done].
    + assert (prepare_op existing md = (OpInsert, md, None)) as ->
        by (unfold prepare_op; by rewrite Hex).
      unfold process_op, sql_insert. rewrite decide_False
        by (apply Hfree; [apply list_elem_of_here|done]).
      simpl. apply IH; [done|].
      intros md' Hin Hnone. rewrite fmap_app. simpl.
      intros [Hold|Hnew]%elem_of_app.
      * by apply (Hfree md'); [apply list_elem_of_further|..].
      * apply list_elem_of_singleton in Hnew. apply Hmd.
        apply list_elem_of_fmap. by exists md'.
Qed.

Lemma bulk_sync_database_returns now (all_files : list Metadata) scan_root (t : Table) :
  NoDup (md_full_path <$> all_files) →
  (∀ md r, md ∈ all_files → r ∈ t → full_path r = md_full_path md →
           scan_root_directory r = Some scan_root) →
  ∃ t' st', bulk_sync_database now all_files scan_root t = Ok (t', st').
Proof.
  intros Hnd Hroot. rewrite bulk_sync_database_eq. simpl.
  destruct (process_batch_prepare_Ok (existing_paths scan_root t) scan_root now
              all_files t
              {| inserted := 0; updated := 0; restored := 0; deleted := 0 |})
    as [[t1 st1] ->]; [done| |].
  - intros md Hmd Hnone (r & Hp & Hr)%list_elem_of_fmap.
    rewrite Hp in Hnone.
    by eapply (existing_paths_None scan_root t r Hnone Hr), Hroot.
  - simpl. rewrite mark_fold. by eexists _, _.
Qed.

(** ** Reconciliation: partition completeness *)

Lemma elem_of_get_all_active_paths scan_root (t : Table) p :
  p ∈ get_all_active_paths scan_root t ↔
  ∃ r, r ∈ t ∧ full_path r = p ∧ is_deleted r = false
       ∧ scan_root_directory r = Some scan_root.
Proof.
  unfold get_all_active_paths. rewrite elem_of_list_to_set, list_elem_of_fmap.
  split.
  - intros (r & -> & (Hr1 & Hr2)%list_elem_of_filter). exists r. tauto.
  - intros (r & Hr & <- & Hd & Hroot). exists r. split; [done|].
    by apply list_elem_of_filter.
Qed.

Lemma elem_of_soft_deleted_paths scan_root (t : Table) p :
  p ∈ soft_deleted_paths scan_root t ↔
  ∃ r, r ∈ t ∧ full_path r = p ∧ is_deleted r = true
       ∧ scan_root_directory r = Some scan_root.
Proof.
  unfold soft_deleted_paths. rewrite elem_of_list_to_set, list_elem_of_fmap.
  split.
  - intros (r & -> & (Hr1 & Hr2)%list_elem_of_filter). exists r. tauto.
  - intros (r & Hr & <- & Hd & Hroot). exists r. split; [done|].
    by apply list_elem_of_filter.
Qed.

(** C6.  After a reconciliation over a scan root, every path that was
    active in that scan root before the run is among the observed paths
    or among the paths the run soft-deleted: the observed set together
    with the newly soft-deleted set contains the previously active set. *)
Theorem reconciliation_partition_complete now (all_files : list Metadata)
    scan_root (t t' : Table) st' :
  table_wf t →
  bulk_sync_database now all_files scan_root t = Ok (t', st') →
  get_all_active_paths scan_root t ⊆
    list_to_set (md_full_path <$> all_files)
    ∪ (soft_deleted_paths scan_root t' ∖ soft_deleted_paths scan_root t).
Proof.
  intros Hwf Hrun p (r & Hr & <- & Hact & Hroot)%elem_of_get_all_active_paths.
  rewrite elem_of_union, elem_of_list_to_set, elem_of_difference.
  destruct (decide (full_path r ∈ (md_full_path <$> all_files))) as [Hobs|Hobs];
    [by left|right].
  pose proof (existing_paths_row scan_root t r Hwf Hr Hroot) as Hex.
  rewrite Hact in Hex. split.
  - apply list_elem_of_lookup in Hr as [i Hi].
    destruct (bulk_sync_database_old _ _ _ _ _ _ _ _ Hrun Hi)
      as (r' & Hr' & Hk & [(Hin & _)|[(_ & _ & _ & ->)|(_ & Hnot & _)]]).
    + done.
    + apply elem_of_soft_deleted_paths. exists (soft_deleted_row now r).
      split; [by eapply list_elem_of_lookup_2|]. done.
    + exfalso. apply Hnot. done.
  - intros (r2 & Hr2 & Hp & Hdel & _)%elem_of_soft_deleted_paths.
    rewrite (table_wf_path_inj t r2 r Hwf Hr2 Hr Hp) in Hdel. congruence.
Qed.

Lemma reconciliation_partition_complete_witness :
  get_all_active_paths "/data" example_table ⊆
    list_to_set (md_full_path <$> [example_file "/data/a" 1000])
    ∪ (soft_deleted_paths "/data"
         (table_after "2026-01-03T10:00:00" [example_file "/data/a" 1000]
                      "/data" example_table)
       ∖ soft_deleted_paths "/data" example_table).
Proof.
  apply (reconciliation_partition_complete "2026-01-03T10:00:00"
           [example_file "/data/a" 1000] "/data" example_table _
           {| inserted := 0; updated := 1; restored := 0; deleted := 1 |}).
  - refine (bool_decide_unpack _ _). vm_compute. exact I.
  - vm_compute. reflexivity.
Defined.


(** ** Reconciliation: restore *)

(** The three counters of a run, read off the dictionary [existing]. *)
Lemma count_ops_prepare (existing : gmap string bool) (all_files : list Metadata) :
  count_ops (λ op, op.1.1 = OpInsert) (prepare_op existing <$> all_files)
  = Z.of_nat (length (filter (λ md, existing !! md_full_path md = None) all_files))
  ∧ count_ops (λ op, op.1.1 = OpUpdate ∧ op.2 ≠ Some true)
              (prepare_op existing <$> all_files)
    = Z.of_nat (length (filter (λ md, existing !! md_full_path md = Some false)
                               all_files))
  ∧ count_ops (λ op, op.1.1 = OpUpdate ∧ op.2 = Some true)
              (prepare_op existing <$> all_files)
    = Z.of_nat (length (filter (λ md, existing !! md_full_path md = Some true)
                               all_files)).
Proof.
  unfold count_ops.
  induction all_files as [|md l (IH1 & IH2 & IH3)]; [done|].
  apply Nat2Z.inj in IH1, IH2, IH3.
  rewrite fmap_cons.
  destruct (existing !! md_full_path md) as [[|]|] eqn:He;
    [assert (prepare_op existing md = (OpUpdate, md, Some true)) as Hop
       by (unfold prepare_op; by rewrite He)
    |assert (prepare_op existing md = (OpUpdate, md, Some false)) as Hop
       by (unfold prepare_op; by rewrite He)
    |assert (prepare_op existing md = (OpInsert, md, None)) as Hop
       by (unfold prepare_op; by rewrite He)];
    repeat first
      [ rewrite filter_cons_True
          by (rewrite ?Hop, ?He; simpl; split_and?; congruence)
      | rewrite filter_cons_False
          by (rewrite ?Hop, ?He; simpl; intros ?; destruct_and?; congruence) ];
    simpl; rewrite ?IH1, ?IH2, ?IH3; done.
Qed.

(** C9.  A soft-deleted record of the scan root whose path the run
    observes again is active afterwards, with [deleted_at] absent and
    [is_deleted] false; it is the same row (same position, id and hash, and
    the only row with that path); every observation of the path is
    prepared as a restore, and the run counts as restored exactly the
    observations of paths that were soft-deleted, as updated those of
    active paths and as inserted those of paths new to the scan root. *)
Theorem reconciliation_restores now (all_files : list Metadata) scan_root
    (t t' : Table) st' i r :
  table_wf t →
  t !! i = Some r →
  scan_root_directory r = Some scan_root →
  is_deleted r = true →
  full_path r ∈ (md_full_path <$> all_files) →
  bulk_sync_database now all_files scan_root t = Ok (t', st') →
  ∃ r', t' !! i = Some r'
    ∧ is_deleted r' = false ∧ deleted_at r' = None ∧ last_seen r' = now
    ∧ row_id r' = row_id r ∧ full_path r' = full_path r
    ∧ file_hash r' = file_hash r
    ∧ (∀ x, x ∈ t' → full_path x = full_path r → x = r')
    ∧ (∀ md, md ∈ all_files → md_full_path md = full_path r →
         prepare_op (existing_paths scan_root t) md = (OpUpdate, md, Some true))
    ∧ restored st' =
        Z.of_nat (length (filter
          (λ md, existing_paths scan_root t !! md_full_path md = Some true)
          all_files))
    ∧ updated st' =
        Z.of_nat (length (filter
          (λ md, existing_paths scan_root t !! md_full_path md = Some false)
          all_files))
    ∧ inserted st' =
        Z.of_nat (length (filter
          (λ md, existing_paths scan_root t !! md_full_path md = None)
          all_files))
    ∧ 1 ≤ restored st'.
Proof.
  intros Hwf Hi Hroot Hdel Hobs Hrun.
  assert (r ∈ t) as Hr by (by eapply list_elem_of_lookup_2).
  pose proof (existing_paths_row scan_root t r Hwf Hr Hroot) as Hex.
  rewrite Hdel in Hex.
  destruct (bulk_sync_database_old _ _ _ _ _ _ _ _ Hrun Hi)
    as (r' & Hr' & (Hid & Hpath & Hhash & _)
        & [(_ & _ & Hd & Hda & _ & Hls)|[(Hf & _)|(Hnot & _)]]);
    [|congruence|exfalso; apply Hnot; split; [done|by rewrite Hex]].
  assert (restored st' =
          Z.of_nat (length (filter
            (λ md, existing_paths scan_root t !! md_full_path md = Some true)
            all_files))
          ∧ updated st' =
            Z.of_nat (length (filter
              (λ md, existing_paths scan_root t !! md_full_path md = Some false)
              all_files))
          ∧ inserted st' =
            Z.of_nat (length (filter
              (λ md, existing_paths scan_root t !! md_full_path md = None)
              all_files))) as (Hrestored & Hupdated & Hinserted).
  { pose proof Hrun as Hrun'.
    apply bulk_sync_database_Ok in Hrun' as (t1 & st1 & Hbatch & _ & ->). simpl.
    apply process_batch_stats in Hbatch as (-> & -> & -> & _). simpl.
    pose proof (count_ops_prepare (existing_paths scan_root t) all_files)
      as (-> & -> & ->). done. }
  exists r'. split_and!; try done.
  - intros x Hx Hp. eapply (table_wf_path_inj t'); [|done| |congruence].
    + by eapply bulk_sync_database_wf.
    + by eapply list_elem_of_lookup_2.
  - intros md _ Hmd. unfold prepare_op. by rewrite Hmd, Hex.
  - rewrite Hrestored.
    apply list_elem_of_fmap in Hobs as (md & Hmd & Hin).
    assert (md ∈ filter
              (λ md, existing_paths scan_root t !! md_full_path md = Some true)
              all_files) as Hmem.
    { apply list_elem_of_filter. split; [by rewrite <-Hmd|done]. }
    destruct (filter _ all_files); [inversion Hmem|simpl; lia].
Qed.

Lemma reconciliation_restores_witness :
  ∃ r', table_after "2026-01-03T10:00:00" [example_file "/data/c" 600]
                    "/data" example_table !! 2%nat = Some r'
    ∧ is_deleted r' = false ∧ deleted_at r' = None
    ∧ row_id r' = 3 ∧ file_hash r' = Some "9e107".
Proof.
  destruct (reconciliation_restores "2026-01-03T10:00:00"
              [example_file "/data/c" 600] "/data" example_table
              (table_after "2026-01-03T10:00:00" [example_file "/data/c" 600]
                           "/data" example_table)
              {| inserted := 0; updated := 0; restored := 1; deleted := 2 |}
              2%nat (example_row 3 "/data/c" 500 (Some "9e107") None true))
    as (r' & Hr' & Hd & Hda & _ & Hid & _ & Hh & _).
  - refine (bool_decide_unpack _ _). vm_compute. exact I.
  - reflexivity.
  - reflexivity.
  - reflexivity.
  - vm_compute. apply list_elem_of_here.
  - vm_compute. reflexivity.
  - exists r'. split_and!; done.
Defined.


(** ** Frames: what the operations leave alone *)

Lemma foldl_preserves {A B} (I : A → Prop) (f : A → B → A) (l : list B) (a : A) :
  I a → (∀ a b, I a → I (f a b)) → I (foldl f a l).
Proof. intros Ha Hstep. revert a Ha. induction l; simpl; auto. Qed.

Section related.
Context (R : Row → Row → Prop).
Hypothesis R_refl : ∀ r, R r r.
Hypothesis R_trans : ∀ r1 r2 r3, R r1 r2 → R r2 r3 → R r1 r3.

Lemma rows_related_refl (t : Table) : rows_related R t t.
Proof. intros i r Hi. eauto. Qed.

Lemma rows_related_trans (t1 t2 t3 : Table) :
  rows_related R t1 t2 → rows_related R t2 t3 → rows_related R t1 t3.
Proof.
  intros H12 H23 i r Hi. destruct (H12 i r Hi) as (r2 & Hi2 & HR2).
  destruct (H23 i r2 Hi2) as (r3 & Hi3 & HR3). eauto.
Qed.

Lemma rows_related_update (P : Row → Prop) `{!∀ r, Decision (P r)} f (t : Table) :
  (∀ r, R r (f r)) → rows_related R t (sql_update P f t).
Proof.
  intros Hf i r Hi. rewrite sql_update_lookup, Hi. simpl.
  eexists. split; [done|]. case_decide; auto.
Qed.

Lemma rows_related_app (t new : Table) : rows_related R t (t ++ new).
Proof. intros i r Hi. exists r. split; [by apply lookup_app_l_Some|auto]. Qed.
End related.

Lemma group_kept_refl r : group_kept r r.
Proof. by repeat split. Qed.

Lemma group_kept_trans r1 r2 r3 : group_kept r1 r2 → group_kept r2 r3 → group_kept r1 r3.
Proof. unfold group_kept. intros (?&?&?) (?&?&?). split_and!; congruence. Qed.

Lemma upsert_file_kept now md scan_root (t : Table) :
  rows_related row_kept t (upsert_file now md scan_root t).1.
Proof.
  unfold upsert_file. destruct (head _); simpl.
  - apply rows_related_update; [apply row_kept_refl|]. intros ?. apply refreshed_row_kept.
  - apply rows_related_app, row_kept_refl.
Qed.

Lemma mark_deleted_fst now (paths : list string) (t : Table) :
  (mark_deleted now paths t).1 = foldl (λ t path, mark_path now path t) t paths.
Proof.
  unfold mark_deleted. generalize 0. revert t.
  induction paths as [|p paths IH]; intros t c; [done|]. simpl. apply IH.
Qed.

Lemma mark_deleted_kept now (paths : list string) (t : Table) :
  rows_related row_kept t (mark_deleted now paths t).1.
Proof.
  rewrite mark_deleted_fst.
  apply (foldl_preserves (rows_related row_kept t)).
  - apply rows_related_refl, row_kept_refl.
  - intros t1 p Ht1. eapply rows_related_trans; [apply row_kept_trans|exact Ht1|].
    apply rows_related_update; [apply row_kept_refl|]. intros r.
    apply soft_deleted_row_kept.
Qed.

Lemma bulk_sync_database_kept now (all_files : list Metadata) scan_root (t t' : Table) st' :
  bulk_sync_database now all_files scan_root t = Ok (t', st') →
  rows_related row_kept t t'.
Proof.
  intros Hrun i r Hi.
  destruct (bulk_sync_database_old _ _ _ _ _ _ _ _ Hrun Hi) as (r' & Hr' & Hk & _).
  eauto.
Qed.

Lemma run_action_kept (a : Action) (t : Table) :
  is_reconciliation a = true → rows_related row_kept t (run_action t a).
Proof.
  destruct a; simpl; try done; intros _.
  - destruct (bulk_sync_database now all_files scan_root t) as [[t' st']|e] eqn:Hrun.
    + by eapply bulk_sync_database_kept.
    + apply rows_related_refl, row_kept_refl.
  - apply upsert_file_kept.
  - apply mark_deleted_kept.
Qed.

Lemma hash_candidate_group_kept w now cb total st c :
  rows_related group_kept (hs_table st) (hs_table (hash_candidate w now cb total st c)).
Proof.
  unfold hash_candidate. destruct c as [[file_id filepath] existing_hash].
  destruct existing_hash; simpl; [apply rows_related_refl, group_kept_refl|].
  destruct (path_exists w filepath); simpl; [|apply rows_related_refl, group_kept_refl].
  destruct (calculate_hash w filepath) as [h|]; simpl;
    [|apply rows_related_refl, group_kept_refl].
  destruct (decide (h = EmptyString)); simpl;
    [apply rows_related_refl, group_kept_refl|].
  apply rows_related_update; [apply group_kept_refl|]. by intros r.
Qed.

Lemma hash_candidates_group_kept w now cb total cands st :
  rows_related group_kept (hs_table st)
    (hs_table (hash_candidates w now cb total cands st)).
Proof.
  unfold hash_candidates.
  apply (foldl_preserves (λ st', rows_related group_kept (hs_table st) (hs_table st'))).
  - apply rows_related_refl, group_kept_refl.
  - intros st1 c Hst1.
    apply (foldl_preserves
             (λ st', rows_related group_kept (hs_table st) (hs_table st'))); [done|].
    intros st2 c2 Hst2.
    eapply rows_related_trans; [apply group_kept_trans|exact Hst2|].
    apply hash_candidate_group_kept.
Qed.

Lemma run_actions_kept (acts : list Action) (t : Table) :
  Forall (λ a, is_reconciliation a = true) acts →
  rows_related row_kept t (run_actions t acts).
Proof.
  unfold run_actions. intros Hacts. revert t.
  induction Hacts as [|a acts Ha _ IH]; intros t; simpl.
  - apply rows_related_refl, row_kept_refl.
  - eapply rows_related_trans; [apply row_kept_trans| |apply IH].
    by apply run_action_kept.
Qed.

(** C5.  Over any sequence of reconciliation operations (full
    reconciliations, single upserts, soft deletes) every record keeps its
    position, id, [file_hash], [hash_computed_at] and [duplicate_group]:
    a hash that is set stays as it is and no hash is written on an
    existing record.  The hashing loop of the duplicate-detection pass
    leaves [duplicate_group] alone too, so only the regrouping step
    writes it. *)
Theorem reconciliation_keeps_hash (acts : list Action) (t : Table) (i : nat) (r : Row) :
  Forall (λ a, is_reconciliation a = true) acts →
  t !! i = Some r →
  (∃ r', run_actions t acts !! i = Some r'
     ∧ row_id r' = row_id r ∧ file_hash r' = file_hash r
     ∧ hash_computed_at r' = hash_computed_at r
     ∧ duplicate_group r' = duplicate_group r)
  ∧ (∀ w now cb total cands files_hashed processed trace,
       ∃ r', hs_table (hash_candidates w now cb total cands
                         {| hs_table := t; files_hashed := files_hashed;
                            processed := processed; hs_trace := trace |}) !! i
             = Some r'
         ∧ row_id r' = row_id r ∧ duplicate_group r' = duplicate_group r).
Proof.
  intros Hacts Hi. split.
  - destruct (run_actions_kept acts t Hacts i r Hi) as (r' & Hr' & Hid & _ & Hh & Hg & Hc & _). eauto 10.
  - intros w now cb total cands fh pr tr.
    destruct (hash_candidates_group_kept w now cb total cands
                {| hs_table := t; files_hashed := fh; processed := pr;
                   hs_trace := tr |} i r Hi) as (r' & Hr' & Hid & _ & Hg).
    eauto.
Qed.

Lemma reconciliation_keeps_hash_witness :
  ∃ r', run_actions example_table
          [Reconcile "2026-01-03T10:00:00" [example_file "/data/b" 2000] "/data";
           Upsert "2026-01-04T10:00:00" (example_file "/data/a" 3000) "/backup";
           MarkDeleted "2026-01-05T10:00:00" ["/data/b"]] !! 0%nat = Some r'
     ∧ row_id r' = 1 ∧ file_hash r' = Some "d41d8"
     ∧ hash_computed_at r' = None ∧ duplicate_group r' = Some 1.
Proof.
  apply (reconciliation_keeps_hash
           [Reconcile "2026-01-03T10:00:00" [example_file "/data/b" 2000] "/data";
            Upsert "2026-01-04T10:00:00" (example_file "/data/a" 3000) "/backup";
            MarkDeleted "2026-01-05T10:00:00" ["/data/b"]]
           example_table 0%nat
           (example_row 1 "/data/a" 1000 (Some "d41d8") (Some 1) false)).
  - repeat constructor.
  - reflexivity.
Defined.


(** ** Reconciliation: running it twice *)

Lemma filter_length_all {A} (P : A → Prop) `{!∀ x, Decision (P x)} (l : list A) :
  Forall P l → length (filter P l) = length l.
Proof.
  induction 1 as [|x l Hx _ IH]; [done|].
  rewrite filter_cons_True by done. simpl. by rewrite IH.
Qed.

Lemma filter_length_none {A} (P : A → Prop) `{!∀ x, Decision (P x)} (l : list A) :
  Forall (λ x, ¬ P x) l → length (filter P l) = 0%nat.
Proof.
  induction 1 as [|x l Hx _ IH]; [done|].
  by rewrite filter_cons_False by done.
Qed.

Lemma bulk_sync_database_paths now (all_files : list Metadata) scan_root
    (t t' : Table) st' :
  bulk_sync_database now all_files scan_root t = Ok (t', st') →
  full_path <$> t' =
  (full_path <$> t) ++ ins_paths (prepare_op (existing_paths scan_root t) <$> all_files).
Proof.
  intros (t1 & st1 & Hbatch & -> & _)%bulk_sync_database_Ok.
  rewrite sql_update_proj by done. by eapply process_batch_paths.
Qed.

(** After a successful run every observed path is an active row of the
    scan root. *)
Lemma bulk_sync_database_observed now (all_files : list Metadata) scan_root
    (t t' : Table) st' md :
  table_wf t →
  bulk_sync_database now all_files scan_root t = Ok (t', st') →
  md ∈ all_files →
  existing_paths scan_root t' !! md_full_path md = Some false.
Proof.
  intros Hwf Hrun Hmd.
  assert (md_full_path md ∈ (md_full_path <$> all_files)) as Hobs
    by (apply list_elem_of_fmap; eauto).
  assert (∃ r', r' ∈ t' ∧ full_path r' = md_full_path md
                ∧ row_fresh scan_root now r') as (r' & Hr' & Hp & Hd & _ & Hroot & _).
  { destruct (existing_paths scan_root t !! md_full_path md) as [d|] eqn:Hex.
    - destruct (existing_paths_Some _ _ _ _ Hex) as (r & Hr & Hpath & _).
      apply list_elem_of_lookup in Hr as [i Hi].
      destruct (bulk_sync_database_old _ _ _ _ _ _ _ _ Hrun Hi)
        as (r' & Hr' & (_ & Hp' & _) & [(_ & _ & Hf)|[(_ & Hno & _)|(Hnot & _)]]).
      + exists r'. split; [by eapply list_elem_of_lookup_2|]. split; [congruence|done].
      + rewrite Hpath in Hno. done.
      + exfalso. apply Hnot. rewrite Hpath, Hex. eauto.
    - assert (md_full_path md ∈ (full_path <$> t')) as Hin.
      { rewrite (bulk_sync_database_paths _ _ _ _ _ _ Hrun).
        apply elem_of_app. right. by apply elem_of_ins_paths_prepare. }
      apply list_elem_of_lookup in Hin as [j Hj].
      rewrite list_lookup_fmap in Hj.
      destruct (t' !! j) as [r'|] eqn:Hr'; [|done]. injection Hj as Hj.
      exists r'. split; [by eapply list_elem_of_lookup_2|]. split; [done|].
      destruct (decide (length t ≤ j)%nat) as [Hlen|Hlen].
      + by destruct (bulk_sync_database_new _ _ _ _ _ _ _ _ Hrun Hr' Hlen).
      + exfalso.
        assert ((full_path <$> t') !! j = Some (md_full_path md)) as Hj'
          by (rewrite list_lookup_fmap, Hr'; simpl; by rewrite Hj).
        rewrite (bulk_sync_database_paths _ _ _ _ _ _ Hrun) in Hj'.
        rewrite lookup_app_l in Hj' by (rewrite length_fmap; lia).
        apply list_elem_of_lookup_2 in Hj'.
        apply bulk_sync_database_Ok in Hrun as (t1 & st1 & Hbatch & _).
        pose proof (process_batch_paths _ _ _ _ _ _ _ Hbatch) as Hpaths.
        pose proof (process_batch_wf _ _ _ _ _ _ _ Hbatch Hwf) as [Hnd _].
        rewrite Hpaths in Hnd. apply NoDup_app in Hnd as (_ & Hdisj & _).
        apply (Hdisj (md_full_path md)); [done|].
        by apply elem_of_ins_paths_prepare. }
  rewrite <-Hp, <-Hd. apply existing_paths_row; [|done..].
  by eapply bulk_sync_database_wf.
Qed.

(** After a successful run every active row of the scan root was observed. *)
Lemma bulk_sync_database_active now (all_files : list Metadata) scan_root
    (t t' : Table) st' r' :
  table_wf t →
  bulk_sync_database now all_files scan_root t = Ok (t', st') →
  r' ∈ t' → scan_root_directory r' = Some scan_root → is_deleted r' = false →
  full_path r' ∈ (md_full_path <$> all_files).
Proof.
  intros Hwf Hrun [i Hi]%list_elem_of_lookup Hroot Hact.
  destruct (decide (length t ≤ i)%nat) as [Hlen|Hlen].
  - by destruct (bulk_sync_database_new _ _ _ _ _ _ _ _ Hrun Hi Hlen).
  - destruct (lookup_lt_is_Some_2 t i) as [r Hr]; [lia|].
    destruct (bulk_sync_database_old _ _ _ _ _ _ _ _ Hrun Hr)
      as (r2 & Hr2 & (_ & Hp & _) & Hcases).
    assert (r2 = r') as -> by congruence.
    destruct Hcases as [(Hobs & _)|[(_ & _ & _ & ->)|(_ & Hnot & ->)]].
    + by rewrite Hp.
    + done.
    + destruct (decide (full_path r ∈ (md_full_path <$> all_files))); [done|].
      exfalso. apply Hnot. split_and!; [|done..].
      rewrite <-Hact. apply existing_paths_row; [done| |done].
      by eapply list_elem_of_lookup_2.
Qed.

(** C3, as the code has it.  When a reconciliation of a scan root has
    succeeded, a second one over the same observed files succeeds too and
    reports no insert, no restore and no soft delete; it reports every
    observed file as updated, because the code counts every observation of
    an active path as an update without comparing contents. *)
Theorem second_run_statistics now1 now2 (all_files : list Metadata) scan_root
    (t0 t1 : Table) st1 :
  table_wf t0 →
  bulk_sync_database now1 all_files scan_root t0 = Ok (t1, st1) →
  ∃ t2 st2,
    bulk_sync_database now2 all_files scan_root t1 = Ok (t2, st2)
    ∧ inserted st2 = 0
    ∧ updated st2 = Z.of_nat (length all_files)
    ∧ restored st2 = 0
    ∧ deleted st2 = 0.
Proof.
  intros Hwf Hrun1.
  assert (Forall (λ md, existing_paths scan_root t1 !! md_full_path md = Some false)
                 all_files) as Hall.
  { apply Forall_forall. intros md Hmd.
    by eapply bulk_sync_database_observed. }
  destruct (process_batch_updates scan_root now2
              (prepare_op (existing_paths scan_root t1) <$> all_files)
              (t1, {| inserted := 0; updated := 0; restored := 0; deleted := 0 |}))
    as [[t2 st2] Hbatch].
  { apply Forall_fmap. eapply Forall_impl; [exact Hall|].
    intros md Hmd. simpl. unfold prepare_op. by rewrite Hmd. }
  rewrite bulk_sync_database_eq. simpl. rewrite Hbatch. simpl.
  rewrite mark_fold. eexists _, _. split; [reflexivity|]. simpl.
  pose proof (process_batch_stats _ _ _ _ _ _ _ Hbatch) as (Hi & Hu & Hr & Hd).
  pose proof (count_ops_prepare (existing_paths scan_root t1) all_files)
    as (Ci & Cu & Cr).
  rewrite Hi, Hu, Hr, Hd, Ci, Cu, Cr. simpl.
  rewrite (filter_length_all _ _ Hall).
  assert (length (filter (λ md, existing_paths scan_root t1 !! md_full_path md = None)
                         all_files) = 0%nat) as ->.
  { apply filter_length_none. eapply Forall_impl; [exact Hall|].
    intros md Hmd. simpl. by rewrite Hmd. }
  assert (length (filter (λ md, existing_paths scan_root t1 !! md_full_path md
                                = Some true) all_files) = 0%nat) as ->.
  { apply filter_length_none. eapply Forall_impl; [exact Hall|].
    intros md Hmd. simpl. by rewrite Hmd. }
  assert (length (marked_paths (existing_paths scan_root t1)
            (elements (dom (existing_paths scan_root t1)
                       ∖ list_to_set (md_full_path <$> all_files)))) = 0%nat) as ->.
  { apply filter_length_none, Forall_forall. intros p Hp%elem_of_elements Hex.
    apply elem_of_difference in Hp as [_ Hp]. apply Hp.
    apply elem_of_list_to_set.
    destruct (existing_paths_Some _ _ _ _ Hex) as (r & Hr' & <- & Hroot & Hact).
    by eapply bulk_sync_database_active. }
  simpl. lia.
Qed.

(** C3, as claimed, fails: after a first run inserted one file, the second
    run over the same file reports one update, not zero. *)
Lemma second_run_updated_counterexample :
  ∃ t1 st1 t2 st2,
    bulk_sync_database "2026-01-01T10:00:00" [example_file "/data/a.txt" 1000]
                       "/data" [] = Ok (t1, st1)
    ∧ bulk_sync_database "2026-01-01T11:00:00" [example_file "/data/a.txt" 1000]
                         "/data" t1 = Ok (t2, st2)
    ∧ ¬ (inserted st2 = 0 ∧ updated st2 = 0 ∧ restored st2 = 0 ∧ deleted st2 = 0).
Proof.
  eexists _, _, _, _. split; [vm_compute; reflexivity|].
  split; [vm_compute; reflexivity|].
  simpl. intros (_ & Hu & _). discriminate Hu.
Qed.

Lemma second_run_statistics_witness :
  ∃ t2 st2,
    bulk_sync_database "2026-01-01T11:00:00" [example_file "/data/a.txt" 1000]
      "/data"
      [inserted_row "2026-01-01T10:00:00" "/data"
         (example_file "/data/a.txt" 1000) 1]
    = Ok (t2, st2)
    ∧ inserted st2 = 0 ∧ updated st2 = Z.of_nat 1 ∧ restored st2 = 0
    ∧ deleted st2 = 0.
Proof.
  apply (second_run_statistics "2026-01-01T10:00:00" "2026-01-01T11:00:00"
           [example_file "/data/a.txt" 1000] "/data" []
           [inserted_row "2026-01-01T10:00:00" "/data"
              (example_file "/data/a.txt" 1000) 1]
           {| inserted := 1; updated := 0; restored := 0; deleted := 0 |}).
  - split; constructor.
  - vm_compute. reflexivity.
Defined.

(** ** The schema constraints are invariant *)

Lemma upsert_file_wf now md scan_root (t : Table) :
  table_wf t → table_wf (upsert_file now md scan_root t).1.
Proof.
  intros Hwf. unfold upsert_file.
  destruct (head _) as [existing|] eqn:Hhead; simpl.
  - by apply table_wf_update.
  - apply table_wf_insert; [|done].
    intros (r & Hp & Hr)%list_elem_of_fmap.
    apply head_None in Hhead.
    assert (r ∈ filter (λ r, full_path r = md_full_path md) t) as Hin
      by (by apply list_elem_of_filter).
    rewrite Hhead in Hin. inversion Hin.
Qed.

Lemma mark_deleted_wf now (paths : list string) (t : Table) :
  table_wf t → table_wf (mark_deleted now paths t).1.
Proof.
  intros Hwf. rewrite mark_deleted_fst.
  apply (foldl_preserves table_wf); [done|].
  intros t1 p Ht1. by apply table_wf_update.
Qed.

Lemma assign_duplicate_groups_wf scan_root (t : Table) :
  table_wf t → table_wf (assign_duplicate_groups scan_root t).1.
Proof.
  intros Hwf. unfold assign_duplicate_groups. simpl.
  apply (foldl_preserves table_wf).
  - by apply table_wf_update.
  - intros t1 g Ht1. by apply table_wf_update.
Qed.

Lemma hash_candidate_wf w now cb total st c :
  table_wf (hs_table st) → table_wf (hs_table (hash_candidate w now cb total st c)).
Proof.
  intros Hwf. unfold hash_candidate. destruct c as [[file_id filepath] existing_hash].
  destruct existing_hash; simpl; [done|].
  destruct (path_exists w filepath); simpl; [|done].
  destruct (calculate_hash w filepath) as [h|]; simpl; [|done].
  destruct (decide (h = EmptyString)); simpl; [done|]. by apply table_wf_update.
Qed.

Lemma hash_candidates_wf w now cb total cands st :
  table_wf (hs_table st) → table_wf (hs_table (hash_candidates w now cb total cands st)).
Proof.
  intros Hwf. unfold hash_candidates.
  apply (foldl_preserves (λ st', table_wf (hs_table st'))); [done|].
  intros st1 c Hst1.
  apply (foldl_preserves (λ st', table_wf (hs_table st'))); [done|].
  intros st2 c2 Hst2. by apply hash_candidate_wf.
Qed.

Lemma compute_hashes_for_candidates_wf w now cb scan_root (t : Table) :
  table_wf t → table_wf (compute_hashes_for_candidates w now cb scan_root t).1.1.
Proof.
  intros Hwf. unfold compute_hashes_for_candidates.
  case_decide; [done|].
  destruct (assign_duplicate_groups _ _) as [t' g] eqn:Hassign. simpl.
  change t' with (t', g).1. rewrite <-Hassign.
  by apply assign_duplicate_groups_wf, hash_candidates_wf.
Qed.

Lemma run_action_wf (a : Action) (t : Table) : table_wf t → table_wf (run_action t a).
Proof.
  intros Hwf. destruct a; simpl.
  - destruct (bulk_sync_database now all_files scan_root t) as [[t' st']|e] eqn:Hrun;
      [by eapply bulk_sync_database_wf|done].
  - by apply upsert_file_wf.
  - by apply mark_deleted_wf.
  - by apply compute_hashes_for_candidates_wf.
  - by apply assign_duplicate_groups_wf.
Qed.

Lemma run_actions_wf (acts : list Action) (t : Table) :
  table_wf t → table_wf (run_actions t acts).
Proof.
  intros Hwf. unfold run_actions.
  apply (foldl_preserves table_wf); [done|]. intros t1 a. apply run_action_wf.
Qed.

(** C4.  Whatever sequence of store operations runs on the empty table,
    under whatever scan roots, no two rows share a [full_path], hence no
    two rows share a [(full_path, scan_root_directory)] pair, and a path
    has at most one row: observing a recorded path again never adds a
    second row for it. *)
Theorem path_identifies_record (acts : list Action) :
  NoDup (full_path <$> run_actions [] acts)
  ∧ NoDup ((λ r, (full_path r, scan_root_directory r)) <$> run_actions [] acts)
  ∧ ∀ p, (length (filter (λ r, full_path r = p) (run_actions [] acts)) ≤ 1)%nat.
Proof.
  destruct (run_actions_wf acts [] table_wf_nil) as [Hpaths _].
  split; [done|]. split.
  - apply (NoDup_fmap_1 fst). by rewrite <-list_fmap_compose.
  - intros p. revert Hpaths. generalize (run_actions [] acts). intros t.
    induction t as [|r t IH]; intros Hnd; [simpl; lia|].
    rewrite fmap_cons in Hnd. apply NoDup_cons in Hnd as [Hr Hnd].
    rewrite filter_cons. case_decide as Hp; [|by apply IH].
    destruct (filter (λ r, full_path r = p) t) as [|x l] eqn:Hf; [simpl; lia|].
    exfalso. apply Hr.
    assert (x ∈ filter (λ r, full_path r = p) t) as Hx
      by (rewrite Hf; apply list_elem_of_here).
    apply list_elem_of_filter in Hx as [Hxp Hx].
    apply list_elem_of_fmap. exists x. split; [congruence|done].
Qed.

(** ** Duplicate regrouping *)

Lemma NoDup_fmap_inj {A B} (f : A → B) (l : list A) (x y : A) :
  NoDup (f <$> l) → x ∈ l → y ∈ l → f x = f y → x = y.
Proof.
  intros Hnd [i Hi]%list_elem_of_lookup [j Hj]%list_elem_of_lookup Heq.
  assert (i = j) as ->.
  { eapply NoDup_lookup; [exact Hnd| |].
    - rewrite list_lookup_fmap, Hi. reflexivity.
    - rewrite list_lookup_fmap, Hj. simpl. by rewrite Heq. }
  congruence.
Qed.

Lemma enumerate_fst {A} (start : Z) (l : list A) :
  (enumerate start l).*1 = seqZ start (Z.of_nat (length l)).
Proof.
  revert start. induction l as [|x l IH]; intros start; [done|].
  simpl enumerate. rewrite fmap_cons, IH. simpl length.
  rewrite Nat2Z.inj_succ, (seqZ_cons start) by lia. rewrite Z.pred_succ.
  by replace (start + 1) with (Z.succ start) by lia.
Qed.

Lemma enumerate_snd {A} (start : Z) (l : list A) : (enumerate start l).*2 = l.
Proof.
  revert start. induction l as [|x l IH]; intros start; [done|].
  simpl. by rewrite IH.
Qed.

Lemma assign_fold_fmap scan_root (gs : list (Z * (string * Z))) (t : Table) :
  foldl (assign_group scan_root) t gs = assign_row scan_root gs <$> t.
Proof.
  revert t. induction gs as [|g gs IH]; intros t.
  - simpl. unfold assign_row. simpl. by rewrite list_fmap_id.
  - simpl. rewrite IH. unfold assign_group, sql_update.
    rewrite <-list_fmap_compose. done.
Qed.

Lemma assign_duplicate_groups_fmap scan_root (t : Table) :
  (assign_duplicate_groups scan_root t).1 =
  (λ r, assign_row scan_root
          (enumerate 1 (duplicate_hashes scan_root
             (sql_update (λ r, scan_root_directory r = Some scan_root)
                         (with_duplicate_group None) t)))
          (reset_row scan_root r)) <$> t.
Proof.
  unfold assign_duplicate_groups. simpl. rewrite assign_fold_fmap.
  unfold sql_update at 2. by rewrite <-list_fmap_compose.
Qed.

(** The loop only writes [duplicate_group]. *)
Lemma assign_row_cols scan_root gs r :
  row_id (assign_row scan_root gs r) = row_id r
  ∧ file_hash (assign_row scan_root gs r) = file_hash r
  ∧ is_deleted (assign_row scan_root gs r) = is_deleted r
  ∧ scan_root_directory (assign_row scan_root gs r) = scan_root_directory r
  ∧ file_size_bytes (assign_row scan_root gs r) = file_size_bytes r.
Proof.
  unfold assign_row. revert r. induction gs as [|g gs IH]; intros r; [done|].
  simpl. destruct (IH (if decide (file_hash r = Some g.2.1 ∧ is_deleted r = false
                                  ∧ scan_root_directory r = Some scan_root)
                       then with_duplicate_group (Some g.1) r else r))
    as (-> & -> & -> & -> & ->).
  by case_decide.
Qed.

(** The group a row ends with: that of an entry holding its hash, or the
    one it had when no entry holds it. *)
Lemma assign_row_group scan_root gs r :
  (∃ g, g ∈ gs ∧ file_hash r = Some g.2.1 ∧ is_deleted r = false
        ∧ scan_root_directory r = Some scan_root
        ∧ duplicate_group (assign_row scan_root gs r) = Some g.1)
  ∨ ((∀ g, g ∈ gs → ¬ (file_hash r = Some g.2.1 ∧ is_deleted r = false
                       ∧ scan_root_directory r = Some scan_root))
     ∧ duplicate_group (assign_row scan_root gs r) = duplicate_group r).
Proof.
  unfold assign_row. revert r. induction gs as [|g gs IH]; intros r.
  - right. split; [|done]. intros g Hg. inversion Hg.
  - simpl. case_decide as Hm.
    + destruct (IH (with_duplicate_group (Some g.1) r))
        as [(g' & Hg' & Hh & Hd & Hr & Hgrp)|[Hno Hgrp]].
      * left. exists g'. split; [by apply list_elem_of_further|]. done.
      * left. exists g. split; [apply list_elem_of_here|].
        destruct Hm as (? & ? & ?). by rewrite Hgrp.
    + destruct (IH r) as [(g' & Hg' & Hrest)|[Hno Hgrp]].
      * left. exists g'. split; [by apply list_elem_of_further|]. done.
      * right. split; [|done].
        intros g' [->|Hg']%elem_of_cons; [done|by apply Hno].
Qed.

Lemma filter_length_fmap {A} (P : A → Prop) `{!∀ x, Decision (P x)}
    (f : A → A) (l : list A) :
  (∀ x, P (f x) ↔ P x) → length (filter P (f <$> l)) = length (filter P l).
Proof.
  intros Hf. induction l as [|x l IH]; [done|].
  rewrite fmap_cons.
  destruct (decide (P x)) as [Hx|Hx].
  - rewrite (filter_cons_True P (f x)) by (by apply Hf).
    rewrite (filter_cons_True P x) by done. simpl. by rewrite IH.
  - rewrite (filter_cons_False P (f x)) by (by rewrite Hf).
    by rewrite (filter_cons_False P x) by done.
Qed.


Lemma duplicate_hashes_NoDup scan_root (t : Table) :
  NoDup (duplicate_hashes scan_root t).*1.
Proof.
  unfold duplicate_hashes.
  eapply sublist_NoDup; [|apply fmap_sublist, sublist_filter].
  rewrite <-list_fmap_compose.
  erewrite list_fmap_ext; [rewrite list_fmap_id; apply NoDup_remove_dups|].
  by intros.
Qed.

Lemma duplicate_hashes_count scan_root (t : Table) (h : string) :
  length (filter (λ r, file_hash r = Some h)
            (filter (λ r, is_deleted r = false ∧ is_Some (file_hash r)
                          ∧ scan_root_directory r = Some scan_root) t))
  = active_hash_count scan_root t h.
Proof.
  unfold active_hash_count. rewrite list_filter_filter. f_equal.
  apply list_filter_iff. intros r. split.
  - tauto.
  - intros (Hd & Hr & Hh). rewrite Hh. eauto.
Qed.

Lemma elem_of_duplicate_hashes scan_root (t : Table) (h : string) :
  h ∈ (duplicate_hashes scan_root t).*1 ↔ (2 ≤ active_hash_count scan_root t h)%nat.
Proof.
  unfold duplicate_hashes. rewrite list_elem_of_fmap. split.
  - intros ([h' c] & -> & Hin). simpl.
    apply list_elem_of_filter in Hin as [Hc Hin]. simpl in Hc.
    apply list_elem_of_fmap in Hin as (h'' & [= -> ->] & _).
    rewrite duplicate_hashes_count in Hc. lia.
  - intros Hcount. rewrite <-duplicate_hashes_count in Hcount.
    exists (h, Z.of_nat (length (filter (λ r, file_hash r = Some h)
                (filter (λ r, is_deleted r = false ∧ is_Some (file_hash r)
                              ∧ scan_root_directory r = Some scan_root) t)))).
    split; [done|]. apply list_elem_of_filter. split.
    + simpl. lia.
    + apply list_elem_of_fmap. exists h. split; [done|].
      apply elem_of_remove_dups, list_elem_of_omap.
      destruct (filter (λ r, file_hash r = Some h) _) as [|r l] eqn:Hf;
        [simpl in Hcount; lia|].
      assert (r ∈ filter (λ r, file_hash r = Some h)
                (filter (λ r, is_deleted r = false ∧ is_Some (file_hash r)
                              ∧ scan_root_directory r = Some scan_root) t)) as Hr
        by (rewrite Hf; apply list_elem_of_here).
      apply list_elem_of_filter in Hr as [Hh Hr]. eauto.
Qed.

Lemma reset_row_cols scan_root r :
  row_id (reset_row scan_root r) = row_id r
  ∧ file_hash (reset_row scan_root r) = file_hash r
  ∧ is_deleted (reset_row scan_root r) = is_deleted r
  ∧ scan_root_directory (reset_row scan_root r) = scan_root_directory r
  ∧ file_size_bytes (reset_row scan_root r) = file_size_bytes r.
Proof. unfold reset_row. by case_decide. Qed.

Lemma active_hash_count_fmap scan_root (f : Row → Row) (t : Table) h :
  (∀ r, file_hash (f r) = file_hash r ∧ is_deleted (f r) = is_deleted r
        ∧ scan_root_directory (f r) = scan_root_directory r) →
  active_hash_count scan_root (f <$> t) h = active_hash_count scan_root t h.
Proof.
  intros Hf. unfold active_hash_count. apply filter_length_fmap.
  intros r. destruct (Hf r) as (-> & -> & ->). done.
Qed.

(** The rows of the regrouped table, in terms of those of the table. *)
Lemma assign_duplicate_groups_row scan_root (t : Table) i r' :
  (assign_duplicate_groups scan_root t).1 !! i = Some r' →
  scan_root_directory r' = Some scan_root → is_deleted r' = false →
  let t0 := sql_update (λ r, scan_root_directory r = Some scan_root)
                       (with_duplicate_group None) t in
  let gs := enumerate 1 (duplicate_hashes scan_root t0) in
  ∃ r0, t0 !! i = Some r0 ∧ file_hash r0 = file_hash r'
    ∧ is_deleted r0 = false ∧ scan_root_directory r0 = Some scan_root
    ∧ ((∃ g, g ∈ gs ∧ file_hash r' = Some g.2.1 ∧ duplicate_group r' = Some g.1)
       ∨ ((∀ g, g ∈ gs → file_hash r' ≠ Some g.2.1) ∧ duplicate_group r' = None)).
Proof.
  intros Hi Hroot Hact t0 gs.
  rewrite assign_duplicate_groups_fmap, list_lookup_fmap in Hi.
  destruct (t !! i) as [r|] eqn:Hr; [|done]. simpl in Hi. injection Hi as Hi.
  fold t0 gs in Hi.
  destruct (assign_row_cols scan_root gs (reset_row scan_root r))
    as (_ & Hh & Hd & Hs & _).
  rewrite Hi in Hh, Hd, Hs.
  exists (reset_row scan_root r). split.
  { subst t0. rewrite sql_update_lookup, Hr. done. }
  split; [done|]. split; [congruence|]. split; [congruence|].
  destruct (assign_row_group scan_root gs (reset_row scan_root r))
    as [(g & Hg & Hgh & _ & _ & Hgrp)|[Hno Hgrp]]; rewrite Hi in Hgrp.
  - left. exists g. split; [done|]. split; [congruence|done].
  - right. split.
    + intros g Hg Hgh. apply (Hno g Hg). split_and!; congruence.
    + rewrite Hgrp. unfold reset_row. rewrite decide_True; [done|].
      destruct (reset_row_cols scan_root r) as (_ & _ & _ & <- & _). congruence.
Qed.

Lemma active_hash_count_regroup scan_root (t : Table) h :
  active_hash_count scan_root (assign_duplicate_groups scan_root t).1 h
  = active_hash_count scan_root t h.
Proof.
  rewrite assign_duplicate_groups_fmap. apply active_hash_count_fmap. intros r.
  destruct (assign_row_cols scan_root
              (enumerate 1 (duplicate_hashes scan_root
                 (sql_update (λ r, scan_root_directory r = Some scan_root)
                             (with_duplicate_group None) t)))
              (reset_row scan_root r)) as (_ & -> & -> & -> & _).
  destruct (reset_row_cols scan_root r) as (_ & -> & -> & -> & _). done.
Qed.

Lemma active_hash_count_reset scan_root (t : Table) h :
  active_hash_count scan_root
    (sql_update (λ r, scan_root_directory r = Some scan_root)
                (with_duplicate_group None) t) h
  = active_hash_count scan_root t h.
Proof.
  unfold sql_update. apply active_hash_count_fmap. intros r. by case_decide.
Qed.






(** ** The duplicate-detection pass *)

(** C2, at the input where the code departs from it.  Three files are
    reconciled, two of them duplicates of 1000 bytes; the detection pass
    groups the two; one of the two is removed and the directory is
    reconciled again.  No size is shared by two active files any more, so
    candidate selection returns nothing: the next detection pass returns
    at once with [(0, 0)] and writes nothing.  The surviving file keeps
    its group, so [run_duplicate_detection] reports no group found next
    to statistics that count one group of one file, whereas the regrouping
    step, which the pass runs in every other case, clears the group. *)
Theorem detection_returns_before_regroup (now : string) (cb : bool) :
  let t := run_actions []
             [Reconcile "2026-01-01T10:00:00"
                [example_file "/data/a" 1000; example_file "/data/b" 1000;
                 example_file "/data/c" 500] "/data";
              DetectDuplicates example_world "2026-01-01T11:00:00" false "/data";
              Reconcile "2026-01-02T10:00:00"
                [example_file "/data/a" 1000; example_file "/data/c" 500] "/data"] in
  get_size_candidates "/data" t = []
  ∧ compute_hashes_for_candidates example_world now cb "/data" t = (t, (0, 0), [])
  ∧ duplicate_group <$>
      (compute_hashes_for_candidates example_world now cb "/data" t).1.1 !! 0%nat
    = Some (Some 1)
  ∧ (run_duplicate_detection example_world now cb "/data" t).1.2
    = Ok (0, 0, {| duplicate_files := 1; duplicate_groups := 1;
                   wasted_bytes := SqlInt 0 |})
  ∧ duplicate_group <$> (assign_duplicate_groups "/data" t).1 !! 0%nat = Some None
  ∧ (assign_duplicate_groups "/data" t).2 = 0.
Proof.
  intros t.
  assert (get_size_candidates "/data" t = []) as Hnone by (vm_compute; reflexivity).
  assert (compute_hashes_for_candidates example_world now cb "/data" t
          = (t, (0, 0), [])) as Hrun.
  { unfold compute_hashes_for_candidates. by rewrite Hnone. }
  unfold run_duplicate_detection. rewrite Hrun.
  split_and!; vm_compute; reflexivity.
Qed.

(** ** Candidate selection *)

Lemma foldl_preserves_elem {A B} (I : A → Prop) (f : A → B → A) (l : list B) (a : A) :
  I a → (∀ a b, b ∈ l → I a → I (f a b)) → I (foldl f a l).
Proof.
  revert a. induction l as [|b l IH]; intros a Ha Hstep; [done|].
  simpl. apply IH.
  - apply Hstep; [apply list_elem_of_here|done].
  - intros a' b' Hb'. apply Hstep. by apply list_elem_of_further.
Qed.

Lemma size_count_hashable scan_root (t : Table) (size : Z) :
  Z.of_nat (length (filter (λ r, file_size_bytes r = size) (hashable_rows scan_root t)))
  = size_count scan_root t size.
Proof.
  unfold size_count, hashable_rows. rewrite list_filter_filter. do 2 f_equal.
  apply list_filter_iff. intros r. tauto.
Qed.

(** The keys of the dictionary of candidates. *)
Lemma elem_of_size_candidates_keys scan_root (t : Table) (size : Z) :
  size ∈ (get_size_candidates scan_root t).*1 ↔
  2 ≤ size_count scan_root t size ≤ Config.MAX_SAME_SIZE_FILES.
Proof.
  unfold get_size_candidates. rewrite <-list_fmap_compose.
  change (fst ∘ (λ g : Z * Z, (g.1, size_members scan_root g.1 t)))
    with (fst : Z * Z → Z).
  unfold size_groups. rewrite list_elem_of_fmap. split.
  - intros ([s c] & -> & Hin). simpl.
    apply list_elem_of_filter in Hin as [[Hlo Hhi] Hin]. simpl in *.
    apply list_elem_of_fmap in Hin as (s' & [= -> ->] & _).
    rewrite size_count_hashable in Hlo, Hhi. lia.
  - intros [Hlo Hhi]. exists (size, size_count scan_root t size). split; [done|].
    apply list_elem_of_filter. split; [simpl; lia|].
    apply list_elem_of_fmap. exists size. split; [by rewrite size_count_hashable|].
    rewrite merge_sort_Permutation, elem_of_remove_dups, list_elem_of_fmap.
    rewrite <-size_count_hashable in Hlo.
    destruct (filter (λ r, file_size_bytes r = size) (hashable_rows scan_root t))
      as [|r l] eqn:Hf; [simpl in Hlo; lia|].
    assert (r ∈ filter (λ r, file_size_bytes r = size) (hashable_rows scan_root t))
      as Hr by (rewrite Hf; apply list_elem_of_here).
    apply list_elem_of_filter in Hr as [Hsz Hr]. eauto.
Qed.

Lemma size_candidates_keys_NoDup scan_root (t : Table) :
  NoDup (get_size_candidates scan_root t).*1.
Proof.
  unfold get_size_candidates. rewrite <-list_fmap_compose.
  change (fst ∘ (λ g : Z * Z, (g.1, size_members scan_root g.1 t)))
    with (fst : Z * Z → Z).
  unfold size_groups.
  eapply sublist_NoDup; [|apply fmap_sublist, sublist_filter].
  rewrite <-list_fmap_compose.
  erewrite list_fmap_ext; [rewrite list_fmap_id|by intros].
  rewrite merge_sort_Permutation. apply NoDup_remove_dups.
Qed.

(** The value stored under a key is the list of all active members of
    that size in the scan root. *)
Lemma size_candidates_members scan_root (t : Table) size files :
  (size, files) ∈ get_size_candidates scan_root t →
  files = size_members scan_root size t.
Proof.
  unfold get_size_candidates.
  intros (g & [= -> ->] & _)%list_elem_of_fmap. done.
Qed.

(** A candidate is a row of the table whose size is a key. *)
Lemma size_candidates_row scan_root (t : Table) size files c :
  (size, files) ∈ get_size_candidates scan_root t → c ∈ files →
  ∃ r, r ∈ t ∧ c = (row_id r, full_path r, file_hash r)
       ∧ file_size_bytes r = size
       ∧ size ∈ (get_size_candidates scan_root t).*1.
Proof.
  intros Hin Hc. rewrite (size_candidates_members _ _ _ _ Hin) in Hc.
  unfold size_members in Hc.
  apply list_elem_of_fmap in Hc as (r & -> & Hr).
  apply list_elem_of_filter in Hr as [(_ & Hsz & _) Hr].
  exists r. split_and!; [done..|].
  apply list_elem_of_fmap. by exists (size, files).
Qed.

Lemma hash_candidate_trace w now cb total st c p :
  HashFile p ∈ hs_trace (hash_candidate w now cb total st c) →
  HashFile p ∈ hs_trace st ∨ c.1.2 = p.
Proof.
  unfold hash_candidate. destruct c as [[file_id filepath] existing_hash]. simpl.
  assert (HashFile p ∈
            (if cb && bool_decide ((processed st + 1) `mod` 10 = 0)
             then hs_trace st ++ [ProgressCallback (processed st + 1) total]
             else hs_trace st) → HashFile p ∈ hs_trace st) as Hprog.
  { destruct (cb && _); [|done].
    intros [?|Hin]%elem_of_app; [done|].
    apply list_elem_of_singleton in Hin. discriminate. }
  assert (HashFile p ∈
            (if cb && bool_decide ((processed st + 1) `mod` 10 = 0)
             then hs_trace st ++ [ProgressCallback (processed st + 1) total]
             else hs_trace st) ++ [HashFile filepath] →
          HashFile p ∈ hs_trace st ∨ filepath = p) as Hcall.
  { intros [Hin|Hin]%elem_of_app; [left; by apply Hprog|right].
    apply list_elem_of_singleton in Hin. congruence. }
  destruct existing_hash; simpl; [by left; apply Hprog|].
  destruct (path_exists w filepath); simpl; [|by left; apply Hprog].
  destruct (calculate_hash w filepath) as [h|]; simpl; [|exact Hcall].
  destruct (decide (h = EmptyString)); simpl; exact Hcall.
Qed.

Lemma hash_candidate_row w now cb total st c i r :
  hs_table st !! i = Some r → c.1.1 ≠ row_id r →
  hs_table (hash_candidate w now cb total st c) !! i = Some r.
Proof.
  intros Hi Hne. unfold hash_candidate.
  destruct c as [[file_id filepath] existing_hash]. simpl in *.
  destruct existing_hash; simpl; [done|].
  destruct (path_exists w filepath); simpl; [|done].
  destruct (calculate_hash w filepath) as [h|]; simpl; [|done].
  destruct (decide (h = EmptyString)); simpl; [done|].
  rewrite sql_update_lookup, Hi. simpl. by rewrite decide_False.
Qed.

Lemma hash_candidates_confined w now cb total cands st :
  hashing_confined cands st (hash_candidates w now cb total cands st).
Proof.
  unfold hash_candidates.
  apply (foldl_preserves_elem (hashing_confined cands st)).
  - split; [by left|done].
  - intros st1 [size files] Hin Hst1. simpl.
    apply (foldl_preserves_elem (hashing_confined cands st)); [done|].
    intros st2 c Hc [Htr Hrows]. split.
    + intros p [Hp|Hp]%hash_candidate_trace; [by apply Htr|].
      right. by exists size, files, c.
    + intros i r Hi Hno. apply hash_candidate_row; [by apply Hrows|].
      by apply (Hno size files).
Qed.

(** The group stored under a key holds, in table order, the rows the
    count of that size counts: the second query of [get_size_candidates]
    has no minimum size of its own, the key has. *)
Lemma size_candidates_files scan_root (t : Table) size files :
  (size, files) ∈ get_size_candidates scan_root t →
  files = (λ r, (row_id r, full_path r, file_hash r)) <$>
            filter (λ r, is_deleted r = false
                         ∧ Config.MIN_FILE_SIZE_FOR_HASH ≤ file_size_bytes r
                         ∧ scan_root_directory r = Some scan_root
                         ∧ file_size_bytes r = size) t
  ∧ 2 ≤ Z.of_nat (length files) ≤ Config.MAX_SAME_SIZE_FILES.
Proof.
  intros Hin.
  assert (size ∈ (get_size_candidates scan_root t).*1) as Hkey
    by (apply list_elem_of_fmap; by exists (size, files)).
  apply elem_of_size_candidates_keys in Hkey.
  assert (Config.MIN_FILE_SIZE_FOR_HASH ≤ size) as Hmin.
  { destruct (decide (Config.MIN_FILE_SIZE_FOR_HASH ≤ size)) as [|Hsmall]; [done|].
    exfalso. unfold size_count in Hkey. rewrite filter_length_none in Hkey; [simpl in Hkey; lia|].
    apply Forall_forall. intros r _ (_ & Hm & _ & Hsz). lia. }
  assert (files = (λ r, (row_id r, full_path r, file_hash r)) <$>
            filter (λ r, is_deleted r = false
                         ∧ Config.MIN_FILE_SIZE_FOR_HASH ≤ file_size_bytes r
                         ∧ scan_root_directory r = Some scan_root
                         ∧ file_size_bytes r = size) t) as Hfiles.
  { rewrite (size_candidates_members _ _ _ _ Hin). unfold size_members. f_equal.
    apply list_filter_iff. intros r. split.
    - intros (Hd & Hsz & Hroot). split_and!; [done|lia|done..].
    - tauto. }
  split; [done|]. rewrite Hfiles, length_fmap. exact Hkey.
Qed.

(** C7.  The keys of the dictionary returned by [get_size_candidates] are
    exactly the sizes whose count of active members, among the records of
    the scan root at or above the minimum hashable size, is between 2 and
    the cap; each key appears once, and the group stored under it consists
    of exactly the counted records, each with its id, path and hash, so it
    has between 2 and the cap members.  A record whose size is shared by
    more members than the cap is no candidate, its path is not passed to
    the hasher by [compute_hashes_for_candidates], and its hash is after
    the pass what it was before. *)
Theorem size_candidates_within_cap scan_root (t : Table) :
  (∀ size, size ∈ (get_size_candidates scan_root t).*1 ↔
           2 ≤ size_count scan_root t size ≤ Config.MAX_SAME_SIZE_FILES)
  ∧ NoDup (get_size_candidates scan_root t).*1
  ∧ (∀ size files, (size, files) ∈ get_size_candidates scan_root t →
       files = (λ r, (row_id r, full_path r, file_hash r)) <$>
                 filter (λ r, is_deleted r = false
                              ∧ Config.MIN_FILE_SIZE_FOR_HASH ≤ file_size_bytes r
                              ∧ scan_root_directory r = Some scan_root
                              ∧ file_size_bytes r = size) t
       ∧ 2 ≤ Z.of_nat (length files) ≤ Config.MAX_SAME_SIZE_FILES)
  ∧ (∀ w now cb i r,
       table_wf t → t !! i = Some r →
       Config.MAX_SAME_SIZE_FILES < size_count scan_root t (file_size_bytes r) →
       (∀ size files, (size, files) ∈ get_size_candidates scan_root t →
          (row_id r, full_path r, file_hash r) ∉ files)
       ∧ (HashFile (full_path r)
            ∉ (compute_hashes_for_candidates w now cb scan_root t).2)
       ∧ ∃ r', (compute_hashes_for_candidates w now cb scan_root t).1.1 !! i = Some r'
               ∧ row_id r' = row_id r ∧ file_hash r' = file_hash r).
Proof.
  split; [apply elem_of_size_candidates_keys|].
  split; [apply size_candidates_keys_NoDup|].
  split; [apply size_candidates_files|].
  intros w now cb i r Hwf Hi Hcap.
  assert (r ∈ t) as Hr by (by eapply list_elem_of_lookup_2).
  assert (∀ size files c, (size, files) ∈ get_size_candidates scan_root t →
            c ∈ files → c.1.1 ≠ row_id r ∧ c.1.2 ≠ full_path r) as Hother.
  { intros size files c Hin Hc.
    destruct (size_candidates_row _ _ _ _ _ Hin Hc) as (r2 & Hr2 & -> & Hsz & Hkey).
    simpl. destruct Hwf as [Hpaths Hids].
    split; intros Heq.
    - assert (r2 = r) as -> by (by eapply (NoDup_fmap_inj row_id t)).
      apply elem_of_size_candidates_keys in Hkey. rewrite <-Hsz in Hkey. lia.
    - assert (r2 = r) as -> by (by eapply (NoDup_fmap_inj full_path t)).
      apply elem_of_size_candidates_keys in Hkey. rewrite <-Hsz in Hkey. lia. }
  split.
  { intros size files Hin Hc. by destruct (Hother _ _ _ Hin Hc) as [Hne _]. }
  unfold compute_hashes_for_candidates. case_decide as Hempty.
  { simpl. split; [apply not_elem_of_nil|eauto]. }
  set (st := hash_candidates _ _ _ _ _ _).
  destruct (hash_candidates_confined w now cb
              (foldr Z.add 0 ((λ c, Z.of_nat (length c.2))
                                <$> get_size_candidates scan_root t))
              (get_size_candidates scan_root t)
              {| hs_table := t; files_hashed := 0; processed := 0; hs_trace := [] |})
    as [Htr Hrows].
  fold st in Htr, Hrows. simpl in Htr, Hrows.
  destruct (assign_duplicate_groups scan_root (hs_table st)) as [t' g] eqn:Hassign.
  simpl. split.
  - intros [Hin|(size & files & c & Hin & Hc & Hp)]%Htr; [inversion Hin|].
    by destruct (Hother _ _ _ Hin Hc) as [_ Hne].
  - assert (hs_table st !! i = Some r) as Hst.
    { apply Hrows; [done|]. intros size files c Hin Hc.
      by destruct (Hother _ _ _ Hin Hc). }
    change t' with (t', g).1. rewrite <-Hassign, assign_duplicate_groups_fmap.
    rewrite list_lookup_fmap, Hst. simpl. eexists. split; [done|].
    match goal with |- context [assign_row ?root ?gs ?x] =>
      destruct (assign_row_cols root gs x) as (-> & -> & _) end.
    destruct (reset_row_cols scan_root r) as (-> & -> & _). done.
Qed.

(** 150 files of 4096 bytes, over the cap, beside two files of 1000 bytes:
    the two are the one group returned, with its members; none of the 150
    is hashed. *)
Lemma size_candidates_within_cap_witness :
  [(151, "/data/sub/x", @None string); (152, "/data/sub/y", None)]
  = (λ r, (row_id r, full_path r, file_hash r)) <$>
      filter (λ r, is_deleted r = false
                   ∧ Config.MIN_FILE_SIZE_FOR_HASH ≤ file_size_bytes r
                   ∧ scan_root_directory r = Some "/data"
                   ∧ file_size_bytes r = 1000)
             (crowded_table ++ [example_row 151 "/data/sub/x" 1000 None None false;
                                example_row 152 "/data/sub/y" 1000 None None false])
  ∧ (HashFile "/data/0"
       ∉ (compute_hashes_for_candidates example_world "2026-01-03T10:00:00" false
            "/data"
            (crowded_table ++ [example_row 151 "/data/sub/x" 1000 None None false;
                               example_row 152 "/data/sub/y" 1000 None None false])).2)
  ∧ ∃ r', (compute_hashes_for_candidates example_world "2026-01-03T10:00:00" false
             "/data"
             (crowded_table ++ [example_row 151 "/data/sub/x" 1000 None None false;
                                example_row 152 "/data/sub/y" 1000 None None false])).1.1
            !! 0%nat = Some r'
          ∧ row_id r' = 1 ∧ file_hash r' = None.
Proof.
  destruct (size_candidates_within_cap "/data"
              (crowded_table ++ [example_row 151 "/data/sub/x" 1000 None None false;
                                 example_row 152 "/data/sub/y" 1000 None None false]))
    as (_ & _ & Hfiles & Hcap).
  destruct (Hfiles 1000 [(151, "/data/sub/x", None); (152, "/data/sub/y", None)])
    as [Hgroup _].
  { vm_compute. left. }
  destruct (Hcap example_world "2026-01-03T10:00:00" false 0%nat
              (example_row 1 "/data/0" 4096 None None false))
    as (_ & Htrace & Hrow).
  - refine (bool_decide_unpack _ _). vm_compute. exact I.
  - vm_compute. reflexivity.
  - vm_compute. reflexivity.
  - split; [exact Hgroup|]. split; [exact Htrace|exact Hrow].
Defined.

(** ** Sums of 64-bit integers *)

Lemma int64_range : int64_min ≤ 0 ∧ 0 ≤ int64_max.
Proof. split; by vm_compute. Qed.

Lemma foldr_add_nonneg (ns : list Z) :
  Forall (λ n, 0 ≤ n) ns → 0 ≤ foldr Z.add 0 ns.
Proof. induction 1 as [|n ns Hn _ IH]; simpl; lia. Qed.

Lemma foldr_add_elem_le (ns : list Z) (n : Z) :
  Forall (λ n, 0 ≤ n) ns → n ∈ ns → n ≤ foldr Z.add 0 ns.
Proof.
  induction 1 as [|m ns Hm Hns IH]; intros Hin; [inversion Hin|].
  pose proof (foldr_add_nonneg ns Hns). simpl.
  apply elem_of_cons in Hin as [->|Hin]; [lia|]. specialize (IH Hin). lia.
Qed.

Lemma foldl_sum_step_overflow (ns : list Z) :
  foldl sum_step SumOverflow (SqlInt <$> ns) = SumOverflow.
Proof. induction ns as [|n ns IH]; [done|]. rewrite fmap_cons. simpl. exact IH. Qed.

(** Over integers that are not negative the accumulator is exact while
    the total is a 64-bit integer, and marks the overflow beyond. *)
Lemma foldl_sum_step_nonneg (ns : list Z) (acc : Z) :
  0 ≤ acc → acc ≤ int64_max → Forall (λ n, 0 ≤ n) ns →
  foldl sum_step (SumInt acc) (SqlInt <$> ns)
  = if decide (acc + foldr Z.add 0 ns ≤ int64_max)
    then SumInt (acc + foldr Z.add 0 ns) else SumOverflow.
Proof.
  intros Hacc Hfit Hns. revert acc Hacc Hfit.
  induction Hns as [|n ns Hn Hns IH]; intros acc Hacc Hfit.
  - simpl. rewrite Z.add_0_r. by rewrite decide_True.
  - pose proof (foldr_add_nonneg ns Hns) as Hsum.
    pose proof int64_range as [Hmin _].
    rewrite fmap_cons. cbn [foldl foldr sum_step].
    destruct (decide (in_int64 (acc + n))) as [[_ Hin]|Hout].
    + rewrite IH by lia. rewrite Z.add_assoc.
      destruct (decide (acc + n + foldr Z.add 0 ns ≤ int64_max)); done.
    + rewrite foldl_sum_step_overflow. rewrite decide_False; [done|].
      intros Hle. apply Hout. split; lia.
Qed.

(** Over integers the accumulator never turns to floating point, and an
    integer result is the exact sum. *)
Lemma foldl_sum_step_int (ns : list Z) (acc : Z) :
  foldl sum_step (SumInt acc) (SqlInt <$> ns) = SumOverflow
  ∨ (foldl sum_step (SumInt acc) (SqlInt <$> ns) = SumInt (acc + foldr Z.add 0 ns)
     ∧ (in_int64 acc → in_int64 (acc + foldr Z.add 0 ns))).
Proof.
  revert acc. induction ns as [|m ns IH]; intros acc.
  - right. simpl. rewrite Z.add_0_r. done.
  - rewrite fmap_cons. cbn [foldl foldr sum_step].
    destruct (decide (in_int64 (acc + m))) as [Hin|Hout].
    + destruct (IH (acc + m)) as [Hov|[Hint Hrange]]; [by left|right].
      rewrite Z.add_assoc. auto.
    + left. apply foldl_sum_step_overflow.
Qed.

Lemma sql_sum_nonneg (ns : list Z) :
  Forall (λ n, 0 ≤ n) ns →
  sql_sum (SqlInt <$> ns)
  = if decide (foldr Z.add 0 ns ≤ int64_max)
    then Ok (match ns with
             | [] => None
             | _ => Some (SqlInt (foldr Z.add 0 ns))
             end)
    else Raise (OperationalError "integer overflow").
Proof.
  intros Hns. pose proof int64_range as [_ Hmax].
  destruct ns as [|n ns].
  { rewrite fmap_nil. cbn [foldr sql_sum]. by rewrite decide_True. }
  unfold sql_sum. rewrite fmap_cons.
  rewrite <-(fmap_cons SqlInt n ns), foldl_sum_step_nonneg by done.
  rewrite Z.add_0_l. by destruct (decide (foldr Z.add 0 (n :: ns) ≤ int64_max)).
Qed.

Lemma sql_sum_int (ns : list Z) (total : option SqlNum) :
  sql_sum (SqlInt <$> ns) = Ok total →
  default (SqlInt 0) total = SqlInt (foldr Z.add 0 ns)
  ∧ in_int64 (foldr Z.add 0 ns).
Proof.
  pose proof int64_range as [Hmin Hmax].
  destruct ns as [|n ns]; [simpl; intros [= <-]; by split|].
  unfold sql_sum. rewrite fmap_cons. rewrite <-(fmap_cons SqlInt n ns).
  destruct (foldl_sum_step_int (n :: ns) 0) as [->|[-> Hrange]]; [done|].
  intros [= <-]. rewrite Z.add_0_l in *. split; [done|].
  by apply Hrange.
Qed.

(** ** Wasted space *)

Lemma group_count_grouped scan_root (t : Table) (g : Z) :
  Z.of_nat (length (filter (λ r, duplicate_group r = Some g) (grouped_rows scan_root t)))
  = group_count scan_root t g.
Proof.
  unfold group_count, grouped_rows. rewrite list_filter_filter. do 2 f_equal.
  apply list_filter_iff. intros r. split.
  - tauto.
  - intros (Hd & Hr & Hg). rewrite Hg. eauto.
Qed.

Lemma group_wasted_uniform scan_root (t : Table) (size_of : Z → Z) (g : Z) :
  (∀ r g, r ∈ t → is_deleted r = false → scan_root_directory r = Some scan_root →
          duplicate_group r = Some g → file_size_bytes r = size_of g) →
  g ∈ omap duplicate_group (grouped_rows scan_root t) →
  group_wasted scan_root t g = sql_mul (group_count scan_root t g - 1) (size_of g)
  ∧ 1 ≤ group_count scan_root t g
  ∧ ∃ r, r ∈ t ∧ file_size_bytes r = size_of g.
Proof.
  intros Huni (r & Hr & Hg)%list_elem_of_omap.
  unfold group_wasted. rewrite group_count_grouped.
  destruct (filter (λ r, duplicate_group r = Some g) (grouped_rows scan_root t))
    as [|m l] eqn:Hf.
  - assert (r ∈ filter (λ r, duplicate_group r = Some g) (grouped_rows scan_root t))
      as Hin by (by apply list_elem_of_filter).
    rewrite Hf in Hin. inversion Hin.
  - simpl.
    assert (m ∈ filter (λ r, duplicate_group r = Some g) (grouped_rows scan_root t))
      as Hm by (rewrite Hf; apply list_elem_of_here).
    apply list_elem_of_filter in Hm as [Hmg Hm].
    apply list_elem_of_filter in Hm as [(Hd & _ & Hroot) Hm].
    rewrite (Huni m g Hm Hd Hroot Hmg). split; [done|]. split.
    + rewrite <-group_count_grouped, Hf. simpl. lia.
    + exists m. split; [done|]. by apply Huni.
Qed.

(** C8, within the integers of the database.  When the active members of
    every duplicate group of the scan root have one size, [size_of g] for
    group [g], no size is negative, and the sum over the groups of
    (members - 1) times that size is a 64-bit integer, then
    [get_duplicate_group_stats] returns and reports exactly that sum as
    wasted bytes; a group of 2 members of 1000 bytes contributes 1000. *)
Theorem wasted_bytes_formula scan_root (t : Table) (size_of : Z → Z) :
  (∀ r g, r ∈ t → is_deleted r = false → scan_root_directory r = Some scan_root →
          duplicate_group r = Some g → file_size_bytes r = size_of g) →
  (∀ r, r ∈ t → 0 ≤ file_size_bytes r) →
  foldr Z.add 0
    ((λ g, (group_count scan_root t g - 1) * size_of g)
       <$> remove_dups (omap duplicate_group (grouped_rows scan_root t)))
    ≤ int64_max →
  (∃ stats, get_duplicate_group_stats scan_root t = Ok stats
            ∧ wasted_bytes stats
              = SqlInt (foldr Z.add 0
                  ((λ g, (group_count scan_root t g - 1) * size_of g)
                     <$> remove_dups (omap duplicate_group (grouped_rows scan_root t)))))
  ∧ (∀ g, g ∈ omap duplicate_group (grouped_rows scan_root t) →
          group_count scan_root t g = 2 → size_of g = 1000 →
          group_wasted scan_root t g = SqlInt 1000).
Proof.
  intros Huni Hsizes Hfit. pose proof int64_range as [Hmin Hmax]. split.
  - set (groups := remove_dups (omap duplicate_group (grouped_rows scan_root t))) in *.
    set (product := λ g, (group_count scan_root t g - 1) * size_of g) in *.
    assert (Forall (λ n, 0 ≤ n) (product <$> groups)) as Hpos.
    { apply Forall_fmap, Forall_forall. intros g Hg.
      apply (proj1 (elem_of_remove_dups _ _)) in Hg.
      destruct (group_wasted_uniform _ _ _ _ Huni Hg) as (_ & Hone & r & Hr & Hsz).
      specialize (Hsizes r Hr). simpl. unfold product. nia. }
    assert (group_wasted scan_root t <$> groups = SqlInt <$> (product <$> groups))
      as Hvalues.
    { rewrite <-list_fmap_compose. apply list_fmap_ext. intros i g Hg.
      apply list_elem_of_lookup_2 in Hg.
      assert (product g ∈ product <$> groups) as Hin
        by (apply list_elem_of_fmap; eauto).
      pose proof (foldr_add_elem_le _ _ Hpos Hin) as Hle.
      rewrite Forall_forall in Hpos. specialize (Hpos _ Hin).
      apply (proj1 (elem_of_remove_dups _ _)) in Hg.
      destruct (group_wasted_uniform _ _ _ _ Huni Hg) as (-> & _).
      simpl. unfold sql_mul. fold (product g).
      rewrite decide_True; [done|]. split; lia. }
    unfold get_duplicate_group_stats, total_wasted. fold groups.
    rewrite Hvalues, sql_sum_nonneg by done. rewrite decide_True by done.
    simpl. eexists. split; [reflexivity|]. simpl.
    by destruct (product <$> groups).
  - intros g Hg Hk Hs.
    destruct (group_wasted_uniform _ _ size_of _ Huni Hg) as (-> & _).
    rewrite Hk, Hs. by vm_compute.
Qed.

(** C8 as claimed, without the bound, fails.  In [grown_table] each of the
    two groups has 2 members of 2^62 bytes: the claimed metric is
    2^62 + 2^62 = 2^63, which is no 64-bit integer, and
    [get_duplicate_group_stats] reports nothing: its [SUM] raises
    [integer overflow]. *)
Lemma wasted_bytes_overflow_counterexample :
  (∀ r g, r ∈ grown_table → is_deleted r = false →
          scan_root_directory r = Some "/data" → duplicate_group r = Some g →
          file_size_bytes r = 2 ^ 62)
  ∧ foldr Z.add 0
      ((λ g, (group_count "/data" grown_table g - 1) * 2 ^ 62)
         <$> remove_dups (omap duplicate_group (grouped_rows "/data" grown_table)))
    = 2 ^ 63
  ∧ get_duplicate_group_stats "/data" grown_table
    = Raise (OperationalError "integer overflow")
  ∧ ¬ ∃ stats, get_duplicate_group_stats "/data" grown_table = Ok stats
               ∧ wasted_bytes stats = SqlInt (2 ^ 63).
Proof.
  assert (get_duplicate_group_stats "/data" grown_table
          = Raise (OperationalError "integer overflow")) as Hraise
    by (vm_compute; reflexivity).
  split_and!.
  - intros r g Hr _ _ _. revert Hr. vm_compute.
    intros Hr. repeat (apply elem_of_cons in Hr as [->|Hr]; [reflexivity|]).
    inversion Hr.
  - vm_compute. reflexivity.
  - exact Hraise.
  - intros (stats & Hok & _). rewrite Hraise in Hok. discriminate Hok.
Qed.

Lemma wasted_bytes_formula_witness :
  ∃ stats,
    get_duplicate_group_stats "/data"
      [example_row 1 "/data/a" 1000 (Some "d41d8") (Some 1) false;
       example_row 2 "/data/b" 1000 (Some "d41d8") (Some 1) false;
       example_row 3 "/data/c" 500 (Some "9e107") None false] = Ok stats
    ∧ wasted_bytes stats = SqlInt 1000.
Proof.
  destruct (wasted_bytes_formula "/data"
    [example_row 1 "/data/a" 1000 (Some "d41d8") (Some 1) false;
     example_row 2 "/data/b" 1000 (Some "d41d8") (Some 1) false;
     example_row 3 "/data/c" 500 (Some "9e107") None false]
    (λ _, 1000)) as [(stats & Hok & Hsum) _].
  - intros r g Hr _ _ Hg.
    repeat (apply elem_of_cons in Hr as [->|Hr]; [by vm_compute in Hg|]).
    inversion Hr.
  - intros r Hr.
    repeat (apply elem_of_cons in Hr as [->|Hr]; [by vm_compute|]).
    inversion Hr.
  - by vm_compute.
  - exists stats. split; [exact Hok|]. rewrite Hsum. vm_compute. reflexivity.
Defined.

(** ** Directory validation *)

(** C10.  When the target does not exist or is not a directory,
    [scan_directory] prints an error line, returns no statistics and
    leaves the database file as it found it: not even [init_db] runs. *)
Theorem invalid_target_writes_nothing (w : World) (now : string)
    (directory : option string) (db : option Table) :
  path_exists w (default (get_scan_directory w) directory) = false
  ∨ path_isdir w (default (get_scan_directory w) directory) = false →
  ∃ printed, scan_directory w now directory db = (ScanError printed, db).
Proof.
  intros Hbad. unfold scan_directory.
  destruct (path_exists w (default (get_scan_directory w) directory)) eqn:Hex; simpl.
  - destruct Hbad as [Hbad|Hbad]; [done|]. rewrite Hbad. simpl. eauto.
  - eauto.
Qed.

Lemma invalid_target_writes_nothing_witness :
  ∃ printed,
    scan_directory
      {| get_scan_directory := "/data"; normalize_path := λ path, path;
         path_exists := λ _, false; path_isdir := λ _, false;
         os_walk := λ _, []; path_join := String.append;
         stat_metadata := λ _, None; calculate_hash := λ _, None |}
      "2026-01-03T10:00:00" (Some "/missing")
      (Some [example_row 1 "/data/a" 1000 None None false])
    = (ScanError printed, Some [example_row 1 "/data/a" 1000 None None false]).
Proof.
  apply invalid_target_writes_nothing. left. reflexivity.
Defined.

(** * Further properties of the store and of its callers *)

(** ** [mark_deleted] *)

Lemma mark_path_compose now p (paths : list string) (t : Table) :
  sql_update (λ r, full_path r ∈ paths ∧ is_deleted r = false)
             (soft_deleted_row now) (mark_path now p t)
  = sql_update (λ r, full_path r ∈ p :: paths ∧ is_deleted r = false)
               (soft_deleted_row now) t.
Proof.
  unfold mark_path, sql_update. rewrite <-list_fmap_compose.
  apply list_fmap_ext. intros i r _. simpl.
  destruct (decide (full_path r = p ∧ is_deleted r = false)) as [[Hr Hd]|Hn].
  - rewrite (decide_False (P := _ ∧ is_deleted (soft_deleted_row now r) = false))
      by (by intros [_ ?]).
    rewrite decide_True; [done|]. split; [|done]. subst p. apply list_elem_of_here.
  - destruct (decide (full_path r ∈ paths ∧ is_deleted r = false)) as [[Hr Hd]|Hn2].
    + rewrite decide_True; [done|]. split; [|done]. by apply list_elem_of_further.
    + rewrite decide_False; [done|]. intros [Hin Hd].
      apply elem_of_cons in Hin as [Hin|Hin]; [by apply Hn|by apply Hn2].
Qed.

Lemma mark_path_count now p (paths : list string) (t : Table) :
  sql_rowcount (λ r, full_path r = p ∧ is_deleted r = false) t
  + Z.of_nat (length (filter (λ r, full_path r ∈ paths ∧ is_deleted r = false)
                             (mark_path now p t)))
  = Z.of_nat (length (filter (λ r, full_path r ∈ p :: paths ∧ is_deleted r = false) t)).
Proof.
  unfold sql_rowcount, mark_path, sql_update.
  induction t as [|r t IH]; [done|].
  rewrite fmap_cons.
  destruct (decide (full_path r = p ∧ is_deleted r = false)) as [[Hr Hd]|Hn].
  - rewrite (filter_cons_True (λ r, full_path r = p ∧ is_deleted r = false)) by done.
    rewrite (filter_cons_False _ (soft_deleted_row now r)) by (by intros [_ ?]).
    rewrite (filter_cons_True (λ r, full_path r ∈ p :: paths ∧ is_deleted r = false))
      by (split; [subst p; apply list_elem_of_here|done]).
    simpl length. lia.
  - rewrite (filter_cons_False (λ r, full_path r = p ∧ is_deleted r = false)) by done.
    destruct (decide (full_path r ∈ paths ∧ is_deleted r = false)) as [[Hr Hd]|Hn2].
    + rewrite (filter_cons_True _ r) by done.
      rewrite (filter_cons_True (λ r, full_path r ∈ p :: paths ∧ is_deleted r = false))
        by (split; [by apply list_elem_of_further|done]).
      simpl length. lia.
    + rewrite (filter_cons_False _ r) by done.
      rewrite (filter_cons_False
                 (λ r, full_path r ∈ p :: paths ∧ is_deleted r = false)); [lia|].
      intros [Hin Hd]. apply elem_of_cons in Hin as [Hin|Hin];
        [by apply Hn|by apply Hn2].
Qed.

(** The loop of [mark_deleted] from any count. *)
Lemma mark_deleted_fold now (paths : list string) (t : Table) (count : Z) :
  foldl (λ '(t, count) path,
           (mark_path now path t,
            count + sql_rowcount (λ r, full_path r = path ∧ is_deleted r = false) t))
        (t, count) paths
  = (sql_update (λ r, full_path r ∈ paths ∧ is_deleted r = false)
                (soft_deleted_row now) t,
     count + Z.of_nat (length (filter (λ r, full_path r ∈ paths ∧ is_deleted r = false) t))).
Proof.
  revert t count. induction paths as [|p paths IH]; intros t count.
  - simpl. f_equal.
    + symmetry. apply sql_update_none. intros r _ [Hin _]. inversion Hin.
    + rewrite filter_length_none; [lia|].
      apply Forall_forall. intros r _ [Hin _]. inversion Hin.
  - simpl. rewrite IH, mark_path_compose. f_equal.
    rewrite <-(mark_path_count now p paths t). lia.
Qed.

(** X1.  [mark_deleted] soft-deletes exactly the active rows whose path
    is listed, in whatever scan root they are, stamps them with [now] and
    returns their number; rows of other paths and rows already deleted,
    with the time of their deletion, are left as they are. *)
Theorem mark_deleted_effect now (paths : list string) (t : Table) (i : nat) (r : Row) :
  t !! i = Some r →
  (mark_deleted now paths t).1 !! i
    = Some (if decide (full_path r ∈ paths ∧ is_deleted r = false)
            then soft_deleted_row now r else r)
  ∧ (mark_deleted now paths t).2
    = Z.of_nat (length (filter (λ r, full_path r ∈ paths ∧ is_deleted r = false) t))
  ∧ length (mark_deleted now paths t).1 = length t.
Proof.
  intros Hi. unfold mark_deleted. rewrite mark_deleted_fold. simpl.
  rewrite sql_update_lookup, Hi, sql_update_length. split_and!; [done|lia|done].
Qed.

Lemma mark_deleted_effect_witness :
  (mark_deleted "2026-01-05T10:00:00" ["/data/b"; "/data/c"; "/data/zz"]
     example_table).1 !! 1%nat
  = Some (soft_deleted_row "2026-01-05T10:00:00"
            (example_row 2 "/data/b" 1000 (Some "d41d8") (Some 1) false))
  ∧ (mark_deleted "2026-01-05T10:00:00" ["/data/b"; "/data/c"; "/data/zz"]
       example_table).2 = 1.
Proof.
  destruct (mark_deleted_effect "2026-01-05T10:00:00"
              ["/data/b"; "/data/c"; "/data/zz"] example_table 1%nat
              (example_row 2 "/data/b" 1000 (Some "d41d8") (Some 1) false))
    as (Hrow & Hcount & _).
  - reflexivity.
  - split; [exact Hrow|exact Hcount].
Defined.

(** X2.  [mark_deleted] is idempotent: called again on the same paths it
    changes nothing and returns 0, at whatever time. *)
Theorem mark_deleted_idempotent now1 now2 (paths : list string) (t : Table) :
  mark_deleted now2 paths (mark_deleted now1 paths t).1
  = ((mark_deleted now1 paths t).1, 0).
Proof.
  unfold mark_deleted. rewrite !mark_deleted_fold. simpl.
  assert (∀ r, r ∈ sql_update (λ r, full_path r ∈ paths ∧ is_deleted r = false)
                   (soft_deleted_row now1) t →
               ¬ (full_path r ∈ paths ∧ is_deleted r = false)) as Hnone.
  { unfold sql_update. intros r (r0 & -> & _)%list_elem_of_fmap.
    case_decide as Hr0; [by intros [_ ?]|done]. }
  f_equal.
  - by apply sql_update_none.
  - rewrite filter_length_none; [done|]. by apply Forall_forall.
Qed.

(** ** [upsert_file] *)

Lemma head_filter_None {A} (P : A → Prop) `{!∀ x, Decision (P x)} (l : list A) :
  head (filter P l) = None → ∀ x, x ∈ l → ¬ P x.
Proof.
  rewrite head_None. intros Hnil x Hx HP.
  assert (x ∈ filter P l) as Hin by (by apply list_elem_of_filter).
  rewrite Hnil in Hin. inversion Hin.
Qed.

Lemma head_filter_Some {A} (P : A → Prop) `{!∀ x, Decision (P x)} (l : list A) x :
  head (filter P l) = Some x → x ∈ l ∧ P x.
Proof.
  intros Hhead. destruct (filter P l) as [|y l'] eqn:Hf; [done|].
  injection Hhead as ->.
  assert (x ∈ filter P l) as Hin by (rewrite Hf; apply list_elem_of_here).
  apply list_elem_of_filter in Hin. tauto.
Qed.

(** X3.  On a table satisfying the schema constraints [upsert_file]
    reports what it found: inserted when no row held the path, restored
    when the row that held it was soft-deleted, updated when it was
    active.  Only an insert adds a row, and afterwards the path is an
    active path of the given scan root, whichever scan root held it. *)
Theorem upsert_file_outcome now (md : Metadata) scan_root (t : Table) :
  table_wf t →
  ((upsert_file now md scan_root t).2 = UInserted
     ↔ md_full_path md ∉ (full_path <$> t))
  ∧ ((upsert_file now md scan_root t).2 = URestored
     ↔ ∃ r, r ∈ t ∧ full_path r = md_full_path md ∧ is_deleted r = true)
  ∧ ((upsert_file now md scan_root t).2 = UUpdated
     ↔ ∃ r, r ∈ t ∧ full_path r = md_full_path md ∧ is_deleted r = false)
  ∧ length (upsert_file now md scan_root t).1
    = match (upsert_file now md scan_root t).2 with
      | UInserted => S (length t)
      | _ => length t
      end
  ∧ md_full_path md ∈ get_all_active_paths scan_root (upsert_file now md scan_root t).1.
Proof.
  intros Hwf. unfold upsert_file.
  destruct (head (filter (λ r, full_path r = md_full_path md) t)) as [r0|] eqn:Hhead.
  - apply head_filter_Some in Hhead as [Hr0 Hp0].
    assert (md_full_path md ∈ (full_path <$> t)) as Hin
      by (apply list_elem_of_fmap; eauto).
    assert (∀ r, r ∈ t → full_path r = md_full_path md → r = r0) as Huniq.
    { intros r Hr Hp. eapply table_wf_path_inj; [done..|congruence]. }
    simpl. split_and!.
    + destruct (is_deleted r0); split; done.
    + split.
      * intros Hres. exists r0. split_and!; [done..|]. by destruct (is_deleted r0).
      * intros (r & Hr & Hp & Hd). rewrite (Huniq r Hr Hp) in Hd. by rewrite Hd.
    + split.
      * intros Hres. exists r0. split_and!; [done..|]. by destruct (is_deleted r0).
      * intros (r & Hr & Hp & Hd). rewrite (Huniq r Hr Hp) in Hd. by rewrite Hd.
    + rewrite sql_update_length. by destruct (is_deleted r0).
    + apply elem_of_get_all_active_paths.
      exists (refreshed_row now scan_root md r0). split_and!; [|done..].
      apply list_elem_of_fmap. exists r0. split; [|done]. by rewrite decide_True.
  - pose proof (head_filter_None _ _ Hhead) as Hnone. clear Hhead.
    rename Hnone into Hhead. simpl. split_and!.
    + split; [|done]. intros _ (r & Hp & Hr)%list_elem_of_fmap.
      by apply (Hhead r Hr).
    + split; [done|]. intros (r & Hr & Hp & _). exfalso. by apply (Hhead r Hr).
    + split; [done|]. intros (r & Hr & Hp & _). exfalso. by apply (Hhead r Hr).
    + rewrite length_app. simpl. lia.
    + apply elem_of_get_all_active_paths.
      exists (inserted_row now scan_root md (next_rowid t)). split_and!; [|done..].
      apply elem_of_app. right. apply list_elem_of_here.
Qed.

Lemma upsert_file_outcome_witness :
  (upsert_file "2026-01-05T10:00:00" (example_file "/data/c" 700) "/backup"
     example_table).2 = URestored
  ∧ "/data/c" ∈ get_all_active_paths "/backup"
      (upsert_file "2026-01-05T10:00:00" (example_file "/data/c" 700) "/backup"
         example_table).1.
Proof.
  destruct (upsert_file_outcome "2026-01-05T10:00:00"
              (example_file "/data/c" 700) "/backup" example_table)
    as (_ & Hres & _ & _ & Hact).
  - refine (bool_decide_unpack _ _). vm_compute. exact I.
  - split; [|exact Hact]. apply Hres.
    exists (example_row 3 "/data/c" 500 (Some "9e107") None true).
    split_and!; [|reflexivity..]. vm_compute. do 2 right. left.
Defined.

(** X4.  Upserting a path a second time, with whatever metadata, time and
    scan root, reports an update and adds no row: the first call has left
    every row of that path active. *)
Theorem upsert_file_again now1 now2 (md1 md2 : Metadata) root1 root2 (t : Table) :
  md_full_path md2 = md_full_path md1 →
  (upsert_file now2 md2 root2 (upsert_file now1 md1 root1 t).1).2 = UUpdated
  ∧ length (upsert_file now2 md2 root2 (upsert_file now1 md1 root1 t).1).1
    = length (upsert_file now1 md1 root1 t).1.
Proof.
  intros Hpath.
  assert (∃ r, head (filter (λ r, full_path r = md_full_path md2)
                       (upsert_file now1 md1 root1 t).1) = Some r
               ∧ is_deleted r = false) as (r1 & Hhead & Hact).
  { assert (∀ r, r ∈ (upsert_file now1 md1 root1 t).1 →
                 full_path r = md_full_path md2 → is_deleted r = false) as Hall.
    { unfold upsert_file.
      destruct (head (filter (λ r, full_path r = md_full_path md1) t))
        as [found|] eqn:Hfound; simpl.
      - intros r (r0 & -> & Hr0)%list_elem_of_fmap Hp.
        case_decide as Hp0; [done|]. congruence.
      - intros r [Hr| ->%list_elem_of_singleton]%elem_of_app Hp; [|done].
        exfalso. apply (head_filter_None _ _ Hfound r Hr). congruence. }
    assert (md_full_path md2 ∈ (full_path <$> (upsert_file now1 md1 root1 t).1))
      as (r & Hp & Hr)%list_elem_of_fmap.
    { unfold upsert_file.
      destruct (head (filter (λ r, full_path r = md_full_path md1) t))
        as [r0|] eqn:Hhead; simpl.
      - apply head_filter_Some in Hhead as [Hr0 Hp0].
        rewrite sql_update_proj by done.
        apply list_elem_of_fmap. exists r0. split; [congruence|done].
      - rewrite fmap_app. apply elem_of_app. right. simpl.
        rewrite Hpath. apply list_elem_of_here. }
    destruct (head (filter (λ r, full_path r = md_full_path md2)
                      (upsert_file now1 md1 root1 t).1)) as [r1|] eqn:Hhead.
    - exists r1. split; [done|].
      apply head_filter_Some in Hhead as [Hr1 Hp1]. by apply Hall.
    - exfalso. by apply (head_filter_None _ _ Hhead r Hr). }
  unfold upsert_file at 1 3. rewrite Hhead. simpl.
  rewrite Hact, sql_update_length. done.
Qed.

Lemma upsert_file_again_witness :
  (upsert_file "2026-01-06T10:00:00" (example_file "/data/new" 9) "/data"
     (upsert_file "2026-01-05T10:00:00" (example_file "/data/new" 7) "/data"
        example_table).1).2 = UUpdated.
Proof.
  apply (upsert_file_again "2026-01-05T10:00:00" "2026-01-06T10:00:00"
           (example_file "/data/new" 7) (example_file "/data/new" 9)
           "/data" "/data" example_table).
  reflexivity.
Defined.

(** ** More on [bulk_sync_database] *)

(** An insert entry whose path is in the table makes the batch raise. *)
Lemma process_batch_conflict scan_root now (batch : list BatchOp) t st md wd :
  (OpInsert, md, wd) ∈ batch → md_full_path md ∈ (full_path <$> t) →
  process_batch batch scan_root now (t, st)
  = Raise (IntegrityError "UNIQUE constraint failed: files.full_path").
Proof.
  revert t st. induction batch as [|op batch IH]; intros t st Hin Hpath.
  - inversion Hin.
  - simpl. destruct op as [[ty md'] wd']. destruct ty; simpl.
    + unfold sql_insert. case_decide as Hfree; [done|]. simpl.
      apply elem_of_cons in Hin as [[= <- <-]|Hin]; [done|].
      apply IH; [done|]. rewrite fmap_app. apply elem_of_app. by left.
    + apply elem_of_cons in Hin as [[=]|Hin].
      case_decide; simpl; (apply IH; [done|]); by rewrite sql_update_proj.
Qed.

(** X5.  A reconciliation that observes a path recorded under another
    scan root raises the integrity error of the [UNIQUE] constraint on
    [full_path]: the path is absent from the dictionary of the scan root
    and is prepared as an insert.  [upsert_file] on the same path does not
    fail, it reassigns the row to the new scan root. *)
Theorem reconcile_foreign_path_raises now (all_files : list Metadata) scan_root
    (t : Table) (md : Metadata) (r : Row) :
  table_wf t →
  md ∈ all_files → r ∈ t → full_path r = md_full_path md →
  scan_root_directory r ≠ Some scan_root →
  bulk_sync_database now all_files scan_root t
  = Raise (IntegrityError "UNIQUE constraint failed: files.full_path")
  ∧ (upsert_file now md scan_root t).2 ≠ UInserted
  ∧ ∀ r', r' ∈ (upsert_file now md scan_root t).1 →
          full_path r' = md_full_path md →
          scan_root_directory r' = Some scan_root ∧ row_id r' = row_id r.
Proof.
  intros Hwf Hmd Hr Hpath Hroot.
  assert (existing_paths scan_root t !! md_full_path md = None) as Hex.
  { destruct (existing_paths scan_root t !! md_full_path md) as [d|] eqn:Hex; [|done].
    apply existing_paths_Some in Hex as (r2 & Hr2 & Hp2 & Hroot2 & _).
    assert (r2 = r) as -> by (eapply table_wf_path_inj; [done..|congruence]).
    done. }
  split.
  { rewrite bulk_sync_database_eq. simpl.
    rewrite (process_batch_conflict _ _ _ _ _ md None); [done| |].
    - apply list_elem_of_fmap. exists md. split; [|done].
      unfold prepare_op. by rewrite Hex.
    - apply list_elem_of_fmap. by exists r. }
  unfold upsert_file.
  destruct (head (filter (λ r, full_path r = md_full_path md) t)) as [r0|] eqn:Hhead.
  - simpl. split; [by destruct (is_deleted r0)|].
    intros r' (r1 & -> & Hr1)%list_elem_of_fmap Hp'.
    case_decide as Hp1; [|done]. split; [done|]. simpl.
    by rewrite (table_wf_path_inj t r1 r Hwf Hr1 Hr) by congruence.
  - exfalso. by apply (head_filter_None _ _ Hhead r Hr).
Qed.

Lemma reconcile_foreign_path_raises_witness :
  bulk_sync_database "2026-01-05T10:00:00" [example_file "/data/a" 1000] "/"
                     example_table
  = Raise (IntegrityError "UNIQUE constraint failed: files.full_path").
Proof.
  apply (reconcile_foreign_path_raises "2026-01-05T10:00:00"
           [example_file "/data/a" 1000] "/" example_table
           (example_file "/data/a" 1000)
           (example_row 1 "/data/a" 1000 (Some "d41d8") (Some 1) false)).
  - refine (bool_decide_unpack _ _). vm_compute. exact I.
  - apply list_elem_of_here.
  - apply list_elem_of_here.
  - reflexivity.
  - discriminate.
Defined.

Lemma filter_lookup_partition (existing : gmap string bool) (l : list Metadata) :
  (length (filter (λ md, existing !! md_full_path md = None) l)
   + length (filter (λ md, existing !! md_full_path md = Some false) l)
   + length (filter (λ md, existing !! md_full_path md = Some true) l))%nat
  = length l.
Proof.
  induction l as [|md l IH]; [done|].
  destruct (existing !! md_full_path md) as [[|]|] eqn:He;
    repeat first
      [ rewrite filter_cons_True by (rewrite ?He; congruence)
      | rewrite filter_cons_False by (rewrite ?He; congruence) ];
    simpl; lia.
Qed.

Lemma existing_paths_active scan_root (t : Table) p :
  table_wf t →
  existing_paths scan_root t !! p = Some false ↔ p ∈ get_all_active_paths scan_root t.
Proof.
  intros Hwf. rewrite elem_of_get_all_active_paths. split.
  - intros (r & Hr & Hp & Hroot & Hd)%existing_paths_Some. eauto.
  - intros (r & Hr & <- & Hd & Hroot). rewrite <-Hd.
    by apply existing_paths_row.
Qed.

(** X6.  The statistics of a run add up: every observed file is counted
    once, as inserted, updated or restored; the soft-deleted count is the
    number of paths that were active in the scan root and were not
    observed; the table grows by the number of inserts. *)
Theorem reconciliation_counts now (all_files : list Metadata) scan_root
    (t t' : Table) st' :
  table_wf t →
  bulk_sync_database now all_files scan_root t = Ok (t', st') →
  inserted st' + updated st' + restored st' = Z.of_nat (length all_files)
  ∧ deleted st'
    = Z.of_nat (size (get_all_active_paths scan_root t
                      ∖ list_to_set (md_full_path <$> all_files)))
  ∧ Z.of_nat (length t') = Z.of_nat (length t) + inserted st'.
Proof.
  intros Hwf Hrun.
  pose proof (bulk_sync_database_paths _ _ _ _ _ _ Hrun) as Hpaths.
  apply bulk_sync_database_Ok in Hrun as (t1 & st1 & Hbatch & -> & ->). simpl.
  pose proof (process_batch_stats _ _ _ _ _ _ _ Hbatch) as (Hi & Hu & Hr & Hd).
  pose proof (count_ops_prepare (existing_paths scan_root t) all_files)
    as (Ci & Cu & Cr).
  pose proof (filter_lookup_partition (existing_paths scan_root t) all_files) as Hsum.
  rewrite Hi, Hu, Hr, Hd. simpl. split_and!.
  - rewrite Ci, Cu, Cr. lia.
  - rewrite Z.add_0_l. f_equal. unfold size, set_size. simpl.
    apply Permutation_length. apply NoDup_Permutation.
    + apply NoDup_filter, NoDup_elements.
    + apply NoDup_elements.
    + intros p. rewrite elem_of_marked_paths, elem_of_elements, elem_of_difference.
      by rewrite existing_paths_active.
  - apply (f_equal length) in Hpaths.
    rewrite length_app, !length_fmap in Hpaths.
    unfold count_ops, ins_paths in *. rewrite length_fmap in Hpaths. lia.
Qed.

Lemma reconciliation_counts_witness :
  0 + 1 + 0 = Z.of_nat (length [example_file "/data/a" 1000])
  ∧ 1 = Z.of_nat (size (get_all_active_paths "/data" example_table
                        ∖ list_to_set (md_full_path <$> [example_file "/data/a" 1000]))).
Proof.
  destruct (reconciliation_counts "2026-01-03T10:00:00"
              [example_file "/data/a" 1000] "/data" example_table
              (table_after "2026-01-03T10:00:00" [example_file "/data/a" 1000]
                           "/data" example_table)
              {| inserted := 0; updated := 1; restored := 0; deleted := 1 |})
    as (Hsum & Hdel & _).
  - refine (bool_decide_unpack _ _). vm_compute. exact I.
  - vm_compute. reflexivity.
  - split; [exact Hsum|exact Hdel].
Defined.

(** X7.  After a run that returns, the active paths of the scan root are
    exactly the observed paths. *)
Theorem reconciliation_active_is_observed now (all_files : list Metadata) scan_root
    (t t' : Table) st' :
  table_wf t →
  bulk_sync_database now all_files scan_root t = Ok (t', st') →
  get_all_active_paths scan_root t' = list_to_set (md_full_path <$> all_files).
Proof.
  intros Hwf Hrun. apply set_eq. intros p.
  rewrite elem_of_list_to_set. split.
  - intros (r & Hr & <- & Hd & Hroot)%elem_of_get_all_active_paths.
    by eapply bulk_sync_database_active.
  - intros (md & -> & Hmd)%list_elem_of_fmap.
    apply existing_paths_active; [by eapply bulk_sync_database_wf|].
    by eapply bulk_sync_database_observed.
Qed.

Lemma reconciliation_active_is_observed_witness :
  get_all_active_paths "/data"
    (table_after "2026-01-03T10:00:00" [example_file "/data/c" 600] "/data"
                 example_table)
  = list_to_set (md_full_path <$> [example_file "/data/c" 600]).
Proof.
  apply (reconciliation_active_is_observed "2026-01-03T10:00:00"
           [example_file "/data/c" 600] "/data" example_table _
           {| inserted := 0; updated := 0; restored := 1; deleted := 2 |}).
  - refine (bool_decide_unpack _ _). vm_compute. exact I.
  - vm_compute. reflexivity.
Defined.

(** X8.  A run that returns leaves the rows of every other scan root, and
    those without a scan root, exactly as they were. *)
Theorem reconciliation_other_roots_untouched now (all_files : list Metadata)
    scan_root (t t' : Table) st' (i : nat) (r : Row) :
  table_wf t →
  bulk_sync_database now all_files scan_root t = Ok (t', st') →
  t !! i = Some r → scan_root_directory r ≠ Some scan_root →
  t' !! i = Some r.
Proof.
  intros Hwf Hrun Hi Hroot.
  assert (r ∈ t) as Hr by (by eapply list_elem_of_lookup_2).
  assert (existing_paths scan_root t !! full_path r = None) as Hex.
  { destruct (existing_paths scan_root t !! full_path r) as [d|] eqn:Hex; [|done].
    apply existing_paths_Some in Hex as (r2 & Hr2 & Hp2 & Hroot2 & _).
    by rewrite (table_wf_path_inj t r2 r Hwf Hr2 Hr Hp2) in Hroot2. }
  destruct (bulk_sync_database_old _ _ _ _ _ _ _ _ Hrun Hi)
    as (r' & Hr' & _ & [(_ & Hsome & _)|[(Hfalse & _)|(_ & _ & ->)]]).
  - rewrite Hex in Hsome. by destruct Hsome.
  - congruence.
  - done.
Qed.

Lemma reconciliation_other_roots_untouched_witness :
  table_after "2026-01-03T10:00:00" [example_file "/photos/x" 5] "/photos"
              example_table !! 0%nat
  = Some (example_row 1 "/data/a" 1000 (Some "d41d8") (Some 1) false).
Proof.
  apply (reconciliation_other_roots_untouched "2026-01-03T10:00:00"
           [example_file "/photos/x" 5] "/photos" example_table _
           {| inserted := 1; updated := 0; restored := 0; deleted := 0 |}).
  - refine (bool_decide_unpack _ _). vm_compute. exact I.
  - vm_compute. reflexivity.
  - reflexivity.
  - discriminate.
Defined.

(** ** More on regrouping *)

Lemma assign_row_only_group scan_root gs r :
  assign_row scan_root gs r
  = with_duplicate_group (duplicate_group (assign_row scan_root gs r)) r.
Proof.
  unfold assign_row. revert r. induction gs as [|g gs IH]; intros r.
  - by destruct r.
  - simpl. rewrite IH at 1. by case_decide.
Qed.

Lemma assign_row_outside scan_root gs r :
  scan_root_directory r ≠ Some scan_root → assign_row scan_root gs r = r.
Proof.
  intros Hroot. unfold assign_row. induction gs as [|g gs IH]; [done|].
  simpl. rewrite decide_False by (by intros (_ & _ & ?)). exact IH.
Qed.

Lemma reset_row_assign_row scan_root gs r :
  reset_row scan_root (assign_row scan_root gs (reset_row scan_root r))
  = reset_row scan_root r.
Proof.
  destruct (decide (scan_root_directory r = Some scan_root)) as [Hroot|Hroot].
  - assert (reset_row scan_root r = with_duplicate_group None r) as ->
      by (unfold reset_row; by rewrite decide_True).
    rewrite (assign_row_only_group scan_root gs).
    unfold reset_row. simpl. by rewrite decide_True.
  - assert (reset_row scan_root r = r) as ->
      by (unfold reset_row; by rewrite decide_False).
    rewrite assign_row_outside by done.
    unfold reset_row. by rewrite decide_False.
Qed.

(** X9.  Regrouping is idempotent: a second [assign_duplicate_groups] for
    the same scan root gives the same table and the same number of
    groups. *)
Theorem regroup_idempotent scan_root (t : Table) :
  assign_duplicate_groups scan_root (assign_duplicate_groups scan_root t).1
  = assign_duplicate_groups scan_root t.
Proof.
  assert (sql_update (λ r, scan_root_directory r = Some scan_root)
            (with_duplicate_group None) (assign_duplicate_groups scan_root t).1
          = sql_update (λ r, scan_root_directory r = Some scan_root)
              (with_duplicate_group None) t) as Hreset.
  { rewrite assign_duplicate_groups_fmap. unfold sql_update at 1 3.
    rewrite <-list_fmap_compose. apply list_fmap_ext. intros i r _.
    apply (reset_row_assign_row scan_root). }
  remember (assign_duplicate_groups scan_root t).1 as t' eqn:Ht'.
  unfold assign_duplicate_groups. by rewrite Hreset.
Qed.

Lemma filter_length_le {A} (P Q : A → Prop) `{!∀ x, Decision (P x)}
    `{!∀ x, Decision (Q x)} (l : list A) :
  (∀ x, x ∈ l → P x → Q x) → (length (filter P l) ≤ length (filter Q l))%nat.
Proof.
  induction l as [|x l IH]; intros Himp; [done|].
  assert (length (filter P l) ≤ length (filter Q l))%nat as Hle
    by (apply IH; intros y Hy; apply Himp; by apply list_elem_of_further).
  destruct (decide (P x)) as [Hx|Hx].
  - rewrite (filter_cons_True P) by done.
    rewrite (filter_cons_True Q) by (apply Himp; [apply list_elem_of_here|done]).
    simpl. lia.
  - rewrite (filter_cons_False P) by done.
    destruct (decide (Q x)).
    + rewrite (filter_cons_True Q) by done. simpl. lia.
    + by rewrite (filter_cons_False Q) by done.
Qed.

(** The group of an active hashed row of the scan root after regrouping,
    for every hash held twice. *)
Lemma assign_duplicate_groups_entry scan_root (t : Table) g r' :
  g ∈ enumerate 1 (duplicate_hashes scan_root
        (sql_update (λ r, scan_root_directory r = Some scan_root)
                    (with_duplicate_group None) t)) →
  r' ∈ (assign_duplicate_groups scan_root t).1 →
  scan_root_directory r' = Some scan_root → is_deleted r' = false →
  file_hash r' = Some g.2.1 →
  duplicate_group r' = Some g.1.
Proof.
  intros Hg [i Hi]%list_elem_of_lookup Hroot Hact Hh.
  destruct (assign_duplicate_groups_row _ _ _ _ Hi Hroot Hact)
    as (r0 & _ & _ & _ & _ & [(g' & Hg' & Hh' & Hgrp)|[Hno _]]).
  - assert (g' = g) as ->; [|done].
    eapply (NoDup_fmap_inj (λ g : Z * (string * Z), g.2.1)); [|done..|congruence].
    assert (∀ gs : list (Z * (string * Z)),
              (λ g : Z * (string * Z), g.2.1) <$> gs = (gs.*2).*1) as ->
      by (intros; by rewrite <-list_fmap_compose).
    rewrite enumerate_snd. apply duplicate_hashes_NoDup.
  - by destruct (Hno g Hg).
Qed.

(** X10.  The number returned by [assign_duplicate_groups] is the number
    of groups the counting query of [get_duplicate_group_stats] finds
    afterwards, and the number of groups in the statistics whenever
    [get_duplicate_group_stats] returns them.  The group ids in use are
    exactly 1 to that number, and every group has at least two active
    members in the scan root. *)
Theorem regroup_count_agrees scan_root (t : Table) :
  (count_duplicates scan_root (assign_duplicate_groups scan_root t).1).2
  = (assign_duplicate_groups scan_root t).2
  ∧ (∀ stats,
       get_duplicate_group_stats scan_root (assign_duplicate_groups scan_root t).1
       = Ok stats →
       duplicate_groups stats = (assign_duplicate_groups scan_root t).2)
  ∧ ∀ g, (∃ r', r' ∈ (assign_duplicate_groups scan_root t).1
                ∧ scan_root_directory r' = Some scan_root
                ∧ is_deleted r' = false ∧ duplicate_group r' = Some g)
         ↔ 1 ≤ g ≤ (assign_duplicate_groups scan_root t).2
           ∧ 2 ≤ group_count scan_root (assign_duplicate_groups scan_root t).1 g.
Proof.
  set (t0 := sql_update (λ r, scan_root_directory r = Some scan_root)
                        (with_duplicate_group None) t).
  set (dups := duplicate_hashes scan_root t0).
  assert ((assign_duplicate_groups scan_root t).2 = Z.of_nat (length dups)) as Hn
    by done.
  assert (∀ g, 1 ≤ g ≤ Z.of_nat (length dups) →
               ∃ e, e ∈ enumerate 1 dups ∧ e.1 = g) as Hentry.
  { intros g Hg.
    assert (g ∈ (enumerate 1 dups).*1) as (e & -> & He)%list_elem_of_fmap
      by (rewrite enumerate_fst; apply elem_of_seqZ; lia).
    eauto. }
  assert (∀ e, e ∈ enumerate 1 dups →
               1 ≤ e.1 ≤ Z.of_nat (length dups)
               ∧ 2 ≤ group_count scan_root (assign_duplicate_groups scan_root t).1 e.1)
    as Hfull.
  { intros e He. split.
    - assert (e.1 ∈ (enumerate 1 dups).*1) as Hin
        by (apply list_elem_of_fmap; eauto).
      rewrite enumerate_fst in Hin. apply elem_of_seqZ in Hin. lia.
    - assert (2 ≤ active_hash_count scan_root
                    (assign_duplicate_groups scan_root t).1 e.2.1)%nat as Hcount.
      { rewrite active_hash_count_regroup, <-(active_hash_count_reset scan_root t).
        apply elem_of_duplicate_hashes. fold t0 dups.
        rewrite <-(enumerate_snd 1 dups).
        apply list_elem_of_fmap. exists e.2. split; [done|].
        apply list_elem_of_fmap. by exists e. }
      unfold group_count. unfold active_hash_count in Hcount.
      pose proof (filter_length_le
        (λ r, is_deleted r = false ∧ scan_root_directory r = Some scan_root
              ∧ file_hash r = Some e.2.1)
        (λ r, is_deleted r = false ∧ scan_root_directory r = Some scan_root
              ∧ duplicate_group r = Some e.1)
        (assign_duplicate_groups scan_root t).1) as Hle.
      apply inj_le in Hcount.
      etransitivity; [exact Hcount|]. apply inj_le, Hle.
      intros r' Hr' (Hd & Hroot & Hh). split_and!; [done..|].
      by eapply assign_duplicate_groups_entry. }
  assert (∀ g, (∃ r', r' ∈ (assign_duplicate_groups scan_root t).1
                      ∧ scan_root_directory r' = Some scan_root
                      ∧ is_deleted r' = false ∧ duplicate_group r' = Some g)
               ↔ 1 ≤ g ≤ Z.of_nat (length dups)
                 ∧ 2 ≤ group_count scan_root (assign_duplicate_groups scan_root t).1 g)
    as Hiff.
  { intros g. split.
    - intros (r' & [i Hi]%list_elem_of_lookup & Hroot & Hact & Hgrp).
      destruct (assign_duplicate_groups_row _ _ _ _ Hi Hroot Hact)
        as (r0 & _ & _ & _ & _ & [(e & He & _ & Hgrp')|[_ Hnone]]); [|congruence].
      assert (e.1 = g) as <- by congruence. by apply Hfull.
    - intros [Hg Htwo]. unfold group_count in Htwo.
      destruct (filter _ (assign_duplicate_groups scan_root t).1) as [|r' l] eqn:Hf;
        [simpl in Htwo; lia|].
      assert (r' ∈ filter
                (λ r, is_deleted r = false ∧ scan_root_directory r = Some scan_root
                      ∧ duplicate_group r = Some g)
                (assign_duplicate_groups scan_root t).1) as Hr'
        by (rewrite Hf; apply list_elem_of_here).
      apply list_elem_of_filter in Hr' as [(Hd & Hroot & Hgrp) Hr']. eauto. }
  assert ((count_duplicates scan_root (assign_duplicate_groups scan_root t).1).2
          = (assign_duplicate_groups scan_root t).2) as Hcount;
    [|split; [exact Hcount|split; [|by rewrite Hn]];
      unfold get_duplicate_group_stats; intros stats Hstats;
      destruct (total_wasted scan_root (assign_duplicate_groups scan_root t).1);
      [|done]; simpl in Hstats; injection Hstats as <-; exact Hcount].
  rewrite Hn. unfold count_duplicates. simpl. f_equal.
  transitivity (length (seqZ 1 (Z.of_nat (length dups))));
    [|by rewrite length_seqZ, Nat2Z.id].
  apply Permutation_length, NoDup_Permutation.
  - apply NoDup_remove_dups.
  - apply NoDup_seqZ.
  - intros g. rewrite elem_of_remove_dups, list_elem_of_omap, elem_of_seqZ.
    split.
    + intros (r' & Hr' & Hgrp). unfold grouped_rows in Hr'.
      apply list_elem_of_filter in Hr' as [(Hd & _ & Hroot) Hr'].
      destruct (proj1 (Hiff g)) as [Hg _]; [eauto|]. lia.
    + intros Hg. destruct (Hentry g) as (e & He & <-); [lia|].
      destruct (Hfull e He) as [_ Htwo].
      destruct (proj2 (Hiff e.1)) as (r' & Hr' & Hroot & Hd & Hgrp).
      { split; [|done]. by apply Hfull. }
      exists r'. split; [|done]. unfold grouped_rows.
      apply list_elem_of_filter. split; [|done]. split_and!; [done| |done].
      by rewrite Hgrp.
Qed.

(** X11.  After regrouping, a row of the scan root that carries a group is
    active and hashed: soft-deleted rows and rows without a hash have no
    group. *)
Theorem regroup_groups_active_hashed scan_root (t : Table) (r' : Row) (g : Z) :
  r' ∈ (assign_duplicate_groups scan_root t).1 →
  scan_root_directory r' = Some scan_root →
  duplicate_group r' = Some g →
  is_deleted r' = false ∧ is_Some (file_hash r').
Proof.
  intros Hr' Hroot Hgrp.
  rewrite assign_duplicate_groups_fmap in Hr'.
  apply list_elem_of_fmap in Hr' as (r & -> & Hr).
  set (gs := enumerate 1 _) in *.
  destruct (assign_row_cols scan_root gs (reset_row scan_root r))
    as (_ & Hh & Hd & Hs & _).
  destruct (assign_row_group scan_root gs (reset_row scan_root r))
    as [(e & He & Hhash & Hact & _)|[_ Hnone]].
  - rewrite Hh, Hd, Hhash, Hact. eauto.
  - exfalso. rewrite Hnone in Hgrp. unfold reset_row in Hgrp.
    rewrite Hs in Hroot.
    destruct (reset_row_cols scan_root r) as (_ & _ & _ & Hs' & _).
    rewrite Hs' in Hroot. by rewrite decide_True in Hgrp.
Qed.

Lemma regroup_groups_active_hashed_witness :
  is_deleted (example_row 1 "/data/a" 1000 (Some "d41d8") (Some 1) false) = false
  ∧ is_Some (file_hash (example_row 1 "/data/a" 1000 (Some "d41d8") (Some 1) false)).
Proof.
  apply (regroup_groups_active_hashed "/data"
           [example_row 1 "/data/a" 1000 (Some "d41d8") None false;
            example_row 2 "/data/b" 1000 (Some "d41d8") None false;
            example_row 3 "/data/c" 1000 (Some "d41d8") (Some 4) true] _ 1).
  - vm_compute. left.
  - reflexivity.
  - reflexivity.
Defined.

Lemma regroup_count_agrees_witness :
  (∃ r', r' ∈ (assign_duplicate_groups "/data" example_table).1
         ∧ scan_root_directory r' = Some "/data"
         ∧ is_deleted r' = false ∧ duplicate_group r' = Some 1)
  ∧ 1 = (assign_duplicate_groups "/data" example_table).2.
Proof.
  split.
  - apply (proj2 (proj2 (regroup_count_agrees "/data" example_table)) 1).
    split; [split|]; vm_compute; discriminate.
  - apply (proj1 (proj2 (regroup_count_agrees "/data" example_table))
             {| duplicate_files := 2; duplicate_groups := 1;
                wasted_bytes := SqlInt 1000 |}).
    vm_compute. reflexivity.
Defined.

(** ** More on the detection pass *)

(** A candidate is an active row of the scan root. *)
Lemma size_candidates_row_root scan_root (t : Table) size files c :
  (size, files) ∈ get_size_candidates scan_root t → c ∈ files →
  ∃ r, r ∈ t ∧ c = (row_id r, full_path r, file_hash r)
       ∧ is_deleted r = false ∧ scan_root_directory r = Some scan_root.
Proof.
  intros Hin Hc. rewrite (size_candidates_members _ _ _ _ Hin) in Hc.
  unfold size_members in Hc.
  apply list_elem_of_fmap in Hc as (r & -> & Hr).
  apply list_elem_of_filter in Hr as [(Hd & _ & Hroot) Hr]. eauto.
Qed.

(** The table and the trace of the pass in terms of the hashing loop. *)
Lemma compute_hashes_for_candidates_row w now cb scan_root (t : Table) i :
  ∃ st, hashing_confined (get_size_candidates scan_root t)
          {| hs_table := t; files_hashed := 0; processed := 0; hs_trace := [] |} st
    ∧ (compute_hashes_for_candidates w now cb scan_root t).2 = hs_trace st
    ∧ ((compute_hashes_for_candidates w now cb scan_root t).1.1 !! i = hs_table st !! i
       ∨ ∃ gs, (compute_hashes_for_candidates w now cb scan_root t).1.1 !! i
               = (λ r, assign_row scan_root gs (reset_row scan_root r))
                   <$> hs_table st !! i).
Proof.
  unfold compute_hashes_for_candidates. case_decide as Hempty.
  - exists {| hs_table := t; files_hashed := 0; processed := 0; hs_trace := [] |}.
    split; [|split; [done|by left]]. split; [by left|done].
  - set (st := hash_candidates _ _ _ _ _ _). exists st.
    split; [apply hash_candidates_confined|].
    destruct (assign_duplicate_groups scan_root (hs_table st)) as [t' g] eqn:Hassign.
    simpl. split; [done|]. right. eexists.
    change t' with (t', g).1. rewrite <-Hassign, assign_duplicate_groups_fmap.
    by rewrite list_lookup_fmap.
Qed.

(** X12.  A detection pass for one scan root leaves the rows of every
    other scan root exactly as they were: no hash and no group is written
    outside the scan root. *)
Theorem detection_other_roots_untouched w now cb scan_root (t : Table)
    (i : nat) (r : Row) :
  table_wf t → t !! i = Some r → scan_root_directory r ≠ Some scan_root →
  (compute_hashes_for_candidates w now cb scan_root t).1.1 !! i = Some r.
Proof.
  intros [_ Hids] Hi Hroot.
  assert (r ∈ t) as Hr by (by eapply list_elem_of_lookup_2).
  destruct (compute_hashes_for_candidates_row w now cb scan_root t i)
    as (st & [_ Hrows] & _ & Hlook).
  assert (hs_table st !! i = Some r) as Hst.
  { apply Hrows; [done|]. intros size files c Hin Hc Hid.
    destruct (size_candidates_row_root _ _ _ _ _ Hin Hc) as (r2 & Hr2 & -> & _ & Hroot2).
    simpl in Hid. by rewrite (NoDup_fmap_inj row_id t r2 r Hids Hr2 Hr Hid) in Hroot2. }
  destruct Hlook as [->|[gs ->]]; [done|].
  rewrite Hst. simpl. f_equal.
  assert (reset_row scan_root r = r) as ->
    by (unfold reset_row; by rewrite decide_False).
  by apply assign_row_outside.
Qed.

Lemma detection_other_roots_untouched_witness :
  (compute_hashes_for_candidates example_world "2026-01-03T10:00:00" false "/photos"
     example_table).1.1 !! 0%nat
  = Some (example_row 1 "/data/a" 1000 (Some "d41d8") (Some 1) false).
Proof.
  apply detection_other_roots_untouched.
  - refine (bool_decide_unpack _ _). vm_compute. exact I.
  - reflexivity.
  - discriminate.
Defined.

Lemma hash_provenance_refl w now r : hash_provenance w now r r.
Proof. split_and!; [done..|]. by left. Qed.

Lemma hash_candidate_provenance w now cb total (t : Table) st c rc :
  NoDup (row_id <$> t) → rc ∈ t → c = (row_id rc, full_path rc, file_hash rc) →
  (∀ i r, t !! i = Some r →
     ∃ r', hs_table st !! i = Some r' ∧ hash_provenance w now r r') →
  ∀ i r, t !! i = Some r →
    ∃ r', hs_table (hash_candidate w now cb total st c) !! i = Some r'
          ∧ hash_provenance w now r r'.
Proof.
  intros Hids Hrc -> Hinv i r Hi.
  destruct (Hinv i r Hi) as (r' & Hr' & Hprov).
  unfold hash_candidate.
  destruct (file_hash rc) as [hc|] eqn:Hhc; simpl; [eauto|].
  destruct (path_exists w (full_path rc)) eqn:Hexists; simpl; [|eauto].
  destruct (calculate_hash w (full_path rc)) as [h|] eqn:Hcalc; simpl; [|eauto].
  destruct (decide (h = EmptyString)) as [Hempty|Hempty]; simpl; [eauto|].
  rewrite sql_update_lookup, Hr'. simpl. eexists. split; [done|].
  destruct Hprov as (Hid & Hpath & Hhash).
  case_decide as Hsame; [|by split_and!].
  assert (rc = r) as ->.
  { eapply (NoDup_fmap_inj row_id t); [done..| |congruence].
    by eapply list_elem_of_lookup_2. }
  split_and!; [done..|]. right. split_and!; [done..|].
  exists h. by split_and!.
Qed.

Lemma hash_candidates_provenance w now cb total scan_root (t : Table) :
  table_wf t →
  ∀ i r, t !! i = Some r →
    ∃ r', hs_table (hash_candidates w now cb total (get_size_candidates scan_root t)
                      {| hs_table := t; files_hashed := 0; processed := 0;
                         hs_trace := [] |}) !! i = Some r'
          ∧ hash_provenance w now r r'.
Proof.
  intros [_ Hids]. unfold hash_candidates.
  apply (foldl_preserves_elem
           (λ st, ∀ i r, t !! i = Some r →
                    ∃ r', hs_table st !! i = Some r' ∧ hash_provenance w now r r')).
  - intros i r Hi. exists r. split; [done|apply hash_provenance_refl].
  - intros st1 [size files] Hin Hst1. simpl.
    apply (foldl_preserves_elem
             (λ st, ∀ i r, t !! i = Some r →
                      ∃ r', hs_table st !! i = Some r' ∧ hash_provenance w now r r'));
      [done|].
    intros st2 c Hc Hst2.
    destruct (size_candidates_row_root _ _ _ _ _ Hin Hc) as (rc & Hrc & Hceq & _).
    by eapply hash_candidate_provenance.
Qed.

(** X13.  A detection pass never overwrites and never invents a hash.
    After it every row has the hash and hashing time it had before, or it
    had no hash, its file exists and its hash is now the non-empty digest
    the hasher returned for its path, stamped with the time of the pass.
    In particular a hash that was set is unchanged. *)
Theorem detection_hash_provenance w now cb scan_root (t : Table) (i : nat) (r : Row) :
  table_wf t → t !! i = Some r →
  ∃ r', (compute_hashes_for_candidates w now cb scan_root t).1.1 !! i = Some r'
    ∧ hash_provenance w now r r'
    ∧ (∀ h, file_hash r = Some h → file_hash r' = Some h).
Proof.
  intros Hwf Hi.
  assert (∀ r', hash_provenance w now r r' →
                ∀ h, file_hash r = Some h → file_hash r' = Some h) as Hkeep.
  { intros r' (_ & _ & [[-> _]|(Hnone & _)]) h Hh; congruence. }
  unfold compute_hashes_for_candidates. case_decide as Hempty.
  { simpl. exists r. split_and!; [done|apply hash_provenance_refl|done]. }
  destruct (hash_candidates_provenance w now cb
              (foldr Z.add 0 ((λ c, Z.of_nat (length c.2))
                                <$> get_size_candidates scan_root t))
              scan_root t Hwf i r Hi) as (r1 & Hr1 & Hprov).
  set (st := hash_candidates _ _ _ _ _ _) in *.
  destruct (assign_duplicate_groups scan_root (hs_table st)) as [t' g] eqn:Hassign.
  simpl. change t' with (t', g).1. rewrite <-Hassign, assign_duplicate_groups_fmap.
  rewrite list_lookup_fmap, Hr1. simpl. eexists. split; [done|].
  match goal with |- context [assign_row ?root ?gs ?x] =>
    rewrite (assign_row_only_group root gs x);
    generalize (duplicate_group (assign_row root gs x)) end.
  intros g'.
  assert (∀ g0, hash_provenance w now r (with_duplicate_group g0 (reset_row scan_root r1)))
    as Hfinal.
  { intros g0. unfold reset_row. destruct Hprov as (Hid & Hpath & Hhash).
    case_decide; by split_and!. }
  split; [apply Hfinal|]. apply Hkeep, Hfinal.
Qed.

Lemma detection_hash_provenance_witness :
  ∃ r', (compute_hashes_for_candidates example_world "2026-01-03T10:00:00" false
           "/data" example_table).1.1 !! 0%nat = Some r'
    ∧ file_hash r' = Some "d41d8".
Proof.
  destruct (detection_hash_provenance example_world "2026-01-03T10:00:00" false
              "/data" example_table 0%nat
              (example_row 1 "/data/a" 1000 (Some "d41d8") (Some 1) false))
    as (r' & Hr' & _ & Hkeep).
  - refine (bool_decide_unpack _ _). vm_compute. exact I.
  - reflexivity.
  - exists r'. split; [exact Hr'|]. by apply Hkeep.
Defined.

(** A row whose size is no key of the candidates is not passed to the
    hasher and keeps its hash columns. *)
Lemma non_candidate_not_hashed w now cb scan_root (t : Table) (i : nat) (r : Row) :
  table_wf t → t !! i = Some r →
  file_size_bytes r ∉ (get_size_candidates scan_root t).*1 →
  (HashFile (full_path r) ∉ (compute_hashes_for_candidates w now cb scan_root t).2)
  ∧ ∃ r', (compute_hashes_for_candidates w now cb scan_root t).1.1 !! i = Some r'
          ∧ file_hash r' = file_hash r ∧ hash_computed_at r' = hash_computed_at r.
Proof.
  intros [Hpaths Hids] Hi Hkey.
  assert (r ∈ t) as Hr by (by eapply list_elem_of_lookup_2).
  assert (∀ size files c, (size, files) ∈ get_size_candidates scan_root t →
            c ∈ files → c.1.1 ≠ row_id r ∧ c.1.2 ≠ full_path r) as Hother.
  { intros size files c Hin Hc.
    destruct (size_candidates_row _ _ _ _ _ Hin Hc) as (r2 & Hr2 & -> & Hsz & Hk).
    simpl. split; intros Heq.
    - assert (r2 = r) as -> by (by eapply (NoDup_fmap_inj row_id t)).
      by rewrite <-Hsz in Hk.
    - assert (r2 = r) as -> by (by eapply (NoDup_fmap_inj full_path t)).
      by rewrite <-Hsz in Hk. }
  destruct (compute_hashes_for_candidates_row w now cb scan_root t i)
    as (st & [Htr Hrows] & -> & Hlook).
  simpl in Htr, Hrows.
  assert (hs_table st !! i = Some r) as Hst.
  { apply Hrows; [done|]. intros size files c Hin Hc.
    by destruct (Hother _ _ _ Hin Hc). }
  split.
  - intros [Hin|(size & files & c & Hin & Hc & Hp)]%Htr; [inversion Hin|].
    by destruct (Hother _ _ _ Hin Hc) as [_ Hne].
  - destruct Hlook as [->|[gs ->]]; [eauto|].
    rewrite Hst. simpl. eexists. split; [done|].
    rewrite (assign_row_only_group scan_root gs). simpl.
    unfold reset_row. by case_decide.
Qed.

Lemma size_count_below_minimum scan_root (t : Table) (size : Z) :
  size < Config.MIN_FILE_SIZE_FOR_HASH → size_count scan_root t size = 0.
Proof.
  intros Hsmall. unfold size_count. rewrite filter_length_none; [done|].
  apply Forall_forall. intros r _ (_ & Hmin & _ & Hsz). lia.
Qed.

(** X14.  A file below the minimum hashable size (an empty file), and a
    file whose size no other active file of the scan root shares, is never
    passed to the hasher by a detection pass, and its hash columns stay as
    they were. *)
Theorem unshared_size_never_hashed w now cb scan_root (t : Table) (i : nat) (r : Row) :
  table_wf t → t !! i = Some r →
  file_size_bytes r < Config.MIN_FILE_SIZE_FOR_HASH
  ∨ size_count scan_root t (file_size_bytes r) < 2 →
  (HashFile (full_path r) ∉ (compute_hashes_for_candidates w now cb scan_root t).2)
  ∧ ∃ r', (compute_hashes_for_candidates w now cb scan_root t).1.1 !! i = Some r'
          ∧ file_hash r' = file_hash r ∧ hash_computed_at r' = hash_computed_at r.
Proof.
  intros Hwf Hi Hsmall. apply non_candidate_not_hashed; [done..|].
  rewrite elem_of_size_candidates_keys.
  destruct Hsmall as [Hmin|Hone].
  - rewrite size_count_below_minimum by done. lia.
  - lia.
Qed.

Lemma unshared_size_never_hashed_witness :
  HashFile "/data/empty"
    ∉ (compute_hashes_for_candidates example_world "2026-01-03T10:00:00" false "/data"
         [example_row 1 "/data/empty" 0 None None false;
          example_row 2 "/data/void" 0 None None false;
          example_row 3 "/data/a" 1000 None None false;
          example_row 4 "/data/b" 1000 None None false]).2.
Proof.
  apply (unshared_size_never_hashed example_world "2026-01-03T10:00:00" false "/data"
           [example_row 1 "/data/empty" 0 None None false;
            example_row 2 "/data/void" 0 None None false;
            example_row 3 "/data/a" 1000 None None false;
            example_row 4 "/data/b" 1000 None None false]
           0%nat (example_row 1 "/data/empty" 0 None None false)).
  - refine (bool_decide_unpack _ _). vm_compute. exact I.
  - reflexivity.
  - left. reflexivity.
Defined.

Lemma size_members_length scan_root (t : Table) (size : Z) :
  Config.MIN_FILE_SIZE_FOR_HASH ≤ size →
  Z.of_nat (length (size_members scan_root size t)) = size_count scan_root t size.
Proof.
  intros Hmin. unfold size_members, size_count. rewrite length_fmap. do 2 f_equal.
  apply list_filter_iff. intros r. split.
  - intros (Hd & Hsz & Hroot). split_and!; [done|lia|done..].
  - tauto.
Qed.

Lemma size_candidates_key_minimum scan_root (t : Table) (size : Z) :
  size ∈ (get_size_candidates scan_root t).*1 → Config.MIN_FILE_SIZE_FOR_HASH ≤ size.
Proof.
  intros Hkey%elem_of_size_candidates_keys.
  destruct (decide (Config.MIN_FILE_SIZE_FOR_HASH ≤ size)) as [|Hsmall]; [done|].
  rewrite size_count_below_minimum in Hkey by lia. lia.
Qed.

(** X15.  Every size group counted by [get_potential_duplicate_count] has
    between 2 and the cap members: the total lies between twice and
    [MAX_SAME_SIZE_FILES] times the number of groups, and is 0 exactly when
    there is no group. *)
Theorem potential_duplicate_count_bounds scan_root (t : Table) :
  2 * (get_potential_duplicate_count scan_root t).2
    ≤ (get_potential_duplicate_count scan_root t).1
  ∧ (get_potential_duplicate_count scan_root t).1
    ≤ Config.MAX_SAME_SIZE_FILES * (get_potential_duplicate_count scan_root t).2
  ∧ ((get_potential_duplicate_count scan_root t).1 = 0
     ↔ get_size_candidates scan_root t = []).
Proof.
  unfold get_potential_duplicate_count. simpl.
  assert (Forall (λ c : Z * list (Z * string * option string),
                    2 ≤ Z.of_nat (length c.2) ≤ Config.MAX_SAME_SIZE_FILES)
                 (get_size_candidates scan_root t)) as Hall.
  { apply Forall_forall. intros [size files] Hin. simpl.
    assert (size ∈ (get_size_candidates scan_root t).*1) as Hkey
      by (apply list_elem_of_fmap; by exists (size, files)).
    rewrite (size_candidates_members _ _ _ _ Hin).
    rewrite size_members_length by (by eapply size_candidates_key_minimum).
    by apply elem_of_size_candidates_keys. }
  induction Hall as [|c l Hc _ IH]; [by split_and!|].
  destruct IH as (IH1 & IH2 & IH3).
  rewrite fmap_cons. cbn [foldr length]. rewrite Nat2Z.inj_succ.
  unfold Config.MAX_SAME_SIZE_FILES in *.
  split_and!; [lia..|]. split; [lia|done].
Qed.

Lemma potential_duplicate_count_bounds_witness :
  (get_potential_duplicate_count "/data" crowded_table).1 = 0.
Proof.
  apply (proj2 (proj2 (proj2 (potential_duplicate_count_bounds "/data" crowded_table)))).
  vm_compute. reflexivity.
Defined.

(** ** The walk *)

Lemma collect_files_inner w (root : string) (names : list string)
    (all_files : list Metadata) (errors : Z) :
  foldl (λ '(all_files, errors) filename,
           if Config.SKIP_HIDDEN_FILES && String.prefix "." filename
           then (all_files, errors)
           else match get_file_metadata w (path_join w root filename) with
                | None => (all_files, errors + 1)
                | Some metadata => (all_files ++ [metadata], errors)
                end)
        (all_files, errors) names
  = (all_files ++ omap (get_file_metadata w) (path_join w root <$> names),
     errors + Z.of_nat (length (filter (λ p, get_file_metadata w p = None)
                                       (path_join w root <$> names)))).
Proof.
  revert all_files errors. induction names as [|name names IH]; intros all_files errors.
  - simpl. rewrite app_nil_r. f_equal. lia.
  - simpl foldl. simpl foldl in IH. rewrite fmap_cons.
    destruct (get_file_metadata w (path_join w root name)) as [md|] eqn:Hmd.
    + rewrite IH. rewrite filter_cons_False by (by rewrite Hmd).
      simpl. rewrite Hmd. by rewrite <-(assoc_L (++)).
    + rewrite IH. rewrite filter_cons_True by done.
      simpl. rewrite Hmd. f_equal. lia.
Qed.

Lemma collect_files_eq w (directory : string) :
  collect_files w directory
  = (omap (get_file_metadata w) (walked_paths w directory),
     Z.of_nat (length (filter (λ p, get_file_metadata w p = None)
                              (walked_paths w directory)))).
Proof.
  unfold collect_files, walked_paths.
  assert (∀ (dirs : list (string * list string)) all_files errors,
            foldl (λ acc dir,
                     foldl (λ '(all_files, errors) filename,
                              if Config.SKIP_HIDDEN_FILES && String.prefix "." filename
                              then (all_files, errors)
                              else match get_file_metadata w (path_join w dir.1 filename) with
                                   | None => (all_files, errors + 1)
                                   | Some metadata => (all_files ++ [metadata], errors)
                                   end)
                           acc dir.2)
                  (all_files, errors) dirs
            = (all_files ++ omap (get_file_metadata w)
                              (dirs ≫= λ dir, path_join w dir.1 <$> dir.2),
               errors + Z.of_nat (length (filter (λ p, get_file_metadata w p = None)
                              (dirs ≫= λ dir, path_join w dir.1 <$> dir.2))))) as Hgen.
  { induction dirs as [|dir dirs IH]; intros all_files errors.
    - simpl. rewrite app_nil_r. f_equal. lia.
    - cbn [foldl]. rewrite collect_files_inner, IH.
      rewrite bind_cons, omap_app, filter_app, length_app.
      rewrite <-(assoc_L (++)). f_equal. lia. }
  rewrite Hgen. simpl. f_equal.
Qed.

(** X16.  The walk accounts for every file name it meets: a file whose
    metadata cannot be read adds one to the error count and yields no
    record, every other file yields one record, in the order of the walk,
    carrying the walked path and no hash. *)
Theorem collect_files_accounts w (directory : string) :
  md_full_path <$> (collect_files w directory).1
    = filter (λ p, is_Some (stat_metadata w p)) (walked_paths w directory)
  ∧ (collect_files w directory).2
    = Z.of_nat (length (filter (λ p, stat_metadata w p = None)
                               (walked_paths w directory)))
  ∧ Z.of_nat (length (collect_files w directory).1) + (collect_files w directory).2
    = Z.of_nat (length (walked_paths w directory))
  ∧ Forall (λ md, md_file_hash md = None) (collect_files w directory).1.
Proof.
  rewrite collect_files_eq. simpl.
  generalize (walked_paths w directory). intros paths.
  assert (∀ p, get_file_metadata w p = None ↔ stat_metadata w p = None) as Hnone.
  { intros p. unfold get_file_metadata. by destruct (stat_metadata w p). }
  assert (∀ p md, get_file_metadata w p = Some md →
            is_Some (stat_metadata w p) ∧ md_full_path md = p
            ∧ md_file_hash md = None) as Hsome.
  { intros p md. unfold get_file_metadata.
    destruct (stat_metadata w p); simpl; [|done]. intros [= <-]. eauto. }
  induction paths as [|p paths (IH1 & IH2 & IH3 & IH4)]; [by split_and!|].
  simpl omap.
  change (list_omap string Metadata (get_file_metadata w) paths)
    with (omap (get_file_metadata w) paths).
  destruct (get_file_metadata w p) as [md|] eqn:Hmd.
  - destruct (Hsome p md Hmd) as (Hst & Hp & Hh).
    rewrite (filter_cons_True (λ p, is_Some (stat_metadata w p))) by done.
    rewrite (filter_cons_False (λ p, stat_metadata w p = None))
      by (destruct Hst; congruence).
    rewrite (filter_cons_False (λ p, get_file_metadata w p = None))
      by (by rewrite Hmd).
    rewrite fmap_cons, Hp, IH1. simpl length.
    split_and!; [done|done|lia|by constructor].
  - apply Hnone in Hmd as Hst.
    rewrite (filter_cons_False (λ p, is_Some (stat_metadata w p)))
      by (rewrite Hst; by intros [? ?]).
    rewrite (filter_cons_True (λ p, stat_metadata w p = None)) by done.
    rewrite (filter_cons_True (λ p, get_file_metadata w p = None)) by done.
    simpl length. split_and!; [done|lia|lia|done].
Qed.

(** ** Invariants of the table *)

(** An invariant of the table kept by the insert and by the refresh of a
    batch is kept by the batch. *)
Lemma process_batch_invariant (I : Table → Prop) scan_root now
    (batch : list BatchOp) t st t' st' :
  (∀ t md, I t → md_full_path md ∉ (full_path <$> t) →
           I (t ++ [inserted_row now scan_root md (next_rowid t)])) →
  (∀ t md, I t → I (sql_update (λ r, full_path r = md_full_path md)
                               (refreshed_row now scan_root md) t)) →
  I t →
  process_batch batch scan_root now (t, st) = Ok (t', st') → I t'.
Proof.
  intros Hins Hupd. revert t st. induction batch as [|op batch IH]; intros t st Ht Hrun.
  - simpl in Hrun. by injection Hrun as <- <-.
  - simpl in Hrun.
    destruct (process_op scan_root now op (t, st)) as [[t1 st1]|e] eqn:Hop; [|done].
    simpl in Hrun. apply process_op_Ok in Hop. apply (IH t1 st1); [|done].
    destruct op as [[ty md] wd]; simpl in Hop. destruct ty.
    + destruct Hop as (Hfresh & -> & _). by apply Hins.
    + destruct Hop as (-> & _). by apply Hupd.
Qed.

Lemma bulk_sync_database_invariant (I : Table → Prop) now (all_files : list Metadata)
    scan_root (t t' : Table) st' :
  (∀ t md, I t → md_full_path md ∉ (full_path <$> t) →
           I (t ++ [inserted_row now scan_root md (next_rowid t)])) →
  (∀ t md, I t → I (sql_update (λ r, full_path r = md_full_path md)
                               (refreshed_row now scan_root md) t)) →
  (∀ t (P : Row → Prop) `{!∀ r, Decision (P r)},
      I t → I (sql_update P (soft_deleted_row now) t)) →
  I t →
  bulk_sync_database now all_files scan_root t = Ok (t', st') → I t'.
Proof.
  intros Hins Hupd Hdel Ht (t1 & st1 & Hbatch & -> & _)%bulk_sync_database_Ok.
  apply Hdel. by eapply process_batch_invariant.
Qed.

(** An invariant of the table kept by every statement the store issues is
    kept by every operation. *)
Lemma run_action_invariant (I : Table → Prop) (a : Action) (t : Table) :
  (∀ t now scan_root md rid, I t → md_full_path md ∉ (full_path <$> t) →
     rid = next_rowid t → I (t ++ [inserted_row now scan_root md rid])) →
  (∀ t (P : Row → Prop) `{!∀ r, Decision (P r)} now scan_root md,
     I t → I (sql_update P (refreshed_row now scan_root md) t)) →
  (∀ t (P : Row → Prop) `{!∀ r, Decision (P r)} now,
     I t → I (sql_update P (soft_deleted_row now) t)) →
  (∀ t (P : Row → Prop) `{!∀ r, Decision (P r)} h now,
     I t → I (sql_update P (with_file_hash h now) t)) →
  (∀ t (P : Row → Prop) `{!∀ r, Decision (P r)} g,
     I t → I (sql_update P (with_duplicate_group g) t)) →
  I t → I (run_action t a).
Proof.
  intros Hins Hupd Hdel Hhash Hgrp Ht.
  assert (∀ scan_root t, I t → I (assign_duplicate_groups scan_root t).1) as Hassign.
  { intros scan_root t1 Ht1. unfold assign_duplicate_groups. simpl.
    apply (foldl_preserves I); [by apply Hgrp|].
    intros t2 g Ht2. by apply Hgrp. }
  destruct a; simpl.
  - destruct (bulk_sync_database now all_files scan_root t) as [[t' st']|e] eqn:Hrun;
      [|done].
    eapply bulk_sync_database_invariant; [| | |exact Ht|exact Hrun].
    + intros t1 md Ht1 Hfree. by apply Hins.
    + intros t1 md Ht1. by apply Hupd.
    + intros t1 P HP Ht1. by apply Hdel.
  - unfold upsert_file.
    destruct (head (filter (λ r, full_path r = md_full_path metadata) t))
      as [r0|] eqn:Hhead; simpl.
    + by apply Hupd.
    + apply Hins; [done| |done].
      intros (r & Hp & Hr)%list_elem_of_fmap.
      by apply (head_filter_None _ _ Hhead r Hr).
  - rewrite mark_deleted_fst. apply (foldl_preserves I); [done|].
    intros t1 p Ht1. by apply Hdel.
  - unfold compute_hashes_for_candidates. case_decide; [done|].
    set (st := hash_candidates _ _ _ _ _ _).
    assert (I (hs_table st)) as Hst.
    { subst st. unfold hash_candidates.
      apply (foldl_preserves (λ st, I (hs_table st))); [done|].
      intros st1 c Hst1.
      apply (foldl_preserves (λ st, I (hs_table st))); [done|].
      intros st2 [[file_id filepath] existing_hash] Hst2. unfold hash_candidate.
      destruct existing_hash; simpl; [done|].
      destruct (path_exists w filepath); simpl; [|done].
      destruct (calculate_hash w filepath) as [h|]; simpl; [|done].
      destruct (decide (h = EmptyString)); simpl; [done|]. by apply Hhash. }
    specialize (Hassign scan_root _ Hst).
    by destruct (assign_duplicate_groups scan_root (hs_table st)).
  - by apply Hassign.
Qed.

Lemma Forall_sql_update (Q : Row → Prop) (P : Row → Prop) `{!∀ r, Decision (P r)}
    (f : Row → Row) (t : Table) :
  (∀ r, Q r → Q (f r)) → Forall Q t → Forall Q (sql_update P f t).
Proof.
  intros Hf Ht. unfold sql_update. apply Forall_fmap.
  eapply Forall_impl; [exact Ht|]. intros r Hr. simpl. case_decide; auto.
Qed.

(** X17.  From the empty table, whatever operations run, every row is
    flagged deleted exactly when it carries a deletion time, and every row
    belongs to a scan root. *)
Theorem deleted_flag_consistent (acts : list Action) :
  Forall row_consistent (run_actions [] acts).
Proof.
  unfold run_actions. apply (foldl_preserves (Forall row_consistent)); [constructor|].
  intros t a Ht. apply run_action_invariant; [| | | | |done].
  - intros t1 now scan_root md rid Ht1 _ _. apply Forall_app. split; [done|].
    apply Forall_singleton. split; [|by eexists]. split; [done|]. by intros [? ?].
  - intros t1 P HP now scan_root md Ht1. apply Forall_sql_update; [|done].
    intros r _. split; [|by eexists]. split; [done|]. by intros [? ?].
  - intros t1 P HP now Ht1. apply Forall_sql_update; [|done].
    intros r [_ Hroot]. split; [|done]. split; [by eexists|done].
  - intros t1 P HP h now Ht1. by apply Forall_sql_update.
  - intros t1 P HP g Ht1. by apply Forall_sql_update.
Qed.

Lemma next_rowid_consecutive (t : Table) :
  row_id <$> t = seqZ 1 (Z.of_nat (length t)) →
  next_rowid t = 1 + Z.of_nat (length t).
Proof.
  intros Hids. unfold next_rowid. rewrite Hids. f_equal.
  generalize (length t). intros n. induction n as [|n IH]; [done|].
  rewrite seqZ_S, foldr_app. simpl.
  assert (∀ (l : list Z) b, 0 ≤ b → (∀ x, x ∈ l → x ≤ b) →
            foldr Z.max b l = b) as Hmax.
  { intros l b Hb. induction l as [|x l IHl]; intros Hle; [done|].
    simpl. rewrite IHl by (intros y Hy; apply Hle; by apply list_elem_of_further).
    specialize (Hle x (list_elem_of_here _ _)). lia. }
  rewrite Hmax; [lia|lia|].
  intros x Hx%elem_of_seqZ. lia.
Qed.

(** X18.  No operation ever removes a row or changes the id or the path
    of one: the ids and paths of the table stay, in place, through every
    sequence of operations.  From the empty table the ids are 1, 2, ... in
    row order, so an id is never reused. *)
Theorem rows_are_never_removed (acts : list Action) (t : Table) :
  ((λ r, (row_id r, full_path r)) <$> t)
    `prefix_of` ((λ r, (row_id r, full_path r)) <$> run_actions t acts)
  ∧ row_id <$> run_actions [] acts
    = seqZ 1 (Z.of_nat (length (run_actions [] acts))).
Proof.
  split.
  - unfold run_actions.
    apply (foldl_preserves
             (λ t', ((λ r, (row_id r, full_path r)) <$> t)
                      `prefix_of` ((λ r, (row_id r, full_path r)) <$> t')));
      [done|].
    intros t1 a Ht1. apply run_action_invariant; [| | | | |done].
    + intros t2 now scan_root md rid Ht2 _ _. rewrite fmap_app.
      by apply prefix_app_r.
    + intros t2 P HP now scan_root md Ht2. by rewrite sql_update_proj.
    + intros t2 P HP now Ht2. by rewrite sql_update_proj.
    + intros t2 P HP h now Ht2. by rewrite sql_update_proj.
    + intros t2 P HP g Ht2. by rewrite sql_update_proj.
  - unfold run_actions.
    apply (foldl_preserves
             (λ t', row_id <$> t' = seqZ 1 (Z.of_nat (length t')))); [done|].
    intros t1 a Ht1. apply run_action_invariant; [| | | | |done].
    + intros t2 now scan_root md rid Ht2 _ ->.
      rewrite fmap_app, length_app, Ht2. simpl length.
      rewrite Nat.add_1_r, seqZ_S. simpl.
      by rewrite (next_rowid_consecutive t2 Ht2).
    + intros t2 P HP now scan_root md Ht2.
      by rewrite sql_update_proj, sql_update_length.
    + intros t2 P HP now Ht2. by rewrite sql_update_proj, sql_update_length.
    + intros t2 P HP h now Ht2. by rewrite sql_update_proj, sql_update_length.
    + intros t2 P HP g Ht2. by rewrite sql_update_proj, sql_update_length.
Qed.

(** ** The scan as a whole *)

Lemma omap_cons_eq {A B} (f : A → option B) (x : A) (l : list A) :
  omap f (x :: l) = match f x with Some y => y :: omap f l | None => omap f l end.
Proof. done. Qed.

Lemma get_file_metadata_paths w (paths : list string) :
  md_full_path <$> omap (get_file_metadata w) paths
  = filter (λ p, is_Some (stat_metadata w p)) paths.
Proof.
  induction paths as [|p paths IH]; [done|].
  rewrite omap_cons_eq. unfold get_file_metadata at 1.
  destruct (stat_metadata w p) as [st|] eqn:Hst; simpl.
  - rewrite (filter_cons_True (λ p, is_Some (stat_metadata w p)))
      by (by rewrite Hst). by rewrite <-IH.
  - rewrite (filter_cons_False (λ p, is_Some (stat_metadata w p)))
      by (rewrite Hst; by intros [? ?]). done.
Qed.

Lemma get_file_metadata_total w (paths : list string) :
  (length (omap (get_file_metadata w) paths)
   + length (filter (λ p, get_file_metadata w p = None) paths))%nat
  = length paths.
Proof.
  induction paths as [|p paths IH]; [done|].
  rewrite omap_cons_eq.
  destruct (get_file_metadata w p) as [md|] eqn:Hmd.
  - rewrite (filter_cons_False (λ p, get_file_metadata w p = None))
      by (by rewrite Hmd). simpl. by rewrite IH.
  - rewrite (filter_cons_True (λ p, get_file_metadata w p = None)) by done.
    simpl. rewrite Nat.add_succ_r. by rewrite IH.
Qed.

(** X19.  A scan that completes accounts for every file of the walk: each
    walked file is either scanned or counted as an error; each scanned
    file is counted once as new, updated or restored; the table exists
    afterwards, keeps its schema invariant, and the active paths of the
    scan root are exactly the walked paths whose metadata could be read. *)
Theorem scan_directory_accounts w now (directory : option string)
    (db db' : option Table) (stats : ScanStats) :
  table_wf (default [] db) →
  scan_directory w now directory db = (ScanDone stats, db') →
  path_exists w (default (get_scan_directory w) directory) = true
  ∧ path_isdir w (default (get_scan_directory w) directory) = true
  ∧ scanned stats + errors stats
    = Z.of_nat (length (walked_paths w (default (get_scan_directory w) directory)))
  ∧ inserted (sync stats) + updated (sync stats) + restored (sync stats)
    = scanned stats
  ∧ ∃ t', db' = Some t' ∧ table_wf t'
      ∧ get_all_active_paths
          (normalize_path w (default (get_scan_directory w) directory)) t'
        = list_to_set
            (filter (λ p, is_Some (stat_metadata w p))
                    (walked_paths w (default (get_scan_directory w) directory))).
Proof.
  intros Hwf. unfold scan_directory.
  set (d := default (get_scan_directory w) directory).
  destruct (path_exists w d); simpl; [|done].
  destruct (path_isdir w d); simpl; [|done].
  rewrite collect_files_eq.
  assert (default [] (init_db db) = default [] db) as -> by (by destruct db).
  destruct (bulk_sync_database now _ (normalize_path w d) (default [] db))
    as [[t' st']|e] eqn:Hrun; [|done].
  intros [= <- <-]. simpl. split_and!; [done|done| | |].
  - rewrite <-Nat2Z.inj_add. f_equal. apply get_file_metadata_total.
  - pose proof Hrun as (t1 & st1 & Hbatch & _ & ->)%bulk_sync_database_Ok. simpl.
    pose proof (process_batch_stats _ _ _ _ _ _ _ Hbatch) as (Hi & Hu & Hr & _).
    pose proof (count_ops_prepare (existing_paths (normalize_path w d) (default [] db))
                  (omap (get_file_metadata w) (walked_paths w d))) as (Ci & Cu & Cr).
    pose proof (filter_lookup_partition
                  (existing_paths (normalize_path w d) (default [] db))
                  (omap (get_file_metadata w) (walked_paths w d))) as Hsum.
    rewrite Hi, Hu, Hr, Ci, Cu, Cr. simpl. lia.
  - exists t'. split; [done|]. split; [by eapply bulk_sync_database_wf|].
    rewrite <-get_file_metadata_paths. apply set_eq. intros p.
    rewrite elem_of_list_to_set. split.
    + intros (r & Hr & <- & Hd & Hroot)%elem_of_get_all_active_paths.
      by eapply bulk_sync_database_active.
    + intros (md & -> & Hmd)%list_elem_of_fmap.
      apply existing_paths_active; [by eapply bulk_sync_database_wf|].
      by eapply bulk_sync_database_observed.
Qed.

Lemma scan_directory_accounts_witness :
  scanned {| sync := {| inserted := 0; updated := 1; restored := 0; deleted := 1 |};
             scanned := 1; errors := 1 |}
  + errors {| sync := {| inserted := 0; updated := 1; restored := 0; deleted := 1 |};
              scanned := 1; errors := 1 |}
  = Z.of_nat (length (walked_paths walk_world
                        (default (get_scan_directory walk_world) None))).
Proof.
  destruct (scan_directory_accounts walk_world "2026-01-03T10:00:00" None
              (Some example_table)
              (Some (table_after "2026-01-03T10:00:00" [example_file "/data/a" 1000]
                                 "/data" example_table))
              {| sync := {| inserted := 0; updated := 1; restored := 0; deleted := 1 |};
                 scanned := 1; errors := 1 |})
    as (_ & _ & Hsum & _).
  - refine (bool_decide_unpack _ _). vm_compute. exact I.
  - vm_compute. reflexivity.
  - exact Hsum.
Defined.

(** ** The selected scan directory *)

Lemma selection_after_snoc (directories : list string) (indexes : list Z) (index : Z) :
  Selection.selection_after directories (indexes ++ [index])
  = (Selection.set_scan_directory directories index
       (Selection.selection_after directories indexes)).1.
Proof. unfold Selection.selection_after. by rewrite foldl_app. Qed.

(** X20.  With at least one configured directory, whatever indexes are
    passed to [set_scan_directory], the selection is the last index that
    was in range, or 0 when none was; it is always in range, so that
    [get_scan_directory] returns the entry at that position and never
    fails. *)
Theorem selection_always_valid (directories : list string) (indexes : list Z) :
  directories ≠ [] →
  Selection.selection_after directories indexes
    = default 0 (last (filter (λ i, 0 ≤ i ∧ i < Z.of_nat (length directories))
                              indexes))
  ∧ 0 ≤ Selection.selection_after directories indexes
      < Z.of_nat (length directories)
  ∧ Selection.get_scan_directory directories
      (Selection.selection_after directories indexes)
    = directories !! Z.to_nat (Selection.selection_after directories indexes)
  ∧ is_Some (Selection.get_scan_directory directories
               (Selection.selection_after directories indexes)).
Proof.
  intros Hne.
  assert (0 < Z.of_nat (length directories)) as Hlen
    by (destruct directories; [done|simpl; lia]).
  assert (Selection.selection_after directories indexes
          = default 0 (last (filter (λ i, 0 ≤ i ∧ i < Z.of_nat (length directories))
                                    indexes))
          ∧ 0 ≤ Selection.selection_after directories indexes
              < Z.of_nat (length directories)) as [Heq Hrange].
  { induction indexes as [|index indexes [IH1 IH2]] using rev_ind.
    - split; [done|]. unfold Selection.selection_after. simpl. lia.
    - rewrite selection_after_snoc, filter_app.
      unfold Selection.set_scan_directory.
      destruct (decide (0 ≤ index ∧ index < Z.of_nat (length directories)))
        as [Hin|Hout]; simpl.
      + rewrite (filter_cons_True _ index []) by done. rewrite filter_nil.
        rewrite last_snoc. simpl. split; [done|lia].
      + rewrite (filter_cons_False _ index []) by done. rewrite filter_nil.
        rewrite app_nil_r. split; [done|lia]. }
  split; [done|]. split; [done|].
  assert (Selection.get_scan_directory directories
            (Selection.selection_after directories indexes)
          = directories !! Z.to_nat (Selection.selection_after directories indexes))
    as Hget.
  { unfold Selection.get_scan_directory, Selection.py_index.
    destruct (decide (0 ≤ Selection.selection_after directories indexes)); [done|lia]. }
  split; [done|]. rewrite Hget. apply lookup_lt_is_Some_2. lia.
Qed.

Lemma selection_always_valid_witness :
  Selection.selection_after Selection.SCAN_DIRECTORIES [3; 9; -1] = 3
  ∧ Selection.get_scan_directory Selection.SCAN_DIRECTORIES
      (Selection.selection_after Selection.SCAN_DIRECTORIES [3; 9; -1])
    = Some "C:\Users\ADMIN\Documents".
Proof.
  destruct (selection_always_valid Selection.SCAN_DIRECTORIES [3; 9; -1])
    as (Heq & _ & Hget & _).
  - discriminate.
  - split; [rewrite Heq; vm_compute; reflexivity|].
    rewrite Hget. vm_compute. reflexivity.
Defined.

(** ** Statistics and export *)

Lemma filter_deleted_partition scan_root (t : Table) :
  (length (filter (λ r, is_deleted r = false ∧ scan_root_directory r = Some scan_root) t)
   + length (filter (λ r, is_deleted r = true ∧ scan_root_directory r = Some scan_root) t))%nat
  = length (filter (λ r, scan_root_directory r = Some scan_root) t)
  ∧ foldr Z.add 0 (file_size_bytes <$>
      filter (λ r, is_deleted r = false ∧ scan_root_directory r = Some scan_root) t)
    + foldr Z.add 0 (file_size_bytes <$>
        filter (λ r, is_deleted r = true ∧ scan_root_directory r = Some scan_root) t)
    = foldr Z.add 0 (file_size_bytes <$>
        filter (λ r, scan_root_directory r = Some scan_root) t).
Proof.
  induction t as [|r t [IH1 IH2]]; [done|].
  destruct (decide (scan_root_directory r = Some scan_root)) as [Hroot|Hroot].
  - rewrite (filter_cons_True (λ r, scan_root_directory r = Some scan_root)) by done.
    destruct (is_deleted r) eqn:Hd.
    + rewrite (filter_cons_False
                 (λ r, is_deleted r = false ∧ scan_root_directory r = Some scan_root))
        by (rewrite Hd; by intros [? _]).
      rewrite (filter_cons_True
                 (λ r, is_deleted r = true ∧ scan_root_directory r = Some scan_root))
        by done.
      rewrite !fmap_cons. cbn [foldr length]. split; lia.
    + rewrite (filter_cons_True
                 (λ r, is_deleted r = false ∧ scan_root_directory r = Some scan_root))
        by done.
      rewrite (filter_cons_False
                 (λ r, is_deleted r = true ∧ scan_root_directory r = Some scan_root))
        by (rewrite Hd; by intros [? _]).
      rewrite !fmap_cons. cbn [foldr length]. split; lia.
  - rewrite (filter_cons_False (λ r, scan_root_directory r = Some scan_root)) by done.
    rewrite (filter_cons_False
               (λ r, is_deleted r = false ∧ scan_root_directory r = Some scan_root))
      by (by intros [_ ?]).
    rewrite (filter_cons_False
               (λ r, is_deleted r = true ∧ scan_root_directory r = Some scan_root))
      by (by intros [_ ?]).
    done.
Qed.

Lemma remove_dups_length `{EqDecision A} (l : list A) :
  (length (remove_dups l) ≤ length l)%nat
  ∧ (l = [] ∨ 0 < length (remove_dups l))%nat.
Proof.
  induction l as [|x l [IH1 IH2]]; [by split; [|left]|].
  simpl. destruct (decide_rel elem_of x l) as [Hin|Hout]; simpl.
  - split; [lia|right]. destruct IH2 as [->|?]; [|done]. by apply elem_of_nil in Hin.
  - split; [lia|right; lia].
Qed.

(** The sum of sizes returned by one query of [get_statistics]. *)
Lemma sum_sizes_Ok scan_root (is_del : bool) (t : Table) (v : SqlNum) :
  sum_sizes scan_root is_del t = Ok v →
  v = SqlInt (foldr Z.add 0 (file_size_bytes <$>
                filter (λ r, is_deleted r = is_del
                             ∧ scan_root_directory r = Some scan_root) t))
  ∧ in_int64 (foldr Z.add 0 (file_size_bytes <$>
                filter (λ r, is_deleted r = is_del
                             ∧ scan_root_directory r = Some scan_root) t)).
Proof.
  unfold sum_sizes. rewrite (list_fmap_compose file_size_bytes SqlInt).
  destruct (sql_sum _) as [total|e] eqn:Hsum; [|done].
  destruct (sql_sum_int _ _ Hsum) as [Hv Hrange]. simpl.
  intros [= <-]. by rewrite Hv.
Qed.

Lemma sum_sizes_nonneg scan_root (is_del : bool) (t : Table) :
  (∀ r, r ∈ t → 0 ≤ file_size_bytes r) →
  sum_sizes scan_root is_del t
  = if decide (foldr Z.add 0 (file_size_bytes <$>
                 filter (λ r, is_deleted r = is_del
                              ∧ scan_root_directory r = Some scan_root) t)
               ≤ int64_max)
    then Ok (SqlInt (foldr Z.add 0 (file_size_bytes <$>
                 filter (λ r, is_deleted r = is_del
                              ∧ scan_root_directory r = Some scan_root) t)))
    else Raise (OperationalError "integer overflow").
Proof.
  intros Hsizes. unfold sum_sizes. rewrite (list_fmap_compose file_size_bytes SqlInt).
  rewrite sql_sum_nonneg.
  - destruct (decide _); [|done]. simpl.
    by destruct (file_size_bytes <$> filter _ t).
  - apply Forall_fmap, Forall_forall. intros r Hr%list_elem_of_filter. simpl.
    apply Hsizes. tauto.
Qed.

(** X21.  Whenever [get_statistics] returns, its counts and sums split
    the rows of the scan root in two: the active count is the file count
    of the store, active and deleted counts add up to the number of rows
    of the scan root, and the two sums of sizes are exact integers that add
    up to the total size of those rows.  The counts of distinct directories
    and of distinct extensions are at most the active count, and at least 1
    unless there is no active file.  With sizes that are not negative it
    returns exactly when the active and the deleted sizes each add up to a
    64-bit integer; otherwise it raises [integer overflow]. *)
Theorem statistics_partition scan_root (t : Table) :
  (∀ s, get_statistics scan_root t = Ok s →
     total_files s = get_file_count scan_root t
     ∧ total_files s + deleted_files s
       = Z.of_nat (length (filter (λ r, scan_root_directory r = Some scan_root) t))
     ∧ (∃ active_size deleted_size,
          total_size_bytes s = SqlInt active_size
          ∧ deleted_size_bytes s = SqlInt deleted_size
          ∧ in_int64 active_size ∧ in_int64 deleted_size
          ∧ active_size + deleted_size
            = foldr Z.add 0 (file_size_bytes <$>
                filter (λ r, scan_root_directory r = Some scan_root) t))
     ∧ total_directories s ≤ total_files s
     ∧ unique_extensions s ≤ total_files s
     ∧ (total_files s = 0 ∨ (0 < total_directories s ∧ 0 < unique_extensions s)))
  ∧ ((∀ r, r ∈ t → 0 ≤ file_size_bytes r) →
     (foldr Z.add 0 (file_size_bytes <$>
        filter (λ r, is_deleted r = false ∧ scan_root_directory r = Some scan_root) t)
        ≤ int64_max →
      foldr Z.add 0 (file_size_bytes <$>
        filter (λ r, is_deleted r = true ∧ scan_root_directory r = Some scan_root) t)
        ≤ int64_max →
      ∃ s, get_statistics scan_root t = Ok s)
     ∧ (int64_max < foldr Z.add 0 (file_size_bytes <$>
          filter (λ r, is_deleted r = false ∧ scan_root_directory r = Some scan_root) t)
        ∨ int64_max < foldr Z.add 0 (file_size_bytes <$>
            filter (λ r, is_deleted r = true ∧ scan_root_directory r = Some scan_root) t) →
        get_statistics scan_root t = Raise (OperationalError "integer overflow"))).
Proof.
  split.
  - intros s. unfold get_statistics.
    destruct (sum_sizes scan_root false t) as [active_size|e] eqn:Hactive; [|done].
    destruct (sum_sizes scan_root true t) as [deleted_size|e] eqn:Hgone; [|done].
    simpl. intros [= <-]. simpl.
    destruct (sum_sizes_Ok _ _ _ _ Hactive) as [-> Hrange1].
    destruct (sum_sizes_Ok _ _ _ _ Hgone) as [-> Hrange2].
    destruct (filter_deleted_partition scan_root t) as [Hcount Hsum].
    unfold count_files, get_file_count.
    set (active := filter (λ r, is_deleted r = false
                                ∧ scan_root_directory r = Some scan_root) t) in *.
    destruct (remove_dups_length (parent_directory <$> active)) as [Hd1 Hd2].
    destruct (remove_dups_length (file_extension <$> active)) as [He1 He2].
    rewrite length_fmap in Hd1, He1.
    split_and!; [done|lia| |lia|lia|].
    + eexists _, _. split_and!; [done|done|done|done|exact Hsum].
    + destruct active as [|r active]; [by left|right].
      destruct Hd2 as [?|Hd2]; [done|]. destruct He2 as [?|He2]; [done|]. lia.
  - intros Hsizes. unfold get_statistics.
    rewrite !sum_sizes_nonneg by done. split.
    + intros Hfit1 Hfit2. rewrite !decide_True by done. simpl. eauto.
    + intros Hover.
      destruct (decide (foldr Z.add 0 (file_size_bytes <$>
                  filter (λ r, is_deleted r = false
                               ∧ scan_root_directory r = Some scan_root) t)
                ≤ int64_max)) as [Hfit1|Hout1]; [|done].
      simpl. rewrite decide_False; [done|]. lia.
Qed.

Lemma statistics_partition_witness :
  (2 + 1 = Z.of_nat (length (filter (λ r, scan_root_directory r = Some "/data")
                                    example_table))
   ∧ ∃ active_size deleted_size,
       SqlInt 2000 = SqlInt active_size ∧ SqlInt 500 = SqlInt deleted_size
       ∧ active_size + deleted_size
         = foldr Z.add 0 (file_size_bytes <$>
             filter (λ r, scan_root_directory r = Some "/data") example_table))
  ∧ get_statistics "/data" grown_table = Raise (OperationalError "integer overflow").
Proof.
  split.
  - destruct (statistics_partition "/data" example_table) as [Hok _].
    destruct (Hok {| total_files := 2; total_size_bytes := SqlInt 2000;
                     deleted_files := 1; deleted_size_bytes := SqlInt 500;
                     total_directories := 1; unique_extensions := 1 |})
      as (_ & Hcount & (a & d & Ha & Hd & _ & _ & Hsum) & _).
    + vm_compute. reflexivity.
    + split; [exact Hcount|]. exists a, d. split_and!; [exact Ha|exact Hd|exact Hsum].
  - destruct (statistics_partition "/data" grown_table) as [_ Hraise].
    apply Hraise.
    + intros r. vm_compute. intros Hr.
      repeat (apply elem_of_cons in Hr as [->|Hr]; [discriminate|]).
      inversion Hr.
    + left. by vm_compute.
Defined.

Lemma path_le_total : Total path_le.
Proof. intros r1 r2. unfold path_le. apply String.leb_total. Qed.

(** X22.  The export of a scan root writes one line for every row of the
    scan root, soft-deleted rows included, and for no other row: the
    returned count is the number of lines, is the sum of the counts of
    active and of deleted rows, and is the sum of the active and deleted
    counts of the statistics whenever [get_statistics] returns them.  The
    lines come in the order of their
    paths, each has one cell for every column of the header, and every
    column of the header is a column of the table, so that no cell is
    filled in for a missing column. *)
Theorem export_covers_scan_root scan_root (t : Table) :
  (export_to_csv scan_root t).2 = Z.of_nat (length (export_to_csv scan_root t).1.2)
  ∧ (export_to_csv scan_root t).2
    = count_files scan_root false t + count_files scan_root true t
  ∧ (∀ s, get_statistics scan_root t = Ok s →
          (export_to_csv scan_root t).2 = total_files s + deleted_files s)
  ∧ (λ line : list Cell, line !! 6%nat) <$> (export_to_csv scan_root t).1.2
    ≡ₚ (λ r, Some (CText (full_path r)))
         <$> filter (λ r, scan_root_directory r = Some scan_root) t
  ∧ Sorted (λ p1 p2, String.leb p1 p2 = true) (full_path <$> export_rows scan_root t)
  ∧ Forall (λ line : list Cell, length line = length (export_to_csv scan_root t).1.1)
           (export_to_csv scan_root t).1.2
  ∧ Forall (λ col, ∀ r, is_Some (row_get col r)) (export_to_csv scan_root t).1.1.
Proof.
  unfold export_to_csv. simpl.
  pose proof (merge_sort_Permutation path_le
                (filter (λ r, scan_root_directory r = Some scan_root) t)) as Hperm.
  fold (export_rows scan_root t) in Hperm.
  split_and!.
  - by rewrite length_fmap.
  - destruct (filter_deleted_partition scan_root t) as [Hcount _].
    unfold count_files. rewrite (Permutation_length Hperm), <-Hcount. lia.
  - intros s. unfold get_statistics.
    destruct (sum_sizes scan_root false t); [|done].
    destruct (sum_sizes scan_root true t); [|done].
    simpl. intros [= <-]. simpl.
    destruct (filter_deleted_partition scan_root t) as [Hcount _].
    unfold count_files. rewrite (Permutation_length Hperm), <-Hcount. lia.
  - rewrite <-list_fmap_compose.
    erewrite (list_fmap_ext _ (λ r, Some (CText (full_path r))));
      [by rewrite Hperm|by intros].
  - apply (Sorted_fmap _ path_le); [done|].
    apply (@Sorted_merge_sort _ path_le _ path_le_total).
  - apply Forall_fmap, Forall_true. intros r. reflexivity.
  - unfold CSV_COLUMNS.
    repeat (apply Forall_cons; split; [intros r; vm_compute; eauto|]).
    constructor.
Qed.

Lemma export_covers_scan_root_witness :
  (export_to_csv "/data" example_table).2 = 2 + 1.
Proof.
  destruct (export_covers_scan_root "/data" example_table) as (_ & _ & Hstats & _).
  apply (Hstats {| total_files := 2; total_size_bytes := SqlInt 2000;
                   deleted_files := 1; deleted_size_bytes := SqlInt 500;
                   total_directories := 1; unique_extensions := 1 |}).
  vm_compute. reflexivity.
Defined.
